(** * BPEtfbs: greedy pair-merge learning, merge replay and windowed
      co-occurrence, embedded from the Python sources

    The development follows the three source files:
    - [bpe_processor.py]   (class [BPEProcessor]),
    - [standard_bpe.py]    (class [StandardBPE]),
    - [glove_cooccurrence.py] (class [CooccurrenceMatrix]).

    Modelling choices, fixed once for the whole file.
    - A Python [str] is a list of characters ([pystr]); characters are the
      code points below 256, so [str.isspace] is its restriction to that
      range.
    - A Python [dict] (also [Counter] and [defaultdict]) is an association
      list in insertion order without duplicate keys: [max(d, key=d.get)]
      iterates a dict in insertion order, and the learner depends on it.
    - A Python [int] is a [Z].
    - A Python [float] is a binary64 number.  [Cooc64] holds the loops of
      [compute_cooccurrence] with the table in binary64 ([PrimFloat]):
      the division [1.0 / distance] and every [+=] round to the nearest
      number, ties to even, as the program does.  [Cooc] holds the same
      loops, and the functions around them, with the weights as exact
      rationals ([Q]), without rounding: the two tables have the same
      keys in the same order ([exact_table_keys]), and the weights of
      the concrete scenarios are dyadic numbers that binary64 holds
      exactly.  The weights that [compute_cooccurrence] accumulates are
      characterised on [Cooc64].
    - An operation that may raise returns an [option]; [None] stands for
      "an exception propagates to the caller".
    - [re.sub] is embedded for the one shape of pattern the sources build,
      [(?<!\S) + re.escape(bigram) + (?!\S)], together with the processing
      of the replacement template that [re.sub] applies to a string
      replacement (CPython [re._parser.parse_template], 3.12).
    - A text file that is read is the list of its lines, as the
      iteration over the open file yields them.  Of a function that
      writes a file, the embedding keeps the rows it computes, the
      dictionary reads that may raise and the value it returns; opening
      and writing files, printing and the command line are left out. *)

From Stdlib Require Import Ascii String ZArith QArith Lia Bool Arith List.
From Stdlib Require Import Sorted Permutation.
From Stdlib Require PrimFloat Uint63 SpecFloat FloatOps.
Import ListNotations.
Local Close Scope Q_scope.
Local Open Scope nat_scope.
Local Open Scope list_scope.

Set Implicit Arguments.

(* ================================================================== *)
(** * Python strings *)
(* ================================================================== *)

Module Py.

Definition pystr : Type := list ascii.

(** A string literal of the sources. *)
Definition str (s : string) : pystr := list_ascii_of_string s.

(** [c.isspace()] for one character: TAB..CR, FS..US, SPACE, NEL and
    NBSP are the white-space code points below 256.  The class [\s] of
    [re] on [str] patterns is the same set. *)
Definition isspace (c : ascii) : bool :=
  let n := nat_of_ascii c in
  ((9 <=? n) && (n <=? 13)) || ((28 <=? n) && (n <=? 32))
  || (n =? 133) || (n =? 160).

(** The backslash, code point 92. *)
Definition backslash : ascii := "092"%char.

(** Equality of strings, [a == b]. *)
Fixpoint eqb (a b : pystr) : bool :=
  match a, b with
  | [], [] => true
  | x :: a', y :: b' => Ascii.eqb x y && eqb a' b'
  | _, _ => false
  end.

(** [w.split()] with no argument: the maximal runs of non-white-space
    characters, in order.  [cur] is the run being read. *)
Fixpoint split_from (cur : pystr) (w : pystr) : list pystr :=
  match w with
  | [] => match cur with [] => [] | _ => [cur] end
  | c :: w' =>
      if isspace c
      then match cur with
           | [] => split_from [] w'
           | _ => cur :: split_from [] w'
           end
      else split_from (cur ++ [c]) w'
  end.

Definition split (w : pystr) : list pystr := split_from [] w.

(** [sep.join(parts)]. *)
Fixpoint join (sep : pystr) (parts : list pystr) : pystr :=
  match parts with
  | [] => []
  | [x] => x
  | x :: rest => x ++ sep ++ join sep rest
  end.

(** Iterating a [str] yields its characters as one-character strings:
    [list(word)], and the argument of [' '.join(seq)]. *)
Definition chars (s : pystr) : list pystr := map (fun c => [c]) s.

(** [''.join(parts)]. *)
Definition concat (parts : list pystr) : pystr := List.concat parts.

(** Lexicographic order by code point, [a <= b] on [str]. *)
Fixpoint leb (a b : pystr) : bool :=
  match a, b with
  | [], _ => true
  | _ :: _, [] => false
  | x :: a', y :: b' =>
      if (nat_of_ascii x <? nat_of_ascii y) then true
      else if (nat_of_ascii y <? nat_of_ascii x) then false
      else leb a' b'
  end.

Fixpoint insert_sorted (x : pystr) (l : list pystr) : list pystr :=
  match l with
  | [] => [x]
  | y :: l' => if leb x y then x :: l else y :: insert_sorted x l'
  end.

(** [sorted(keys)] on strings. *)
Definition sorted (l : list pystr) : list pystr :=
  fold_right insert_sorted [] l.

(** [w.lstrip()], [w.rstrip()] and [w.strip()] with no argument: the
    white space at the ends is removed. *)
Fixpoint lstrip (w : pystr) : pystr :=
  match w with
  | [] => []
  | c :: w' => if isspace c then lstrip w' else w
  end.

Definition rstrip (w : pystr) : pystr := rev (lstrip (rev w)).

Definition strip (w : pystr) : pystr := rstrip (lstrip w).

(** [w.startswith(c)] for a prefix [c] of one character. *)
Definition startswith (c : ascii) (w : pystr) : bool :=
  match w with
  | [] => false
  | x :: _ => Ascii.eqb x c
  end.

(** [l[:k]]: the first [k] elements, all but the last [-k] when [k] is
    negative. *)
Definition slice_to {A : Type} (l : list A) (k : Z) : list A :=
  if (0 <=? k)%Z then firstn (Z.to_nat k) l
  else firstn (length l - Z.to_nat (- k)) l.

(** [sorted(l, key=..., reverse=True)]: decreasing keys, and the sort is
    stable, so elements with equal keys keep their order.  [lt x y]
    tells that the key of [x] is strictly below the key of [y]. *)
Fixpoint insert_desc {A : Type} (lt : A -> A -> bool) (x : A) (l : list A)
  : list A :=
  match l with
  | [] => [x]
  | y :: l' => if lt x y then y :: insert_desc lt x l' else x :: l
  end.

Definition sorted_desc {A : Type} (lt : A -> A -> bool) (l : list A)
  : list A :=
  fold_right (insert_desc lt) [] l.

End Py.

Import Py.

(* ================================================================== *)
(** * Insertion-ordered dictionaries *)
(* ================================================================== *)

Module Dict.
Section WithKey.
Variables (K V : Type) (keq : K -> K -> bool).

Definition dict : Type := list (K * V).

(** [d.get(k)], [None] when [k not in d]. *)
Fixpoint get (d : dict) (k : K) : option V :=
  match d with
  | [] => None
  | (k', v) :: d' => if keq k k' then Some v else get d' k
  end.

(** [k in d]. *)
Definition mem (d : dict) (k : K) : bool :=
  match get d k with Some _ => true | None => false end.

(** [d.get(k, dflt)]; also the read of a [defaultdict]. *)
Definition get_default (d : dict) (k : K) (dflt : V) : V :=
  match get d k with Some v => v | None => dflt end.

(** [d[k] = v]: an existing key keeps its place, a new key is
    appended. *)
Fixpoint set (d : dict) (k : K) (v : V) : dict :=
  match d with
  | [] => [(k, v)]
  | (k', v') :: d' =>
      if keq k k' then (k', v) :: d' else (k', v') :: set d' k v
  end.

Definition keys (d : dict) : list K := map fst d.
Definition values (d : dict) : list V := map snd d.
End WithKey.
End Dict.

(* ================================================================== *)
(** * The regular-expression substitution of the sources *)
(* ================================================================== *)

Module Re.

(** ** Replacement templates

    [p.sub(repl, word)] with a string [repl] first compiles [repl] as a
    template (before any match is searched, so a malformed template
    raises even when nothing matches).  The compiled patterns of the
    sources have no capturing group, so every group reference except
    group 0 (the whole match) is an error. *)

Inductive titem : Type :=
| TLit (c : ascii)     (* a literal character *)
| TGroup0.             (* the text of the whole match *)

Definition is_digit (c : ascii) : bool :=
  let n := nat_of_ascii c in (48 <=? n) && (n <=? 57).

Definition is_octdigit (c : ascii) : bool :=
  let n := nat_of_ascii c in (48 <=? n) && (n <=? 55).

Definition is_ascii_letter (c : ascii) : bool :=
  let n := nat_of_ascii c in
  ((65 <=? n) && (n <=? 90)) || ((97 <=? n) && (n <=? 122)).

Definition digit_val (c : ascii) : nat := nat_of_ascii c - 48.

(** The table [ESCAPES] of the template parser. *)
Definition ESCAPES (c : ascii) : option ascii :=
  if Ascii.eqb c "a" then Some (ascii_of_nat 7)
  else if Ascii.eqb c "b" then Some (ascii_of_nat 8)
  else if Ascii.eqb c "f" then Some (ascii_of_nat 12)
  else if Ascii.eqb c "n" then Some (ascii_of_nat 10)
  else if Ascii.eqb c "r" then Some (ascii_of_nat 13)
  else if Ascii.eqb c "t" then Some (ascii_of_nat 9)
  else if Ascii.eqb c "v" then Some (ascii_of_nat 11)
  else if Ascii.eqb c backslash then Some backslash
  else None.

Local Notation "x ::? r" := (option_map (cons x) r)
  (at level 60, right associativity).

(** [parse_template repl]: [None] when the template is rejected.
    - a character other than a backslash is a literal;
    - a backslash at the end is an error;
    - [\g<name>] is a group reference: only a [name] made of one or
      more digits [0] denotes group 0, any other name (or a missing [<]
      or [>]) is an error;
    - [\0], [\0o], [\0oo] and [\ooo] (octal digits) are the character
      with that code, at most 0o377;
    - [\d], [\dd] otherwise refer to a group that does not exist;
    - [\a \b \f \n \r \t \v \\] are the characters of [ESCAPES];
    - a backslash before another ASCII letter is an error;
    - a backslash before any other character stays, with that
      character. *)
Fixpoint parse_template (s : pystr) : option (list titem) :=
  match s with
  | [] => Some []
  | c :: rest =>
    if negb (Ascii.eqb c backslash) then TLit c ::? parse_template rest
    else
      match rest with
      | [] => None
      | e :: rest1 =>
        if Ascii.eqb e "g" then
          match rest1 with
          | lt :: rest2 =>
            if Ascii.eqb lt "<" then
              (fix group_name (seen : bool) (r : pystr) {struct r}
                 : option (list titem) :=
                 match r with
                 | [] => None
                 | x :: r' =>
                   if Ascii.eqb x ">"
                   then (if seen then TGroup0 ::? parse_template r'
                         else None)
                   else if Ascii.eqb x "0" then group_name true r'
                   else None
                 end) false rest2
            else None
          | [] => None
          end
        else if Ascii.eqb e "0" then
          match rest1 with
          | o1 :: rest2 =>
            if is_octdigit o1 then
              match rest2 with
              | o2 :: rest3 =>
                if is_octdigit o2
                then TLit (ascii_of_nat (8 * digit_val o1 + digit_val o2))
                       ::? parse_template rest3
                else TLit (ascii_of_nat (digit_val o1))
                       ::? parse_template rest2
              | [] => TLit (ascii_of_nat (digit_val o1))
                        ::? parse_template rest2
              end
            else TLit (ascii_of_nat 0) ::? parse_template rest1
          | [] => TLit (ascii_of_nat 0) ::? parse_template rest1
          end
        else if is_digit e then
          match rest1 with
          | d2 :: rest2 =>
            match rest2 with
            | d3 :: rest3 =>
              if is_octdigit e && is_octdigit d2 && is_octdigit d3 then
                let v := 64 * digit_val e + 8 * digit_val d2 + digit_val d3 in
                if 255 <? v then None
                else TLit (ascii_of_nat v) ::? parse_template rest3
              else None
            | [] => None
            end
          | [] => None
          end
        else
          match ESCAPES e with
          | Some x => TLit x ::? parse_template rest1
          | None =>
            if is_ascii_letter e then None
            else TLit backslash ::? TLit e ::? parse_template rest1
          end
      end
  end.

(** The text a compiled template produces for the match [m]. *)
Definition expand (tpl : list titem) (m : pystr) : pystr :=
  flat_map (fun it => match it with TLit c => [c] | TGroup0 => m end) tpl.

(** ** Matching [(?<!\S) lit (?!\S)]

    [re.escape] makes every character of [lit] match itself. *)

(** [(?<!\S)]: no non-white-space character just before. *)
Definition lookbehind_not_S (prev : option ascii) : bool :=
  match prev with None => true | Some c => isspace c end.

(** [(?!\S)]: no non-white-space character just after. *)
Definition lookahead_not_S (rest : pystr) : bool :=
  match rest with [] => true | c :: _ => isspace c end.

(** [lit] is read at the head of [w]; the result is what follows. *)
Fixpoint match_literal (lit w : pystr) : option pystr :=
  match lit with
  | [] => Some w
  | x :: lit' =>
      match w with
      | [] => None
      | y :: w' => if Ascii.eqb x y then match_literal lit' w' else None
      end
  end.

Definition match_here (lit : pystr) (prev : option ascii) (w : pystr)
  : bool :=
  lookbehind_not_S prev &&
  match match_literal lit w with
  | Some rest => lookahead_not_S rest
  | None => false
  end.

(** The left-to-right scan of [sub] over non-overlapping matches.
    [prev] is the character before the current position in the subject
    string (look-behind reads the subject, not the output); [skip]
    counts the characters of the current match still to be passed.
    The literals of the sources contain a space, so a match is never
    empty. *)
Fixpoint sub_scan (lit : pystr) (tpl : list titem)
         (prev : option ascii) (skip : nat) (w : pystr) : pystr :=
  match w with
  | [] => []
  | c :: w' =>
      match skip with
      | S k => sub_scan lit tpl (Some c) k w'
      | O =>
          if match_here lit prev w
          then expand tpl lit ++ sub_scan lit tpl (Some c) (length lit - 1) w'
          else c :: sub_scan lit tpl (Some c) 0 w'
      end
  end.

(** [re.compile(r'(?<!\S)' + re.escape(lit) + r'(?!\S)').sub(repl, w)]. *)
Definition sub (lit repl w : pystr) : option pystr :=
  match parse_template repl with
  | None => None
  | Some tpl => Some (sub_scan lit tpl None 0 w)
  end.

End Re.

(* ================================================================== *)
(** * Pair statistics and merging, common to both BPE classes *)
(* ================================================================== *)

(** [BPEProcessor] and [StandardBPE] define [get_stats] and
    [merge_vocab] with the same text, and inline the same substitution
    in [apply_bpe]; they are embedded once. *)
Module BPE.

Definition pair : Type := (pystr * pystr)%type.

Definition pair_eqb (p q : pair) : bool :=
  Py.eqb (fst p) (fst q) && Py.eqb (snd p) (snd q).

(** The working vocabulary: space-joined token list -> frequency. *)
Definition vocab_t : Type := Dict.dict pystr Z.

(** Pair statistics: adjacent pair -> aggregate frequency. *)
Definition stats_t : Type := Dict.dict pair Z.

(** [(symbols[i], symbols[i+1])] for [i] in [range(len(symbols) - 1)]. *)
Fixpoint adjacent (symbols : list pystr) : list pair :=
  match symbols with
  | [] => []
  | a :: tl =>
      match tl with
      | [] => []
      | b :: _ => (a, b) :: adjacent tl
      end
  end.

(** [pairs[p] += freq] on a [defaultdict(int)]. *)
Definition bump (pairs : stats_t) (p : pair) (freq : Z) : stats_t :=
  Dict.set pair_eqb pairs p (Dict.get_default pair_eqb pairs p 0 + freq)%Z.

Definition get_stats (vocab : vocab_t) : stats_t :=
  fold_left
    (fun pairs (entry : pystr * Z) =>
       let (word, freq) := entry in
       let symbols := split word in
       fold_left (fun pairs p => bump pairs p freq) (adjacent symbols) pairs)
    vocab [].

(** [' '.join(pair)] and [''.join(pair)]. *)
Definition bigram (p : pair) : pystr := fst p ++ [" "%char] ++ snd p.
Definition merged (p : pair) : pystr := fst p ++ snd p.

(** One replay step: [p.sub(''.join(pair), word)] with
    [p = re.compile(r'(?<!\S)' + re.escape(' '.join(pair)) + r'(?!\S)')]. *)
Definition merge_word (p : pair) (word : pystr) : option pystr :=
  Re.sub (bigram p) (merged p) word.

(** [v_out[new_word] = v_in[word]] for each [word] of [v_in], in order.
    The template is compiled by the first call of [sub], so an empty
    [v_in] never raises. *)
Definition merge_vocab (p : pair) (v_in : vocab_t) : option vocab_t :=
  fold_left
    (fun (acc : option vocab_t) (entry : pystr * Z) =>
       let (word, freq) := entry in
       match acc with
       | None => None
       | Some v_out =>
           match merge_word p word with
           | None => None
           | Some new_word => Some (Dict.set Py.eqb v_out new_word freq)
           end
       end)
    v_in (Some []).

(** [max(pairs, key=pairs.get)]: the first key, in iteration order,
    whose value no later key exceeds strictly. *)
Fixpoint max_from (best : pair) (best_v : Z) (rest : stats_t) : pair :=
  match rest with
  | [] => best
  | (k, v) :: rest' =>
      if (best_v <? v)%Z then max_from k v rest'
      else max_from best best_v rest'
  end.

Definition max_key (pairs : stats_t) : option pair :=
  match pairs with
  | [] => None
  | (k, v) :: rest => Some (max_from k v rest)
  end.

(** One iteration of the learning loop. *)
Inductive step_result : Type :=
| Exhausted                               (* [if not pairs: break] *)
| Raised                                  (* [merge_vocab] raised *)
| Merged (best_pair : pair) (v : vocab_t).

Definition learn_step (vocab : vocab_t) : step_result :=
  let pairs := get_stats vocab in
  match max_key pairs with
  | None => Exhausted
  | Some best_pair =>
      match merge_vocab best_pair vocab with
      | None => Raised
      | Some v => Merged best_pair v
      end
  end.

(** [for i in range(n)]: the loop state is the vocabulary and the list
    of codes learned so far. *)
Fixpoint learn_loop (n : nat) (vocab : vocab_t) (codes : list pair)
  : option (vocab_t * list pair) :=
  match n with
  | O => Some (vocab, codes)
  | S n' =>
      match learn_step vocab with
      | Exhausted => Some (vocab, codes)
      | Raised => None
      | Merged best_pair v => learn_loop n' v (codes ++ [best_pair])
      end
  end.

(** [for pair in self.bpe_codes: word = p.sub(''.join(pair), word)]. *)
Fixpoint replay (codes : list pair) (word : pystr) : option pystr :=
  match codes with
  | [] => Some word
  | p :: codes' =>
      match merge_word p word with
      | None => None
      | Some word' => replay codes' word'
      end
  end.

(** [tokens.update(word.split())] for every word of the vocabulary, as
    the list of distinct tokens in order of first occurrence. *)
Definition add_token (seen : list pystr) (t : pystr) : list pystr :=
  if existsb (Py.eqb t) seen then seen else seen ++ [t].

Definition token_set (vocab : vocab_t) : list pystr :=
  fold_left (fun seen (entry : pystr * Z) =>
               fold_left add_token (split (fst entry)) seen)
            vocab [].

End BPE.

(* ================================================================== *)
(** * [bpe_processor.py] *)
(* ================================================================== *)

Module BPEProcessor.
Import BPE.

Record t : Type := mk {
  num_merges : Z;
  bpe_codes : list pair;
  vocab : vocab_t
}.

(** [BPEProcessor(num_merges)]. *)
Definition init (num_merges : Z) : t :=
  {| num_merges := num_merges; bpe_codes := []; vocab := [] |}.

Definition get_stats := BPE.get_stats.
Definition merge_vocab := BPE.merge_vocab.

(** ['<s> ' + ' '.join(seq) + ' </s>']. *)
Definition spaced (seq : pystr) : pystr :=
  str "<s> " ++ join [" "%char] (chars seq) ++ str " </s>".

(** [vocab[spaced_seq] += 1] on a [Counter], for each sequence. *)
Definition prepare_sequences (sequences : list pystr) : vocab_t :=
  fold_left
    (fun vocab seq =>
       let spaced_seq := spaced seq in
       Dict.set Py.eqb vocab spaced_seq
                (Dict.get_default Py.eqb vocab spaced_seq 0 + 1)%Z)
    sequences [].

(** [learn_bpe]: the object after the call, [None] when it raises. *)
Definition learn_bpe (self : t) (sequences : list pystr) : option t :=
  match learn_loop (Z.to_nat (num_merges self))
                   (prepare_sequences sequences) (bpe_codes self) with
  | None => None
  | Some (v, codes) =>
      Some {| num_merges := num_merges self; bpe_codes := codes; vocab := v |}
  end.

Definition apply_bpe (self : t) (sequence : pystr) : option (list pystr) :=
  match replay (bpe_codes self) (spaced sequence) with
  | None => None
  | Some word => Some (split word)
  end.

Definition get_unique_tokens (self : t) : list pystr :=
  sorted (token_set (vocab self)).

(** ** [parse_fasta]

    The loop over the lines of the file; [lines] are the lines as the
    iteration over the open file yields them.  The state of the loop is
    the four local variables. *)
Record fasta : Type := mk_fasta {
  sequences : list pystr;
  headers : list pystr;
  current_seq : pystr;
  current_header : pystr
}.

(** [if current_seq: sequences.append(current_seq);
    headers.append(current_header)]. *)
Definition flush (st : fasta) : fasta :=
  match current_seq st with
  | [] => st
  | _ =>
      {| sequences := sequences st ++ [current_seq st];
         headers := headers st ++ [current_header st];
         current_seq := current_seq st;
         current_header := current_header st |}
  end.

(** The body of [for line in f]. *)
Definition read_line (st : fasta) (line : pystr) : fasta :=
  let line := strip line in
  if startswith ">"%char line then
    let st' := flush st in
    {| sequences := sequences st';
       headers := headers st';
       current_seq := [];
       current_header := tl line |}
  else
    {| sequences := sequences st;
       headers := headers st;
       current_seq := current_seq st ++ line;
       current_header := current_header st |}.

(** [parse_fasta]: the pair [(headers, sequences)] it returns. *)
Definition parse_fasta (lines : list pystr) : list pystr * list pystr :=
  let st :=
    flush (fold_left read_line lines
                     {| sequences := []; headers := [];
                        current_seq := []; current_header := [] |}) in
  (headers st, sequences st).

(** ** The token column of the result file

    [save_results_to_csv] writes [' '.join(bpe_tokens)] in the column
    [bpe_encoded]. *)
Definition bpe_encoded (bpe_tokens : list pystr) : pystr :=
  join [" "%char] bpe_tokens.

End BPEProcessor.

(* ================================================================== *)
(** * [standard_bpe.py] *)
(* ================================================================== *)

Module StandardBPE.
Import BPE.

Record t : Type := mk {
  num_merges : Z;
  bpe_codes : list pair;
  vocab : list pystr            (* the final token set *)
}.

(** [StandardBPE(num_merges)]. *)
Definition init (num_merges : Z) : t :=
  {| num_merges := num_merges; bpe_codes := []; vocab := [] |}.

(** [list(word) + ['</w>']]. *)
Definition get_word_tokens (word : pystr) : list pystr :=
  chars word ++ [str "</w>"].

Definition get_stats := BPE.get_stats.
Definition merge_vocab := BPE.merge_vocab.

(** The initial vocabulary of [learn_bpe]:
    [vocab[word_tokens] = vocab.get(word_tokens, 0) + 1] for each word of
    [corpus_text.strip().split()]. *)
Definition initial_vocab (corpus_text : pystr) : vocab_t :=
  fold_left
    (fun vocab word =>
       let word_tokens := join [" "%char] (get_word_tokens word) in
       Dict.set Py.eqb vocab word_tokens
                (Dict.get_default Py.eqb vocab word_tokens 0 + 1)%Z)
    (split corpus_text) [].

Definition learn_bpe (self : t) (corpus_text : pystr) : option t :=
  match learn_loop (Z.to_nat (num_merges self))
                   (initial_vocab corpus_text) (bpe_codes self) with
  | None => None
  | Some (v, codes) =>
      Some {| num_merges := num_merges self; bpe_codes := codes;
              vocab := token_set v |}
  end.

Definition apply_bpe (self : t) (word : pystr) : option (list pystr) :=
  match replay (bpe_codes self) (join [" "%char] (get_word_tokens word)) with
  | None => None
  | Some word_tokens => Some (split word_tokens)
  end.

(** [encode_corpus]: the tokens of the words of the corpus, one word
    after the other; [None] when [apply_bpe] raises on a word. *)
Definition encode_corpus (self : t) (corpus_text : pystr)
  : option (list pystr) :=
  let words := split (strip corpus_text) in
  fold_left
    (fun (acc : option (list pystr)) word =>
       match acc with
       | None => None
       | Some encoded_words =>
           match apply_bpe self word with
           | None => None
           | Some encoded_tokens => Some (encoded_words ++ encoded_tokens)
           end
       end)
    words (Some []).

(** [Counter(encoded_tokens)]. *)
Definition get_token_frequencies (encoded_tokens : list pystr)
  : Dict.dict pystr Z :=
  fold_left
    (fun counts token =>
       Dict.set Py.eqb counts token
                (Dict.get_default Py.eqb counts token 0 + 1)%Z)
    encoded_tokens [].

(** ** [parse_fasta_to_corpus]

    The loop over the lines of the file, with the local variables
    [sequences] and [current_seq] as its state. *)
Definition read_line (st : list pystr * pystr) (line : pystr)
  : list pystr * pystr :=
  let (sequences, current_seq) := st in
  let line := strip line in
  if startswith ">"%char line then
    (match current_seq with
     | [] => sequences
     | _ => sequences ++ [current_seq]
     end, [])
  else (sequences, current_seq ++ line).

Definition fasta_sequences (lines : list pystr) : list pystr :=
  let (sequences, current_seq) := fold_left read_line lines ([], []) in
  match current_seq with
  | [] => sequences
  | _ => sequences ++ [current_seq]
  end.

(** [f"<s>{seq}</s>"]. *)
Definition tagged (seq : pystr) : pystr := str "<s>" ++ seq ++ str "</s>".

Definition parse_fasta_to_corpus (lines : list pystr) : pystr :=
  join [" "%char] (map tagged (fasta_sequences lines)).

End StandardBPE.

(* ================================================================== *)
(** * [glove_cooccurrence.py] *)
(* ================================================================== *)

Module Cooc.

(** A key of the co-occurrence table: a pair of token ids. *)
Definition key : Type := (Z * Z)%type.

Definition key_eqb (a b : key) : bool :=
  Z.eqb (fst a) (fst b) && Z.eqb (snd a) (snd b).

Definition table : Type := Dict.dict key Q.

Record t : Type := mk {
  window_size : Z;
  min_count : Z;
  token_to_id : Dict.dict pystr Z;
  id_to_token : Dict.dict Z pystr;
  token_counts : Dict.dict pystr Z;
  cooccurrence_counts : table;
  vocab_size : Z
}.

(** [CooccurrenceMatrix(window_size, min_count)]. *)
Definition init (window_size min_count : Z) : t :=
  {| window_size := window_size; min_count := min_count;
     token_to_id := []; id_to_token := []; token_counts := [];
     cooccurrence_counts := []; vocab_size := 0 |}.

(** [enumerate(l)]. *)
Fixpoint enumerate_from {A : Type} (i : Z) (l : list A) : list (Z * A) :=
  match l with
  | [] => []
  | x :: l' => (i, x) :: enumerate_from (i + 1) l'
  end.

Definition enumerate {A : Type} (l : list A) : list (Z * A) :=
  enumerate_from 0 l.

(** [range(start, end)]. *)
Definition range (start stop : Z) : list Z :=
  map (fun k => (start + Z.of_nat k)%Z) (seq 0 (Z.to_nat (stop - start))).

(** [self.token_counts[token] += 1] over all tokens of all sequences. *)
Definition count_tokens (counts : Dict.dict pystr Z)
           (token_sequences : list (list pystr)) : Dict.dict pystr Z :=
  fold_left
    (fun counts sequence =>
       fold_left
         (fun counts token =>
            Dict.set Py.eqb counts token
                     (Dict.get_default Py.eqb counts token 0 + 1)%Z)
         sequence counts)
    token_sequences counts.

Definition build_vocabulary (self : t) (token_sequences : list (list pystr))
  : t :=
  let counts := count_tokens (token_counts self) token_sequences in
  let filtered_tokens :=
    filter (fun tc : pystr * Z => (min_count self <=? snd tc)%Z) counts in
  let numbered := enumerate (sorted (Dict.keys filtered_tokens)) in
  {| window_size := window_size self;
     min_count := min_count self;
     token_to_id :=
       fold_left (fun d it => Dict.set Py.eqb d (snd it) (fst it))
                 numbered (token_to_id self);
     id_to_token :=
       fold_left (fun d it => Dict.set Z.eqb d (fst it) (snd it))
                 numbered (id_to_token self);
     token_counts := counts;
     cooccurrence_counts := cooccurrence_counts self;
     vocab_size := Z.of_nat (length filtered_tokens) |}.

(** The ids of the tokens of [sequence] that are in the vocabulary, in
    order; unknown tokens are skipped. *)
Fixpoint to_ids (token_to_id : Dict.dict pystr Z) (sequence : list pystr)
  : list Z :=
  match sequence with
  | [] => []
  | token :: rest =>
      match Dict.get Py.eqb token_to_id token with
      | Some id => id :: to_ids token_to_id rest
      | None => to_ids token_to_id rest
      end
  end.

(** [self.cooccurrence_counts[pair] += weight] on a
    [defaultdict(float)], with the weights as exact rationals: this
    addition does not round.  [Cooc64.add_weight] is the addition in
    binary64. *)
Definition add_weight (counts : table) (pair : key) (weight : Q) : table :=
  Dict.set key_eqb counts pair
           (Dict.get_default key_eqb counts pair 0%Q + weight)%Q.

(** The body of the innermost loop, for the centre [(i, center_id)] and
    the context position [j].  [j] comes from [range(start, end)] with
    [0 <= start] and [end <= len(token_ids)], so [token_ids[j]] is
    defined.  The weight is the exact quotient; [Cooc64.visit] takes
    the binary64 quotient. *)
Definition visit (token_ids : list Z) (i center_id : Z)
           (counts : table) (j : Z) : table :=
  if negb (i =? j)%Z then
    let context_id := nth (Z.to_nat j) token_ids 0%Z in
    let distance := Z.abs (i - j) in
    let weight := (1 / inject_Z distance)%Q in
    let pair := (Z.min center_id context_id, Z.max center_id context_id) in
    add_weight counts pair weight
  else counts.

(** The sliding window over one id sequence. *)
Definition window (w : Z) (token_ids : list Z) (counts : table) : table :=
  fold_left
    (fun counts (ic : Z * Z) =>
       let (i, center_id) := ic in
       let start := Z.max 0 (i - w) in
       let stop := Z.min (Z.of_nat (length token_ids)) (i + w + 1) in
       fold_left (visit token_ids i center_id) (range start stop) counts)
    (enumerate token_ids) counts.

Definition compute_cooccurrence (self : t)
           (token_sequences : list (list pystr)) : t :=
  {| window_size := window_size self;
     min_count := min_count self;
     token_to_id := token_to_id self;
     id_to_token := id_to_token self;
     token_counts := token_counts self;
     cooccurrence_counts :=
       fold_left
         (fun counts sequence =>
            window (window_size self) (to_ids (token_to_id self) sequence)
                   counts)
         token_sequences (cooccurrence_counts self);
     vocab_size := vocab_size self |}.

(** ** [save_cooccurrence_csv]

    [sorted(self.cooccurrence_counts.items(), key=lambda x: x[1],
    reverse=True)], cut to [top_n] entries when [top_n] is neither
    [None] nor [0]. *)
Definition weight_lt (a b : key * Q) : bool := negb (Qle_bool (snd b) (snd a)).

Definition sorted_pairs (self : t) (top_n : option Z) : list (key * Q) :=
  let sorted_pairs := sorted_desc weight_lt (cooccurrence_counts self) in
  match top_n with
  | None => sorted_pairs
  | Some n => if (n =? 0)%Z then sorted_pairs else slice_to sorted_pairs n
  end.

(** The value [save_cooccurrence_csv] returns, [len(sorted_pairs)];
    every row reads [self.id_to_token[i]] and [self.id_to_token[j]],
    and [None] stands for the [KeyError] of such a read. *)
Definition save_cooccurrence_csv (self : t) (top_n : option Z) : option Z :=
  let rows := sorted_pairs self top_n in
  if forallb (fun e : key * Q =>
                Dict.mem Z.eqb (id_to_token self) (fst (fst e)) &&
                Dict.mem Z.eqb (id_to_token self) (snd (fst e))) rows
  then Some (Z.of_nat (length rows))
  else None.

(** ** [save_dense_matrix_csv]

    The ids of the [max_tokens] most frequent tokens, and the dense
    matrix over them. *)
Definition count_lt (a b : pystr * Z) : bool := (snd a <? snd b)%Z.

Definition top_token_ids (self : t) (max_tokens : Z) : list Z :=
  let top_tokens :=
    slice_to (sorted_desc count_lt (token_counts self)) max_tokens in
  flat_map (fun tc : pystr * Z =>
              match Dict.get Py.eqb (token_to_id self) (fst tc) with
              | Some id => [id]
              | None => []
              end) top_tokens.

(** Every cell [matrix[i][j]] starts at [0.0] and is assigned once. *)
Definition dense_matrix (self : t) (max_tokens : Z) : list (list Q) :=
  let top_token_ids := top_token_ids self max_tokens in
  map (fun id1 =>
         map (fun id2 =>
                let pair := (Z.min id1 id2, Z.max id1 id2) in
                match Dict.get key_eqb (cooccurrence_counts self) pair with
                | Some count => count
                | None => 0%Q
                end)
             top_token_ids)
      top_token_ids.

(** The value [save_dense_matrix_csv] returns, [len(top_token_ids)];
    the header and every row read [self.id_to_token[id_]], and [None]
    stands for the [KeyError] of such a read. *)
Definition save_dense_matrix_csv (self : t) (max_tokens : Z) : option Z :=
  let top_token_ids := top_token_ids self max_tokens in
  if forallb (fun id_ => Dict.mem Z.eqb (id_to_token self) id_) top_token_ids
  then Some (Z.of_nat (length top_token_ids))
  else None.

(** ** [load_bpe_results]

    [tokens = bpe_encoded.split()] for one row of the result file. *)
Definition load_tokens (bpe_encoded : pystr) : list pystr := split bpe_encoded.

End Cooc.

(* ================================================================== *)
(** * [glove_cooccurrence.py], the weights in binary64 *)
(* ================================================================== *)

(** The loops of [compute_cooccurrence] once more, with the table as
    the program holds it: a [defaultdict(float)], whose values are
    binary64 numbers and whose [+=] rounds.  Keys, ids and the scan are
    those of [Cooc]. *)
Module Cooc64.

Definition table : Type := Dict.dict Cooc.key PrimFloat.float.

Record t : Type := mk {
  window_size : Z;
  min_count : Z;
  token_to_id : Dict.dict pystr Z;
  id_to_token : Dict.dict Z pystr;
  token_counts : Dict.dict pystr Z;
  cooccurrence_counts : table;
  vocab_size : Z
}.

(** [CooccurrenceMatrix(window_size, min_count)]. *)
Definition init (window_size min_count : Z) : t :=
  {| window_size := window_size; min_count := min_count;
     token_to_id := []; id_to_token := []; token_counts := [];
     cooccurrence_counts := []; vocab_size := 0 |}.

(** The conversion of an [int] to [float] that [1.0 / distance]
    performs, for [0 <= n < 2 ** 63]: a distance is smaller than the
    length of a list, which is below [2 ** 63].  It rounds to the
    nearest binary64, ties to even. *)
Definition of_int (n : Z) : PrimFloat.float :=
  PrimFloat.of_uint63 (Uint63.of_Z n).

(** [self.cooccurrence_counts[pair] += weight] on a
    [defaultdict(float)]: a missing key starts at [0.0]. *)
Definition add_weight (counts : table) (pair : Cooc.key)
           (weight : PrimFloat.float) : table :=
  Dict.set Cooc.key_eqb counts pair
           (PrimFloat.add
              (Dict.get_default Cooc.key_eqb counts pair PrimFloat.zero)
              weight).

(** The body of the innermost loop, for the centre [(i, center_id)] and
    the context position [j]. *)
Definition visit (token_ids : list Z) (i center_id : Z)
           (counts : table) (j : Z) : table :=
  if negb (i =? j)%Z then
    let context_id := nth (Z.to_nat j) token_ids 0%Z in
    let distance := Z.abs (i - j) in
    let weight := PrimFloat.div PrimFloat.one (of_int distance) in
    let pair := (Z.min center_id context_id, Z.max center_id context_id) in
    add_weight counts pair weight
  else counts.

(** The sliding window over one id sequence. *)
Definition window (w : Z) (token_ids : list Z) (counts : table) : table :=
  fold_left
    (fun counts (ic : Z * Z) =>
       let (i, center_id) := ic in
       let start := Z.max 0 (i - w) in
       let stop := Z.min (Z.of_nat (length token_ids)) (i + w + 1) in
       fold_left (visit token_ids i center_id) (Cooc.range start stop) counts)
    (Cooc.enumerate token_ids) counts.

Definition compute_cooccurrence (self : t)
           (token_sequences : list (list pystr)) : t :=
  {| window_size := window_size self;
     min_count := min_count self;
     token_to_id := token_to_id self;
     id_to_token := id_to_token self;
     token_counts := token_counts self;
     cooccurrence_counts :=
       fold_left
         (fun counts sequence =>
            window (window_size self)
                   (Cooc.to_ids (token_to_id self) sequence) counts)
         token_sequences (cooccurrence_counts self);
     vocab_size := vocab_size self |}.

End Cooc64.

(* ================================================================== *)
(** * Reference definitions, written from the specification *)
(* ================================================================== *)

Module Spec.
Import BPE.

(** A symbol without white space, and one without a backslash. *)
Definition wsfree (t : pystr) : bool := forallb (fun c => negb (isspace c)) t.
Definition no_backslash (t : pystr) : bool :=
  forallb (fun c => negb (Ascii.eqb c backslash)) t.

(** A token as [split] yields it: not empty, no white space. *)
Definition is_token (t : pystr) : bool :=
  match t with [] => false | _ => wsfree t end.

(** Exact-adjacency splice on a token list: scanning left to right,
    every occurrence of the two complete adjacent tokens [L], [R] is
    replaced by the single token [new]; occurrences do not overlap and
    every other token is kept. *)
Fixpoint splice_with (new : pystr) (p : pair) (tokens : list pystr)
  : list pystr :=
  match tokens with
  | [] => []
  | a :: tl =>
      match tl with
      | [] => [a]
      | b :: rest =>
          if Py.eqb a (fst p) && Py.eqb b (snd p)
          then new :: splice_with new p rest
          else a :: splice_with new p tl
      end
  end.

(** The merge of the specification: the new token is [L + R]. *)
Definition splice (p : pair) (tokens : list pystr) : list pystr :=
  splice_with (merged p) p tokens.

(** A string with its white space removed. *)
Definition nows (w : pystr) : pystr := filter (fun c => negb (isspace c)) w.

(** Total frequency mass of a vocabulary. *)
Definition total (v : vocab_t) : Z := fold_right Z.add 0%Z (Dict.values v).

(** Lexicographic order on pairs, [(l1, r1) <= (l2, r2)]. *)
Definition pair_leb (p q : pair) : bool :=
  if Py.eqb (fst p) (fst q) then Py.leb (snd p) (snd q)
  else Py.leb (fst p) (fst q).

(** [p] is the first entry of [stats], in insertion order, that carries
    the maximum frequency: entries before it are strictly smaller,
    entries after it are not larger. *)
Definition first_max (stats : stats_t) (p : pair) : Prop :=
  exists before f after,
    stats = before ++ (p, f) :: after /\
    (forall q g, In (q, g) before -> (g < f)%Z) /\
    (forall q g, In (q, g) after -> (g <= f)%Z).

(** The rules [ps] are, one after the other, first maxima of the pair
    statistics of the vocabulary they are then merged into. *)
Fixpoint greedy_from (v : vocab_t) (ps : list pair) : Prop :=
  match ps with
  | [] => True
  | p :: ps' =>
      first_max (get_stats v) p /\
      exists v', merge_vocab p v = Some v' /\ greedy_from v' ps'
  end.

(** Two dictionaries hold the same mapping, whatever their order. *)
Definition same_mapping (s1 s2 : stats_t) : bool :=
  forallb (fun e : pair * Z =>
             match Dict.get pair_eqb s2 (fst e) with
             | Some g => (g =? snd e)%Z | None => false end) s1 &&
  forallb (fun e : pair * Z =>
             match Dict.get pair_eqb s1 (fst e) with
             | Some g => (g =? snd e)%Z | None => false end) s2.

(** ** Co-occurrence *)

(** The ids of the in-vocabulary tokens of a stream. *)
Definition filtered_ids (id_mapping : Dict.dict pystr Z)
           (stream : list pystr) : list Z :=
  flat_map (fun token =>
              match Dict.get Py.eqb id_mapping token with
              | Some id => [id]
              | None => []
              end) stream.

(** The positions of a sequence. *)
Definition positions (ids : list Z) : list Z :=
  map Z.of_nat (seq 0 (length ids)).

Definition id_at (ids : list Z) (i : Z) : Z := nth (Z.to_nat i) ids 0%Z.

Definition unordered (a b : Z) : Cooc.key := (Z.min a b, Z.max a b).

(** One contribution for every ordered pair of positions [(i, j)] with
    [i <> j] and [|i - j| <= w]: weight [1 / |i - j|] on the unordered
    key of the two ids. *)
Definition contributions (w : Z) (ids : list Z) : list (Cooc.key * Q) :=
  flat_map
    (fun i =>
       flat_map
         (fun j =>
            if negb (i =? j)%Z && (Z.abs (i - j) <=? w)%Z
            then [(unordered (id_at ids i) (id_at ids j),
                   (1 / inject_Z (Z.abs (i - j)))%Q)]
            else [])
         (positions ids))
    (positions ids).

Definition all_contributions (id_mapping : Dict.dict pystr Z) (w : Z)
           (streams : list (list pystr)) : list (Cooc.key * Q) :=
  flat_map (fun s => contributions w (filtered_ids id_mapping s)) streams.



(** The same pairs of positions in the order of the claim, first the
    position [i], then the position [j]: the unordered key of the two
    ids and the distance [|i - j|]. *)
Definition steps (w : Z) (ids : list Z) : list (Cooc.key * Z) :=
  flat_map
    (fun i =>
       flat_map
         (fun j =>
            if negb (i =? j)%Z && (Z.abs (i - j) <=? w)%Z
            then [(unordered (id_at ids i) (id_at ids j), Z.abs (i - j))]
            else [])
         (positions ids))
    (positions ids).

Definition all_steps (id_mapping : Dict.dict pystr Z) (w : Z)
           (streams : list (list pystr)) : list (Cooc.key * Z) :=
  flat_map (fun s => steps w (filtered_ids id_mapping s)) streams.

(** [1 / d] in binary64. *)
Definition inverse64 (d : Z) : PrimFloat.float :=
  PrimFloat.div PrimFloat.one (Cooc64.of_int d).

(** The weights that the steps add to a key, in their order, and
    whether a step reaches the key. *)
Definition weights_of (cs : list (Cooc.key * Z)) (k : Cooc.key)
  : list PrimFloat.float :=
  map (fun c => inverse64 (snd c))
      (filter (fun c => Cooc.key_eqb (fst c) k) cs).

Definition reached (cs : list (Cooc.key * Z)) (k : Cooc.key) : bool :=
  existsb (fun c => Cooc.key_eqb (fst c) k) cs.

(** Adding numbers one after the other in binary64, from [start]. *)
Definition sum64 (start : PrimFloat.float) (ws : list PrimFloat.float)
  : PrimFloat.float :=
  fold_left PrimFloat.add ws start.




End Spec.

Import BPE Spec.

(* ================================================================== *)
(** * Auxiliary definitions of the proofs *)
(* ================================================================== *)

(** What follows a token in a joined string. *)
Definition rest_str (r : list pystr) : pystr :=
  match r with [] => [] | _ => " "%char :: join [" "%char] r end.

(** The character before the position reached after reading [x]. *)
Definition lastc (prev : option ascii) (x : pystr) : option ascii :=
  fold_left (fun _ c => Some c) x prev.

(** A string that is empty or begins with the separator. *)
Definition boundary (tail : pystr) : Prop :=
  match tail with [] => True | c :: _ => c = " "%char end.

(** A pair of symbols none of which holds a backslash. *)
Definition plain_pair (p : pair) : bool :=
  no_backslash (fst p) && no_backslash (snd p).

(** The number of tokens of [w]; [free] tells that a token may begin at
    the next character that is not white space. *)
Fixpoint count_from (free : bool) (w : pystr) : nat :=
  match w with
  | [] => 0
  | c :: w' =>
      if isspace c then count_from true w'
      else (if free then 1 else 0) + count_from false w'
  end.

(** Whether a token may begin after reading [x]. *)
Definition ends_free (free : bool) (x : pystr) : bool :=
  fold_left (fun _ c => isspace c) x free.

(** [counts[key] += weight] for one contribution. *)
Definition addc (t : Cooc.table) (c : Cooc.key * Q) : Cooc.table :=
  Cooc.add_weight t (fst c) (snd c).

(** What the context position [j] contributes to the centre [i]. *)
Definition contribution (ids : list Z) (i j : Z) : list (Cooc.key * Q) :=
  if negb (i =? j)%Z
  then [(unordered (id_at ids i) (id_at ids j),
         (1 / inject_Z (Z.abs (i - j)))%Q)]
  else [].

(** The contributions in the order in which the loops of [window] make
    them. *)
Definition window_contributions (w : Z) (ids : list Z)
  : list (Cooc.key * Q) :=
  flat_map
    (fun i =>
       flat_map (contribution ids i)
                (Cooc.range (Z.max 0 (i - w))
                            (Z.min (Z.of_nat (length ids)) (i + w + 1))))
    (positions ids).

(** [counts[key] += 1.0 / distance] for one step. *)
Definition add64 (t : Cooc64.table) (c : Cooc.key * Z) : Cooc64.table :=
  Cooc64.add_weight t (fst c) (inverse64 (snd c)).

(** The step that the context position [j] makes for the centre
    [i]. *)
Definition step (ids : list Z) (i j : Z) : list (Cooc.key * Z) :=
  if negb (i =? j)%Z
  then [(unordered (id_at ids i) (id_at ids j), Z.abs (i - j))]
  else [].

(** The steps in the order in which the loops of [window] make them. *)
Definition window_steps (w : Z) (ids : list Z) : list (Cooc.key * Z) :=
  flat_map
    (fun i =>
       flat_map (step ids i)
                (Cooc.range (Z.max 0 (i - w))
                            (Z.min (Z.of_nat (length ids)) (i + w + 1))))
    (positions ids).

(** The exact weight of a step. *)
Definition exact (c : Cooc.key * Z) : Cooc.key * Q :=
  (fst c, (1 / inject_Z (snd c))%Q).






(** The vocabularies the learning loop goes through from [v0]. *)
Inductive reachable (v0 : vocab_t) : vocab_t -> Prop :=
| reach_start : reachable v0 v0
| reach_step (v v' : vocab_t) (p : pair) :
    reachable v0 v -> learn_step v = Merged p v' -> reachable v0 v'.

(** A vocabulary whose entries hold no backslash and stay distinct when
    their white space is removed. *)
Definition clean (v : vocab_t) : Prop :=
  NoDup (map (fun e : pystr * Z => nows (fst e)) v) /\
  forallb (fun e : pystr * Z => no_backslash (fst e)) v = true.

(** The scan of one merge when the template is plain. *)
Definition plain_scan (p : pair) (w : pystr) : pystr :=
  Re.sub_scan (bigram p) (map Re.TLit (merged p)) None 0 w.

(** The counter update that frames and counts the sequences. *)
Definition framed_vocab (frame : pystr -> pystr) (seqs : list pystr)
  : vocab_t :=
  fold_left
    (fun vocab s =>
       Dict.set Py.eqb vocab (frame s)
                (Dict.get_default Py.eqb vocab (frame s) 0 + 1)%Z)
    seqs [].

(** ** Definitions for the further properties *)

(** A string that does not begin with white space. *)
Definition starts_clean (s : pystr) : bool :=
  match s with [] => true | c :: _ => negb (isspace c) end.

(** A string without white space at either end. *)
Definition trimmed (s : pystr) : bool :=
  starts_clean s && starts_clean (rev s).

(** The lines of a FASTA file that carry residues: the stripped lines
    that do not begin with [>]. *)
Definition residue_lines (lines : list pystr) : list pystr :=
  filter (fun l => negb (startswith ">"%char l)) (map strip lines).

(** The number of occurrences of the token [t]. *)
Definition count_of (t : pystr) (l : list pystr) : Z :=
  Z.of_nat (length (filter (Py.eqb t) l)).

(** [counts[token] += 1] on a [Counter]. *)
Definition tally (counts : Dict.dict pystr Z) (token : pystr)
  : Dict.dict pystr Z :=
  Dict.set Py.eqb counts token (Dict.get_default Py.eqb counts token 0 + 1)%Z.

(** The pairs [(token, id)] of an enumeration. *)
Definition by_token (numbered : list (Z * pystr)) : Dict.dict pystr Z :=
  map (fun it : Z * pystr => (snd it, fst it)) numbered.

(** The number of occurrences of the pair [p]. *)
Definition pair_count (p : pair) (l : list pair) : Z :=
  Z.of_nat (length (filter (pair_eqb p) l)).

(** The frequency of [p] in the vocabulary: over all entries, the
    frequency of the entry times the number of places where the two
    symbols of [p] are adjacent in it. *)
Definition pair_frequency (v : vocab_t) (p : pair) : Z :=
  fold_right
    (fun (e : pystr * Z) acc =>
       (snd e * pair_count p (adjacent (split (fst e))) + acc)%Z)
    0%Z v.

(** Whether the two symbols of [p] are adjacent in some entry. *)
Definition occurs (v : vocab_t) (p : pair) : bool :=
  existsb (fun e : pystr * Z =>
             existsb (pair_eqb p) (adjacent (split (fst e)))) v.

(** A rule whose replacement template [re.sub] rejects. *)
Definition bad_rule (p : pair) : bool :=
  match Re.parse_template (merged p) with None => true | Some _ => false end.

(** A word that is its tokens joined by single spaces. *)
Definition single_spaced (w : pystr) : bool :=
  Py.eqb w (join [" "%char] (split w)).

(** The sign, the mantissa and the exponent of a table entry. *)
Definition binary64_of (v : option PrimFloat.float)
  : option SpecFloat.spec_float :=
  option_map FloatOps.Prim2SF v.

(* ================================================================== *)
(** * Inputs of the scenarios *)
(* ================================================================== *)

Module Scenario.

Definition A : pystr := str "A".
Definition B : pystr := str "B".
Definition s_open : pystr := str "<s>".
Definition s_close : pystr := str "</s>".
Definition w_close : pystr := str "</w>".

(** One, three and four backslashes. *)
Definition bs : pystr := [backslash].
Definition bs3 : pystr := [backslash; backslash; backslash].
Definition bs4 : pystr := [backslash; backslash; backslash; backslash].

(** The token [\g<0>], the sequence [\134g<0>\134g<0>\134g<0>] and a
    corpus of that sequence and of [134g<0>]. *)
Definition group0 : pystr := backslash :: str "g<0>".
Definition octal_unit : pystr := backslash :: str "134g<0>".
Definition octal_seq : pystr := octal_unit ++ octal_unit ++ octal_unit.
Definition octal_corpus : list pystr := [octal_seq; str "134g<0>"].

(** The eight rules learned from [octal_corpus]: six merges build the
    token [134g<0>], the seventh joins the backslash to it and leaves
    the token [\g<0>] (its template begins with the octal escape
    [\134], a backslash), the eighth merges two such tokens. *)
Definition octal_rules : list pair :=
  [ (str "1", str "3");
    (str "13", str "4");
    (str "134", str "g");
    (str "134g", str "<");
    (str "134g<", str "0");
    (str "134g<0", str ">");
    (bs, str "134g<0>");
    (group0, group0) ].




(** A binary64 object that knows the tokens [A] and [C], with an empty
    table, and the table it computes for [streams]. *)
Definition C : pystr := str "C".

Definition ac_matrix (window_size : Z) : Cooc64.t :=
  {| Cooc64.window_size := window_size;
     Cooc64.min_count := 1;
     Cooc64.token_to_id := [(A, 0%Z); (C, 1%Z)];
     Cooc64.id_to_token := [(0%Z, A); (1%Z, C)];
     Cooc64.token_counts := [];
     Cooc64.cooccurrence_counts := [];
     Cooc64.vocab_size := 2 |}.

Definition table64_of (window_size : Z) (streams : list (list pystr))
  : Cooc64.table :=
  Cooc64.cooccurrence_counts
    (Cooc64.compute_cooccurrence (ac_matrix window_size) streams).

(** The objects after learning, for the witnesses. *)
Definition learned_processor : BPEProcessor.t :=
  {| BPEProcessor.num_merges := 1;
     BPEProcessor.bpe_codes := [(s_open, A)];
     BPEProcessor.vocab :=
       [(str "<s>A A </s>", 1%Z); (str "<s>A B </s>", 1%Z)] |}.

Definition learned_standard : StandardBPE.t :=
  {| StandardBPE.num_merges := 2;
     StandardBPE.bpe_codes := [(A, A); (str "AA", str "AA")];
     StandardBPE.vocab := [str "AAAA"; w_close] |}.

End Scenario.

Import Scenario.

(* ================================================================== *)
(** * Basic facts on strings and dictionaries *)
(* ================================================================== *)

Lemma str_eqb_refl (a : pystr) : Py.eqb a a = true.
Proof.
  induction a as [|x a IH]; simpl; [reflexivity|].
  now rewrite Ascii.eqb_refl, IH.
Qed.

Lemma str_eqb_eq (a b : pystr) : Py.eqb a b = true <-> a = b.
Proof.
  split; [|intros ->; apply str_eqb_refl].
  revert b; induction a as [|x a IH]; intros [|y b]; simpl; try discriminate.
  - reflexivity.
  - intros H. apply andb_true_iff in H as [Hx Ha].
    apply Ascii.eqb_eq in Hx. apply IH in Ha. now subst.
Qed.

Lemma pair_eqb_eq (p q : pair) : pair_eqb p q = true <-> p = q.
Proof.
  destruct p as [a b], q as [c d]; unfold pair_eqb; simpl.
  rewrite andb_true_iff, !str_eqb_eq. split; [intros [-> ->]|intros [= -> ->]]; auto.
Qed.

Lemma key_eqb_eq (p q : Cooc.key) : Cooc.key_eqb p q = true <-> p = q.
Proof.
  destruct p as [a b], q as [c d]; unfold Cooc.key_eqb; simpl.
  rewrite andb_true_iff, !Z.eqb_eq. split; [intros [-> ->]|intros [= -> ->]]; auto.
Qed.

Lemma key_eqb_refl (k : Cooc.key) : Cooc.key_eqb k k = true.
Proof. now apply key_eqb_eq. Qed.


(** Dictionaries over a key type whose test is equality. *)
Section DictFacts.
Variables (K V : Type) (keq : K -> K -> bool).
Hypothesis keq_eq : forall a b, keq a b = true <-> a = b.

Lemma keq_refl k : keq k k = true.
Proof. now apply keq_eq. Qed.

Lemma get_set_same (d : Dict.dict K V) k v :
  Dict.get keq (Dict.set keq d k v) k = Some v.
Proof.
  induction d as [|[k' v'] d IH]; simpl.
  - now rewrite keq_refl.
  - destruct (keq k k') eqn:E; simpl; rewrite E; auto.
Qed.

Lemma get_set_other (d : Dict.dict K V) k v k' :
  k' <> k -> Dict.get keq (Dict.set keq d k v) k' = Dict.get keq d k'.
Proof.
  intros Hne. induction d as [|[k0 v0] d IH]; simpl.
  - destruct (keq k' k) eqn:E; [apply keq_eq in E; contradiction|reflexivity].
  - destruct (keq k k0) eqn:E; simpl.
    + apply keq_eq in E; subst k0.
      destruct (keq k' k) eqn:F; [apply keq_eq in F; contradiction|reflexivity].
    + destruct (keq k' k0); auto.
Qed.

Lemma get_none_notin (d : Dict.dict K V) k :
  Dict.get keq d k = None <-> ~ In k (Dict.keys d).
Proof.
  induction d as [|[k0 v0] d IH]; simpl.
  - tauto.
  - destruct (keq k k0) eqn:E.
    + apply keq_eq in E; subst. split; [discriminate|tauto].
    + rewrite IH. split; [|tauto].
      intros H [H1|H1]; [|tauto].
      subst. now rewrite keq_refl in E.
Qed.

(** Setting a key that is absent appends the entry. *)
Lemma set_fresh (d : Dict.dict K V) k v :
  ~ In k (Dict.keys d) -> Dict.set keq d k v = d ++ [(k, v)].
Proof.
  induction d as [|[k0 v0] d IH]; simpl; intros H; [reflexivity|].
  destruct (keq k k0) eqn:E.
  - apply keq_eq in E; subst. tauto.
  - rewrite IH; tauto.
Qed.

Lemma keys_set (d : Dict.dict K V) k v :
  Dict.keys (Dict.set keq d k v) =
  if Dict.mem keq d k then Dict.keys d else Dict.keys d ++ [k].
Proof.
  unfold Dict.mem.
  induction d as [|[k0 v0] d IH]; simpl; [reflexivity|].
  destruct (keq k k0) eqn:E; simpl; [reflexivity|].
  rewrite IH. now destruct (Dict.get keq d k).
Qed.

Lemma nodup_keys_set (d : Dict.dict K V) k v :
  NoDup (Dict.keys d) -> NoDup (Dict.keys (Dict.set keq d k v)).
Proof.
  intros Hd. rewrite keys_set. unfold Dict.mem.
  destruct (Dict.get keq d k) eqn:E; [assumption|].
  apply get_none_notin in E.
  apply (NoDup_Add (a := k) (l := Dict.keys d)); [|split; assumption].
  rewrite <- (app_nil_r (Dict.keys d)) at 1. apply Add_app.
Qed.
End DictFacts.

(* ================================================================== *)
(** * Splitting and joining *)
(* ================================================================== *)

Lemma wsfree_app (a b : pystr) :
  wsfree (a ++ b) = wsfree a && wsfree b.
Proof. apply forallb_app. Qed.

Lemma is_token_wsfree (t : pystr) : is_token t = true -> wsfree t = true.
Proof. destruct t; [discriminate|auto]. Qed.

Lemma split_from_wsfree (t : pystr) :
  wsfree t = true ->
  forall cur rest, split_from cur (t ++ rest) = split_from (cur ++ t) rest.
Proof.
  induction t as [|c t IH]; intros Ht cur rest; simpl.
  - now rewrite app_nil_r.
  - simpl in Ht. apply andb_true_iff in Ht as [Hc Ht].
    apply negb_true_iff in Hc. rewrite Hc, IH by assumption.
    now rewrite <- app_assoc.
Qed.

Lemma join_cons (a : pystr) (r : list pystr) :
  join [" "%char] (a :: r) = a ++ rest_str r.
Proof. destruct r; simpl; [now rewrite app_nil_r|reflexivity]. Qed.

Lemma split_from_token (t : pystr) (r : list pystr) :
  is_token t = true ->
  split_from [] (t ++ rest_str r) = t :: split_from [] (join [" "%char] r).
Proof.
  intros Ht. rewrite split_from_wsfree by now apply is_token_wsfree.
  simpl. destruct t as [|c t]; [discriminate|].
  destruct r as [|b r]; simpl; reflexivity.
Qed.

(** [split] inverts [' '.join] on token lists. *)
Lemma split_join (toks : list pystr) :
  forallb is_token toks = true -> split (join [" "%char] toks) = toks.
Proof.
  unfold split. induction toks as [|t r IH]; intros H; [reflexivity|].
  simpl in H. apply andb_true_iff in H as [Ht Hr].
  rewrite join_cons, split_from_token by assumption.
  now rewrite IH.
Qed.

(* ================================================================== *)
(** * The scan of [sub] on a joined token list *)
(* ================================================================== *)

Lemma lastc_app prev x y : lastc prev (x ++ y) = lastc (lastc prev x) y.
Proof. apply fold_left_app. Qed.

Lemma lastc_wsfree (x : pystr) :
  wsfree x = true ->
  forall prev, Re.lookbehind_not_S prev = false ->
               Re.lookbehind_not_S (lastc prev x) = false.
Proof.
  induction x as [|c x IH]; simpl; intros Hx prev Hp; [assumption|].
  apply andb_true_iff in Hx as [Hc Hx]. apply negb_true_iff in Hc.
  now apply IH.
Qed.

Lemma lastc_token (x : pystr) prev :
  is_token x = true -> Re.lookbehind_not_S (lastc prev x) = false.
Proof.
  destruct x as [|c x]; [discriminate|]. simpl. intros H.
  apply andb_true_iff in H as [Hc Hx]. apply negb_true_iff in Hc.
  now apply lastc_wsfree.
Qed.

Lemma match_literal_inv (lit w rest : pystr) :
  Re.match_literal lit w = Some rest -> w = lit ++ rest.
Proof.
  revert w; induction lit as [|x lit IH]; simpl; intros w H.
  - congruence.
  - destruct w as [|y w]; [discriminate|].
    destruct (Ascii.eqb x y) eqn:E; [|discriminate].
    apply Ascii.eqb_eq in E. subst. f_equal. now apply IH.
Qed.

Lemma boundary_rest_str r : boundary (rest_str r).
Proof. destruct r; simpl; auto. Qed.

Lemma nonspace_neq (x : ascii) :
  isspace x = false -> Ascii.eqb x " "%char = false.
Proof.
  intros H. apply Ascii.eqb_neq. intros ->. discriminate.
Qed.

(** Reading [L + ' ' + R] at the head of a joined string succeeds only
    when the first token is [L]. *)
Lemma match_left (L a : pystr) :
  wsfree L = true -> wsfree a = true ->
  forall R tail, boundary tail ->
    Re.match_literal (L ++ " "%char :: R) (a ++ tail) =
    if Py.eqb a L
    then match tail with [] => None | _ :: t' => Re.match_literal R t' end
    else None.
Proof.
  revert a; induction L as [|x L IH]; intros a HL Ha R tail Hb.
  - destruct a as [|y a].
    + destruct tail as [|c t']; [reflexivity|].
      simpl in Hb. subst c. reflexivity.
    + simpl in Ha. apply andb_true_iff in Ha as [Hy _].
      apply negb_true_iff in Hy. cbn [app Re.match_literal Py.eqb].
      rewrite Ascii.eqb_sym, nonspace_neq by assumption. reflexivity.
  - simpl in HL. apply andb_true_iff in HL as [Hx HL].
    apply negb_true_iff in Hx.
    destruct a as [|y a]; cbn [app Re.match_literal Py.eqb].
    + destruct tail as [|c t']; [reflexivity|].
      simpl in Hb. subst c. now rewrite nonspace_neq.
    + simpl in Ha. apply andb_true_iff in Ha as [Hy Ha].
      rewrite (Ascii.eqb_sym y x).
      destruct (Ascii.eqb x y); simpl; [now apply IH|reflexivity].
Qed.

(** Reading [R] and then looking ahead succeeds only on the token [R]. *)
Lemma match_right (R b : pystr) :
  wsfree R = true -> wsfree b = true ->
  forall tail, boundary tail ->
    match Re.match_literal R (b ++ tail) with
    | Some rest => Re.lookahead_not_S rest
    | None => false
    end = Py.eqb b R.
Proof.
  revert b; induction R as [|x R IH]; intros b HR Hb tail Ht.
  - destruct b as [|y b].
    + destruct tail as [|c t']; [reflexivity|].
      simpl in Ht. subst c. reflexivity.
    + simpl in Hb. apply andb_true_iff in Hb as [Hy _].
      now apply negb_true_iff in Hy.
  - simpl in HR. apply andb_true_iff in HR as [Hx HR].
    apply negb_true_iff in Hx.
    destruct b as [|y b]; cbn [app Re.match_literal Py.eqb].
    + destruct tail as [|c t']; [reflexivity|].
      simpl in Ht. subst c. now rewrite nonspace_neq.
    + simpl in Hb. apply andb_true_iff in Hb as [Hy Hb].
      rewrite (Ascii.eqb_sym y x).
      destruct (Ascii.eqb x y); simpl; [now apply IH|reflexivity].
Qed.

Section Scan.
Variables (p : pair) (tpl : list Re.titem).
Hypothesis wsL : wsfree (fst p) = true.
Hypothesis wsR : wsfree (snd p) = true.

Let lit := bigram p.
Let new := Re.expand tpl lit.

(** The pattern matches at the head of a joined token list exactly
    when its first two tokens are [L] and [R]. *)
Lemma match_here_tokens (a : pystr) (r : list pystr) prev :
  Re.lookbehind_not_S prev = true ->
  forallb is_token (a :: r) = true ->
  Re.match_here lit prev (a ++ rest_str r) =
  match r with
  | [] => false
  | b :: _ => Py.eqb a (fst p) && Py.eqb b (snd p)
  end.
Proof.
  intros Hp Htok. unfold Re.match_here, lit, bigram. rewrite Hp. simpl.
  simpl in Htok. apply andb_true_iff in Htok as [Ha Hr].
  rewrite match_left;
    [|assumption|now apply is_token_wsfree|apply boundary_rest_str].
  destruct (Py.eqb a (fst p)); cbn [andb]; [|now destruct r].
  destruct r as [|b r']; [reflexivity|]. cbn [rest_str].
  simpl in Hr. apply andb_true_iff in Hr as [Hb Hr'].
  rewrite join_cons.
  apply match_right;
    [assumption|now apply is_token_wsfree|apply boundary_rest_str].
Qed.

(** Passing the characters of a match. *)
Lemma scan_skip (x : pystr) :
  forall prev tail,
    Re.sub_scan lit tpl prev (length x) (x ++ tail) =
    Re.sub_scan lit tpl (lastc prev x) 0 tail.
Proof.
  induction x as [|c x IH]; intros prev tail; simpl.
  - destruct tail; reflexivity.
  - apply IH.
Qed.

(** No match begins just after a character that is not white space. *)
Lemma scan_step (c : ascii) (w : pystr) prev :
  Re.lookbehind_not_S prev = false ->
  Re.sub_scan lit tpl prev 0 (c :: w) =
  c :: Re.sub_scan lit tpl (Some c) 0 w.
Proof.
  intros Hp. cbn [Re.sub_scan]. unfold Re.match_here. now rewrite Hp.
Qed.

(** No match begins inside a token. *)
Lemma scan_inside (a : pystr) :
  wsfree a = true ->
  forall prev tail,
    Re.lookbehind_not_S prev = false ->
    Re.sub_scan lit tpl prev 0 (a ++ tail) =
    a ++ Re.sub_scan lit tpl (lastc prev a) 0 tail.
Proof.
  induction a as [|c a IH]; intros Ha prev tail Hp; [reflexivity|].
  simpl in Ha. apply andb_true_iff in Ha as [Hc Ha].
  apply negb_true_iff in Hc.
  cbn [app]. rewrite scan_step by assumption.
  f_equal. now apply IH.
Qed.

Lemma splice_with_nil (toks : list pystr) :
  splice_with new p toks = [] -> toks = [].
Proof.
  destruct toks as [|a [|b r]]; simpl; try discriminate; auto.
  destruct (Py.eqb a (fst p) && Py.eqb b (snd p)); discriminate.
Qed.

Lemma rest_str_splice (r : list pystr) :
  rest_str (splice_with new p r) =
  match r with
  | [] => []
  | _ => " "%char :: join [" "%char] (splice_with new p r)
  end.
Proof.
  destruct r as [|a r]; [reflexivity|].
  destruct (splice_with new p (a :: r)) eqn:E; [|reflexivity].
  apply splice_with_nil in E. discriminate.
Qed.

(** The scan of a joined token list is the join of the spliced token
    list, the new text standing where [L], [R] were adjacent. *)
Lemma scan_tokens (n : nat) :
  forall toks prev,
    length toks <= n ->
    forallb is_token toks = true ->
    Re.lookbehind_not_S prev = true ->
    Re.sub_scan lit tpl prev 0 (join [" "%char] toks) =
    join [" "%char] (splice_with new p toks).
Proof.
  induction n as [|n IH]; intros toks prev Hlen Htok Hp.
  { destruct toks; [reflexivity|simpl in Hlen; lia]. }
  destruct toks as [|a r]; [reflexivity|].
  assert (Hcont : forall r' prev',
             length r' <= n -> forallb is_token r' = true ->
             Re.lookbehind_not_S prev' = false ->
             Re.sub_scan lit tpl prev' 0 (rest_str r') =
             rest_str (splice_with new p r')).
  { intros r' prev' Hl Ht Hp'. rewrite rest_str_splice.
    destruct r' as [|b r'']; [reflexivity|].
    unfold rest_str. rewrite scan_step by assumption.
    f_equal. apply IH; auto. }
  pose proof Htok as Htok'. simpl in Htok'.
  apply andb_true_iff in Htok' as [Ha Hr].
  rewrite join_cons.
  destruct a as [|x a']; [discriminate|].
  assert (Hx : Re.lookbehind_not_S (Some x) = false).
  { simpl. simpl in Ha. apply andb_true_iff in Ha as [Hx _].
    now apply negb_true_iff in Hx. }
  assert (Ha' : wsfree a' = true).
  { simpl in Ha. now apply andb_true_iff in Ha as [_ Ha]. }
  cbn [app Re.sub_scan].
  change (x :: a' ++ rest_str r) with ((x :: a') ++ rest_str r).
  rewrite match_here_tokens by assumption.
  destruct r as [|b r'].
  - (* a single token *)
    rewrite scan_inside by assumption.
    cbn [rest_str splice_with join]. rewrite app_nil_r.
    destruct (lastc (Some x) a'); reflexivity.
  - simpl in Hr. apply andb_true_iff in Hr as [Hb Hr'].
    simpl in Hlen.
    cbn [splice_with].
    destruct (Py.eqb (x :: a') (fst p) && Py.eqb b (snd p)) eqn:E.
    + (* the pair is here *)
      apply andb_true_iff in E as [Ea Eb].
      apply str_eqb_eq in Ea, Eb.
      rewrite join_cons.
      assert (Hw : a' ++ rest_str (b :: r') =
                   (a' ++ " "%char :: b) ++ rest_str r').
      { cbn [rest_str]. rewrite join_cons, <- app_assoc. reflexivity. }
      rewrite Hw.
      assert (Hl : length lit - 1 = length (a' ++ " "%char :: b)).
      { unfold lit, bigram. rewrite <- Ea, <- Eb. simpl.
        rewrite !length_app. simpl. lia. }
      rewrite Hl, scan_skip.
      f_equal. apply Hcont; [lia|assumption|].
      rewrite lastc_app. simpl. now apply lastc_token.
    + (* no match at this token *)
      rewrite join_cons. cbn [app]. f_equal.
      rewrite scan_inside by assumption.
      f_equal. apply Hcont; [simpl; lia|simpl; now rewrite Hb|].
      change (lastc (Some x) a') with (lastc None (x :: a')).
      now apply lastc_token.
Qed.
End Scan.

(* ================================================================== *)
(** * Templates without a backslash *)
(* ================================================================== *)

Lemma parse_template_plain (s : pystr) :
  no_backslash s = true -> Re.parse_template s = Some (map Re.TLit s).
Proof.
  induction s as [|c s IH]; intros H; [reflexivity|].
  simpl in H. apply andb_true_iff in H as [Hc Hs].
  cbn [Re.parse_template map]. rewrite Hc, IH by assumption. reflexivity.
Qed.

Lemma expand_plain (s m : pystr) : Re.expand (map Re.TLit s) m = s.
Proof.
  unfold Re.expand. induction s as [|c s IH]; simpl; [reflexivity|].
  now rewrite IH.
Qed.

Lemma no_backslash_app (a b : pystr) :
  no_backslash (a ++ b) = no_backslash a && no_backslash b.
Proof. apply forallb_app. Qed.

Lemma merge_word_plain (p : pair) (w : pystr) :
  plain_pair p = true ->
  merge_word p w =
  Some (Re.sub_scan (bigram p) (map Re.TLit (merged p)) None 0 w).
Proof.
  intros H. unfold merge_word, Re.sub.
  rewrite parse_template_plain; [reflexivity|].
  unfold merged. now rewrite no_backslash_app.
Qed.

(** ** The regular-expression replacement as a splice

    For white-space-free symbols and a list of tokens, the substitution
    rewrites the joined string exactly where [L] and [R] are two
    complete adjacent tokens; what it writes there is the expansion of
    the template [L + R]. *)
Lemma merge_word_tokens (p : pair) (toks : list pystr) :
  wsfree (fst p) = true -> wsfree (snd p) = true ->
  forallb is_token toks = true ->
  merge_word p (join [" "%char] toks) =
  option_map
    (fun tpl =>
       join [" "%char] (splice_with (Re.expand tpl (bigram p)) p toks))
    (Re.parse_template (merged p)).
Proof.
  intros HL HR Ht. unfold merge_word, Re.sub.
  destruct (Re.parse_template (merged p)) as [tpl|]; [|reflexivity].
  simpl. f_equal.
  apply scan_tokens with (n := length toks); auto.
Qed.

(** When the symbols hold no backslash the replacement is the exact
    adjacency splice of the specification. *)
Lemma merge_word_splice (p : pair) (toks : list pystr) :
  wsfree (fst p) = true -> wsfree (snd p) = true ->
  plain_pair p = true ->
  forallb is_token toks = true ->
  merge_word p (join [" "%char] toks) = Some (join [" "%char] (splice p toks)).
Proof.
  intros HL HR Hp Ht. rewrite merge_word_tokens by assumption.
  unfold plain_pair in Hp.
  rewrite parse_template_plain
    by (unfold merged; now rewrite no_backslash_app).
  simpl. now rewrite expand_plain.
Qed.

Lemma splice_with_two (new : pystr) (p : pair) a b (r : list pystr) :
  splice_with new p (a :: b :: r) =
  if Py.eqb a (fst p) && Py.eqb b (snd p)
  then new :: splice_with new p r
  else a :: splice_with new p (b :: r).
Proof. reflexivity. Qed.

Lemma splice_tokens (p : pair) (toks : list pystr) :
  is_token (merged p) = true ->
  forallb is_token toks = true ->
  forallb is_token (splice p toks) = true.
Proof.
  intros Hm. unfold splice.
  assert (H : forall n toks, length toks <= n ->
              forallb is_token toks = true ->
              forallb is_token (splice_with (merged p) p toks) = true).
  { induction n as [|n IH]; intros l Hl Ht.
    - destruct l; [reflexivity|simpl in Hl; lia].
    - destruct l as [|a [|b r]]; [reflexivity|assumption|].
      rewrite splice_with_two.
      simpl in Ht. apply andb_true_iff in Ht as [Ha Ht].
      apply andb_true_iff in Ht as [Hb Hr].
      simpl in Hl.
      destruct (Py.eqb a (fst p) && Py.eqb b (snd p)).
      + cbn [forallb]. apply andb_true_iff; split; [exact Hm|].
        apply IH; [lia|assumption].
      + cbn [forallb]. apply andb_true_iff; split; [exact Ha|].
        apply IH; [simpl; lia|]. simpl. now rewrite Hb. }
  intros Ht. now apply H with (n := length toks).
Qed.

(** The same on the token lists that [split] reads back: for symbols
    that are tokens without backslash, splitting the rewritten string
    gives the splice of the tokens of the string. *)
Lemma merge_word_split (p : pair) (toks : list pystr) :
  is_token (fst p) = true -> is_token (snd p) = true ->
  plain_pair p = true ->
  forallb is_token toks = true ->
  option_map split (merge_word p (join [" "%char] toks))
  = Some (splice p (split (join [" "%char] toks))).
Proof.
  intros HL HR Hp Ht.
  rewrite merge_word_splice; auto using is_token_wsfree.
  simpl. f_equal. rewrite !split_join; auto.
  apply splice_tokens; [|assumption].
  unfold merged. destruct (fst p) as [|c L]; [discriminate|].
  simpl in *. apply andb_true_iff in HL as [Hc HLw].
  rewrite Hc. simpl. fold (wsfree (L ++ snd p)).
  rewrite wsfree_app, HLw. now apply is_token_wsfree.
Qed.

(* ================================================================== *)
(** * What a substitution keeps, for any subject string *)
(* ================================================================== *)

Lemma length_split_from (w : pystr) :
  forall cur,
    length (split_from cur w) =
    match cur with
    | [] => count_from true w
    | _ => 1 + count_from false w
    end.
Proof.
  induction w as [|c w IH]; intros cur; simpl.
  - now destruct cur.
  - destruct (isspace c).
    + destruct cur; simpl; rewrite IH; reflexivity.
    + rewrite IH. destruct cur; reflexivity.
Qed.

Lemma length_split (w : pystr) : length (split w) = count_from true w.
Proof. apply length_split_from. Qed.

Lemma concat_split_from (w : pystr) :
  forall cur, Py.concat (split_from cur w) = cur ++ nows w.
Proof.
  unfold Py.concat.
  induction w as [|c w IH]; intros cur; simpl.
  - destruct cur; simpl; now rewrite ?app_nil_r.
  - destruct (isspace c); simpl.
    + destruct cur; simpl; rewrite IH; reflexivity.
    + rewrite IH, <- app_assoc. reflexivity.
Qed.

Lemma concat_split (w : pystr) : Py.concat (split w) = nows w.
Proof. apply concat_split_from. Qed.

Lemma nows_app (a b : pystr) : nows (a ++ b) = nows a ++ nows b.
Proof. apply filter_app. Qed.

Lemma nows_wsfree (a : pystr) : wsfree a = true -> nows a = a.
Proof.
  induction a as [|c a IH]; simpl; intros H; [reflexivity|].
  apply andb_true_iff in H as [Hc Ha]. rewrite Hc. f_equal. now apply IH.
Qed.

Lemma count_from_app (x y : pystr) :
  forall b, count_from b (x ++ y) =
            count_from b x + count_from (ends_free b x) y.
Proof.
  induction x as [|c x IH]; intros b; simpl; [reflexivity|].
  destruct (isspace c); rewrite IH; simpl; lia.
Qed.

Lemma count_from_mono (w : pystr) : count_from false w <= count_from true w.
Proof. destruct w as [|c w]; simpl; [lia|]. destruct (isspace c); lia. Qed.

Lemma count_from_le_true (w : pystr) b : count_from b w <= count_from true w.
Proof. destruct b; [lia|apply count_from_mono]. Qed.

Lemma ends_free_app (x y : pystr) b :
  ends_free b (x ++ y) = ends_free (ends_free b x) y.
Proof. apply fold_left_app. Qed.

Lemma ends_free_mono (x : pystr) b :
  ends_free b x = true -> ends_free true x = true.
Proof. destruct x as [|c x]; simpl; auto. Qed.

Lemma ends_free_cons (c : ascii) (x : pystr) b b' :
  ends_free b (c :: x) = ends_free b' (c :: x).
Proof. reflexivity. Qed.

Section ScanAny.
Variables (lit : pystr) (tpl : list Re.titem).
Hypothesis lit_nonempty : lit <> [].

Let new := Re.expand tpl lit.
Let lb := Re.lookbehind_not_S.

(** A match at the head of [w] splits [w] into the literal and a
    rest, and the scan resumes on the rest. *)
Lemma match_here_inv prev (w : pystr) :
  Re.match_here lit prev w = true ->
  lb prev = true /\
  exists c lit' rest, lit = c :: lit' /\ w = c :: lit' ++ rest.
Proof.
  unfold Re.match_here. intros H. apply andb_true_iff in H as [Hp H].
  split; [assumption|].
  destruct (Re.match_literal lit w) as [rest|] eqn:E; [|discriminate].
  apply match_literal_inv in E.
  destruct lit as [|c lit']; [contradiction|].
  exists c, lit', rest. now subst.
Qed.

(** The text without white space is unchanged as soon as the new
    text and the literal agree on it. *)
Lemma nows_scan :
  nows new = nows lit ->
  forall w prev k,
    nows (Re.sub_scan lit tpl prev k w) = nows (skipn k w).
Proof.
  intros Hnew. induction w as [|c w IH]; intros prev k.
  - now destruct k.
  - destruct k as [|k]; [|apply IH].
    cbn [Re.sub_scan skipn].
    destruct (Re.match_here lit prev (c :: w)) eqn:E.
    + apply match_here_inv in E as (_ & c0 & lit' & rest & Hl & Hw).
      injection Hw as -> ->.
      fold new. rewrite nows_app, Hnew, IH, Hl.
      replace (length (c0 :: lit') - 1) with (length lit') by (simpl; lia).
      rewrite skipn_app, skipn_all, Nat.sub_diag. cbn [skipn app].
      change (c0 :: lit' ++ rest) with ((c0 :: lit') ++ rest).
      now rewrite nows_app.
    + change (c :: Re.sub_scan lit tpl (Some c) 0 w)
        with ([c] ++ Re.sub_scan lit tpl (Some c) 0 w).
      change (c :: w) with ([c] ++ w).
      now rewrite !nows_app, IH.
Qed.

(** The number of tokens does not grow as soon as the new text has no
    more tokens than the literal and ends inside a token when the
    literal does. *)
Lemma count_scan :
  (forall b, count_from b new <= count_from true lit) ->
  (forall b, ends_free b new = true -> ends_free true lit = true) ->
  forall w prev k b,
    (b = true -> ends_free (lb prev) (firstn k w) = true) ->
    count_from b (Re.sub_scan lit tpl prev k w) <=
    count_from (ends_free (lb prev) (firstn k w)) (skipn k w).
Proof.
  intros Hcount Hend. induction w as [|c w IH]; intros prev k b Hb.
  - destruct k; simpl; lia.
  - destruct k as [|k].
    + cbn [Re.sub_scan skipn firstn ends_free fold_left] in *.
      destruct (Re.match_here lit prev (c :: w)) eqn:E.
      * apply match_here_inv in E as (Hp & c0 & lit' & rest & Hl & Hw).
        injection Hw as -> ->.
        fold new. rewrite Hp, count_from_app.
        change (c0 :: lit' ++ rest) with ((c0 :: lit') ++ rest).
        rewrite <- Hl, count_from_app.
        specialize (Hcount b).
        assert (Hk : length lit - 1 = length lit')
          by (rewrite Hl; simpl; lia).
        specialize (IH (Some c0) (length lit') (ends_free b new)).
        rewrite firstn_app, firstn_all, Nat.sub_diag, firstn_O,
                app_nil_r in IH.
        rewrite skipn_app, skipn_all, Nat.sub_diag in IH. simpl skipn in IH.
        assert (Hst : ends_free (lb (Some c0)) lit' = ends_free true lit).
        { rewrite Hl. reflexivity. }
        rewrite Hst in IH. rewrite Hk.
        specialize (IH (Hend b)). cbn [app] in IH. lia.
      * simpl. destruct (isspace c) eqn:Hc.
        -- specialize (IH (Some c) 0 true). simpl in IH.
           rewrite Hc in IH. now apply IH.
        -- specialize (IH (Some c) 0 false). simpl in IH.
           rewrite Hc in IH.
           assert ((if b then 1 else 0) <= (if lb prev then 1 else 0)).
           { destruct b; [rewrite Hb by reflexivity|destruct (lb prev)]; lia. }
           assert (false = true -> false = true) by auto.
           specialize (IH H0). lia.
    + cbn [Re.sub_scan skipn firstn].
      specialize (IH (Some c) k b).
      rewrite (ends_free_cons c (firstn k w) (lb prev) true).
      simpl in *. now apply IH.
Qed.
End ScanAny.

(** ** One merge with symbols that hold no backslash *)

Lemma bigram_nonempty (p : pair) : bigram p <> [].
Proof. unfold bigram. destruct (fst p); discriminate. Qed.

Lemma nows_bigram (p : pair) : nows (merged p) = nows (bigram p).
Proof. unfold merged, bigram. now rewrite !nows_app. Qed.

Lemma merge_word_keeps (p : pair) (w : pystr) :
  plain_pair p = true ->
  exists w',
    merge_word p w = Some w' /\
    nows w' = nows w /\
    length (split w') <= length (split w).
Proof.
  intros Hp. rewrite merge_word_plain by assumption.
  eexists; split; [reflexivity|]. split.
  - rewrite nows_scan; [reflexivity|apply bigram_nonempty|].
    rewrite expand_plain. apply nows_bigram.
  - rewrite !length_split.
    pose proof (@count_scan (bigram p) (map Re.TLit (merged p))
                            (bigram_nonempty p)) as H.
    rewrite expand_plain in H.
    apply (H) with (w := w) (prev := None) (k := 0) (b := true);
      unfold merged, bigram.
    + intros b. rewrite !count_from_app. simpl.
      change (isspace " "%char) with true.
      pose proof (count_from_le_true (fst p) b).
      pose proof (count_from_le_true (snd p) (ends_free b (fst p))). lia.
    + intros b. rewrite !ends_free_app. simpl.
      change (isspace " "%char) with true. apply ends_free_mono.
    + reflexivity.
Qed.

Lemma replay_app (a b : list pair) (w : pystr) :
  replay (a ++ b) w =
  match replay a w with Some w' => replay b w' | None => None end.
Proof.
  revert w; induction a as [|p a IH]; intros w; simpl; [reflexivity|].
  destruct (merge_word p w); auto.
Qed.

Lemma replay_keeps (codes : list pair) :
  forallb plain_pair codes = true ->
  forall w, exists w',
    replay codes w = Some w' /\
    nows w' = nows w /\
    length (split w') <= length (split w).
Proof.
  induction codes as [|p codes IH]; intros H w.
  - exists w. repeat split; auto.
  - simpl in H. apply andb_true_iff in H as [Hp Hc].
    destruct (merge_word_keeps p w Hp) as (w1 & E1 & N1 & L1).
    destruct (IH Hc w1) as (w2 & E2 & N2 & L2).
    exists w2. simpl. rewrite E1. repeat split; [assumption|congruence|lia].
Qed.

(* ================================================================== *)
(** * Replay: reconstruction and token count *)
(* ================================================================== *)

Lemma nows_rest_str (r : list pystr) :
  nows (rest_str r) = nows (join [" "%char] r).
Proof. destruct r; reflexivity. Qed.

Lemma nows_join (l : list pystr) :
  nows (join [" "%char] l) = nows (List.concat l).
Proof.
  induction l as [|a r IH]; [reflexivity|].
  rewrite join_cons. cbn [List.concat].
  now rewrite !nows_app, nows_rest_str, IH.
Qed.

Lemma concat_chars (s : pystr) : List.concat (chars s) = s.
Proof. induction s as [|c s IH]; simpl; [reflexivity|now rewrite IH]. Qed.

Lemma nows_spaced (seq : pystr) :
  wsfree seq = true ->
  nows (BPEProcessor.spaced seq) = str "<s>" ++ seq ++ str "</s>".
Proof.
  intros H. unfold BPEProcessor.spaced.
  rewrite !nows_app, nows_join, concat_chars, (@nows_wsfree seq H).
  reflexivity.
Qed.

Lemma nows_word_tokens (word : pystr) :
  wsfree word = true ->
  nows (join [" "%char] (StandardBPE.get_word_tokens word)) =
  word ++ str "</w>".
Proof.
  intros H. unfold StandardBPE.get_word_tokens.
  rewrite nows_join, concat_app, concat_chars, nows_app, (@nows_wsfree word H).
  reflexivity.
Qed.

(** With rules that hold no backslash, [apply_bpe] returns, and the
    concatenation of its tokens is the framed input. *)
Lemma apply_bpe_reconstructs (self : BPEProcessor.t) (seq : pystr) :
  forallb plain_pair (BPEProcessor.bpe_codes self) = true ->
  wsfree seq = true ->
  exists toks,
    BPEProcessor.apply_bpe self seq = Some toks /\
    Py.concat toks = str "<s>" ++ seq ++ str "</s>".
Proof.
  intros Hc Hs. unfold BPEProcessor.apply_bpe.
  destruct (replay_keeps _ Hc (BPEProcessor.spaced seq)) as (w & E & N & _).
  rewrite E. eexists; split; [reflexivity|].
  now rewrite concat_split, N, nows_spaced.
Qed.

Lemma standard_apply_bpe_reconstructs (self : StandardBPE.t) (word : pystr) :
  forallb plain_pair (StandardBPE.bpe_codes self) = true ->
  wsfree word = true ->
  exists toks,
    StandardBPE.apply_bpe self word = Some toks /\
    Py.concat toks = word ++ str "</w>".
Proof.
  intros Hc Hs. unfold StandardBPE.apply_bpe.
  destruct (replay_keeps _ Hc
              (join [" "%char] (StandardBPE.get_word_tokens word)))
    as (w & E & N & _).
  rewrite E. eexists; split; [reflexivity|].
  now rewrite concat_split, N, nows_word_tokens.
Qed.

Lemma firstn_succ {A : Type} (l : list A) :
  forall n, firstn (S n) l = firstn n l ++ firstn 1 (skipn n l).
Proof.
  induction l as [|x l IH]; intros [|n]; try reflexivity.
  cbn [firstn skipn app]. f_equal. apply IH.
Qed.

Lemma forallb_firstn {A : Type} (f : A -> bool) (l : list A) :
  forallb f l = true -> forall n, forallb f (firstn n l) = true.
Proof.
  induction l as [|x l IH]; intros H [|n]; try reflexivity.
  simpl in *. apply andb_true_iff in H as [Hx Hl]. rewrite Hx. now apply IH.
Qed.

Lemma forallb_skipn {A : Type} (f : A -> bool) (l : list A) :
  forallb f l = true -> forall n, forallb f (skipn n l) = true.
Proof.
  induction l as [|x l IH]; intros H [|n]; try reflexivity; auto.
  simpl in *. apply andb_true_iff in H as [Hx Hl]. now apply IH.
Qed.

(** With rules that hold no backslash, one more rule never adds a
    token: the replay of [rules[:n+1]] has at most as many tokens as
    the replay of [rules[:n]]. *)
Lemma replay_prefix_count (codes : list pair) (w : pystr) (n : nat) :
  forallb plain_pair codes = true ->
  exists w1 w2,
    replay (firstn n codes) w = Some w1 /\
    replay (firstn (S n) codes) w = Some w2 /\
    length (split w2) <= length (split w1).
Proof.
  intros Hc.
  destruct (replay_keeps _ (forallb_firstn _ _ Hc n) w) as (w1 & E1 & _ & _).
  assert (Hone : forallb plain_pair (firstn 1 (skipn n codes)) = true).
  { apply forallb_firstn. now apply forallb_skipn. }
  destruct (replay_keeps _ Hone w1) as (w2 & E2 & _ & L2).
  exists w1, w2. split; [assumption|]. split; [|assumption].
  now rewrite firstn_succ, replay_app, E1.
Qed.

Lemma apply_bpe_prefix_count (m : Z) (v : vocab_t) (codes : list pair)
      (seq : pystr) (n : nat) :
  forallb plain_pair codes = true ->
  exists t1 t2,
    BPEProcessor.apply_bpe (BPEProcessor.mk m (firstn n codes) v) seq
      = Some t1 /\
    BPEProcessor.apply_bpe (BPEProcessor.mk m (firstn (S n) codes) v) seq
      = Some t2 /\
    length t2 <= length t1.
Proof.
  intros Hc. unfold BPEProcessor.apply_bpe. cbn [BPEProcessor.bpe_codes].
  destruct (replay_prefix_count codes (BPEProcessor.spaced seq) n Hc)
    as (w1 & w2 & E1 & E2 & L).
  rewrite E1, E2. eauto.
Qed.

Lemma standard_apply_bpe_prefix_count (m : Z) (v : list pystr)
      (codes : list pair) (word : pystr) (n : nat) :
  forallb plain_pair codes = true ->
  exists t1 t2,
    StandardBPE.apply_bpe (StandardBPE.mk m (firstn n codes) v) word
      = Some t1 /\
    StandardBPE.apply_bpe (StandardBPE.mk m (firstn (S n) codes) v) word
      = Some t2 /\
    length t2 <= length t1.
Proof.
  intros Hc. unfold StandardBPE.apply_bpe. cbn [StandardBPE.bpe_codes].
  destruct (replay_prefix_count codes
              (join [" "%char] (StandardBPE.get_word_tokens word)) n Hc)
    as (w1 & w2 & E1 & E2 & L).
  rewrite E1, E2. eauto.
Qed.

(* ================================================================== *)
(** * Selection of the best pair *)
(* ================================================================== *)

Lemma max_from_first_max (rest : stats_t) :
  forall before best best_v between,
    (forall q g, In (q, g) before -> (g < best_v)%Z) ->
    (forall q g, In (q, g) between -> (g <= best_v)%Z) ->
    first_max (before ++ (best, best_v) :: between ++ rest)
              (max_from best best_v rest).
Proof.
  induction rest as [|[k v] rest IH]; intros before best bv between Hb Hm.
  - simpl. rewrite app_nil_r. exists before, bv, between. auto.
  - simpl. destruct (bv <? v)%Z eqn:E.
    + apply Z.ltb_lt in E.
      specialize (@IH (before ++ (best, bv) :: between) k v []).
      rewrite <- app_assoc in IH. simpl in IH. apply IH.
      * intros q g Hin. apply in_app_or in Hin as [Hin|[Hin|Hin]].
        -- specialize (Hb q g Hin). lia.
        -- injection Hin as <- <-. assumption.
        -- specialize (Hm q g Hin). lia.
      * intros q g [].
    + apply Z.ltb_ge in E.
      specialize (@IH before best bv (between ++ [(k, v)])).
      rewrite <- app_assoc in IH. simpl in IH. apply IH; [assumption|].
      intros q g Hin. apply in_app_or in Hin as [Hin|[Hin|[]]].
      * now apply Hm with q.
      * injection Hin as <- <-. assumption.
Qed.

Lemma max_key_first_max (stats : stats_t) (p : pair) :
  max_key stats = Some p -> first_max stats p.
Proof.
  destruct stats as [|[k v] rest]; [discriminate|].
  simpl. intros [= <-].
  apply (@max_from_first_max rest [] k v []); intros q g [].
Qed.

Lemma first_max_in (stats : stats_t) (p : pair) :
  first_max stats p -> In p (Dict.keys stats).
Proof.
  intros (b & f & a & -> & _). unfold Dict.keys.
  rewrite map_app. apply in_or_app. right. now left.
Qed.

Lemma learn_step_merged (v v' : vocab_t) (p : pair) :
  learn_step v = Merged p v' ->
  max_key (get_stats v) = Some p /\ merge_vocab p v = Some v'.
Proof.
  unfold learn_step.
  destruct (max_key (get_stats v)) as [q|]; [|discriminate].
  destruct (merge_vocab q v) as [u|] eqn:E; [|discriminate].
  intros [= -> ->]. auto.
Qed.

(** Every rule the loop appends is the first maximum of the statistics
    of the vocabulary of its iteration. *)
Lemma learn_loop_greedy (n : nat) :
  forall v codes v_end codes_end,
    learn_loop n v codes = Some (v_end, codes_end) ->
    exists new, codes_end = codes ++ new /\ greedy_from v new.
Proof.
  induction n as [|n IH]; intros v codes v_end codes_end H; simpl in H.
  - injection H as <- <-. exists []. now rewrite app_nil_r.
  - destruct (learn_step v) as [| |best v1] eqn:E.
    + injection H as <- <-. exists []. now rewrite app_nil_r.
    + discriminate.
    + apply learn_step_merged in E as [Hmax Hmerge].
      apply IH in H as (new & -> & Hg).
      exists (best :: new). rewrite <- app_assoc. split; [reflexivity|].
      simpl. split; [now apply max_key_first_max|]. eauto.
Qed.

(* ================================================================== *)
(** * The sliding window as a list of contributions *)
(* ================================================================== *)

Lemma fold_left_flat_map {A B C : Type} (f : A -> C -> A) (g : B -> list C)
      (l : list B) :
  forall a,
    fold_left f (flat_map g l) a =
    fold_left (fun a x => fold_left f (g x) a) l a.
Proof.
  induction l as [|x l IH]; intros a; simpl; [reflexivity|].
  now rewrite fold_left_app, IH.
Qed.

Lemma fold_left_of_map {A B C : Type} (f : A -> C -> A) (g : B -> C)
      (l : list B) :
  forall a, fold_left f (map g l) a = fold_left (fun a x => f a (g x)) l a.
Proof.
  induction l as [|x l IH]; intros a; simpl; [reflexivity|]. apply IH.
Qed.

Lemma fold_left_ext_in {A B : Type} (f g : A -> B -> A) (l : list B) :
  (forall a x, In x l -> f a x = g a x) ->
  forall a, fold_left f l a = fold_left g l a.
Proof.
  induction l as [|x l IH]; intros H a; simpl; [reflexivity|].
  rewrite H by now left. apply IH. intros; apply H; now right.
Qed.

Lemma in_range (lo hi j : Z) :
  In j (Cooc.range lo hi) <-> (lo <= j < hi)%Z.
Proof.
  unfold Cooc.range. rewrite in_map_iff. split.
  - intros (k & <- & Hk). apply in_seq in Hk. lia.
  - intros H. exists (Z.to_nat (j - lo)). split; [lia|].
    apply in_seq. lia.
Qed.

Lemma range_empty (lo hi : Z) : (hi <= lo)%Z -> Cooc.range lo hi = [].
Proof.
  intros H. unfold Cooc.range.
  replace (Z.to_nat (hi - lo)) with 0 by lia. reflexivity.
Qed.

Lemma map_seq_offset (lo : Z) (d n : nat) :
  forall s,
    map (fun k => (lo + Z.of_nat k)%Z) (seq (s + d) n) =
    map (fun k => (lo + Z.of_nat d + Z.of_nat k)%Z) (seq s n).
Proof.
  induction n as [|n IH]; intros s; simpl; [reflexivity|].
  f_equal; [lia|]. apply (IH (S s)).
Qed.

Lemma range_app (lo mid hi : Z) :
  (lo <= mid <= hi)%Z ->
  Cooc.range lo hi = Cooc.range lo mid ++ Cooc.range mid hi.
Proof.
  intros H. unfold Cooc.range.
  replace (Z.to_nat (hi - lo))
    with (Z.to_nat (mid - lo) + Z.to_nat (hi - mid)) by lia.
  rewrite seq_app, map_app. f_equal.
  rewrite (map_seq_offset lo (Z.to_nat (mid - lo)) (Z.to_nat (hi - mid)) 0).
  apply map_ext. intros k. lia.
Qed.

Lemma flat_map_ext_on {A B : Type} (f g : A -> list B) (l : list A) :
  (forall x, In x l -> f x = g x) -> flat_map f l = flat_map g l.
Proof.
  induction l as [|x l IH]; intros H; simpl; [reflexivity|].
  rewrite H by now left. f_equal. apply IH. intros; apply H; now right.
Qed.

Lemma flat_map_none {A B : Type} (c : A -> bool) (f : A -> list B)
      (l : list A) :
  (forall x, In x l -> c x = false) ->
  flat_map (fun x => if c x then f x else []) l = [].
Proof.
  induction l as [|x l IH]; intros H; simpl; [reflexivity|].
  rewrite H by now left. apply IH. intros; apply H; now right.
Qed.

Lemma flat_map_all {A B : Type} (c : A -> bool) (f : A -> list B)
      (l : list A) :
  (forall x, In x l -> c x = true) ->
  flat_map (fun x => if c x then f x else []) l = flat_map f l.
Proof.
  induction l as [|x l IH]; intros H; simpl; [reflexivity|].
  rewrite H by now left. f_equal. apply IH. intros; apply H; now right.
Qed.

(** Filtering a range by a test that holds exactly on a sub-range. *)
Lemma flat_map_subrange {B : Type} (c : Z -> bool) (f : Z -> list B)
      (lo hi a b : Z) :
  (lo <= a)%Z -> (b <= hi)%Z ->
  (forall j, (lo <= j < hi)%Z -> c j = true <-> (a <= j < b)%Z) ->
  flat_map (fun j => if c j then f j else []) (Cooc.range lo hi) =
  flat_map f (Cooc.range a b).
Proof.
  intros Ha Hb Hc.
  assert (Hfalse : forall j, (lo <= j < hi)%Z -> ~ (a <= j < b)%Z ->
                             c j = false).
  { intros j Hj Hn. destruct (c j) eqn:E; [|reflexivity].
    apply Hc in E; tauto. }
  destruct (Z_lt_le_dec a b) as [Hab|Hab].
  - rewrite (@range_app lo a hi), (@range_app a b hi) by lia.
    rewrite !flat_map_app.
    rewrite flat_map_none, flat_map_all, flat_map_none.
    + now rewrite app_nil_r.
    + intros j Hj. apply in_range in Hj. apply Hfalse; lia.
    + intros j Hj. apply in_range in Hj. apply Hc; lia.
    + intros j Hj. apply in_range in Hj. apply Hfalse; lia.
  - rewrite (@range_empty a b) by lia. simpl.
    apply flat_map_none. intros j Hj. apply in_range in Hj.
    apply Hfalse; lia.
Qed.

Lemma positions_range (ids : list Z) :
  positions ids = Cooc.range 0 (Z.of_nat (length ids)).
Proof.
  unfold positions, Cooc.range.
  replace (Z.to_nat (Z.of_nat (length ids) - 0)) with (length ids) by lia.
  apply map_ext. intros; lia.
Qed.

Lemma in_positions (ids : list Z) (i : Z) :
  In i (positions ids) <-> (0 <= i < Z.of_nat (length ids))%Z.
Proof. rewrite positions_range. apply in_range. Qed.

Lemma enumerate_from_seq (l : list Z) :
  forall k,
    Cooc.enumerate_from (Z.of_nat k) l =
    map (fun n => (Z.of_nat n, nth (n - k) l 0%Z)) (seq k (length l)).
Proof.
  induction l as [|x l IH]; intros k; simpl; [reflexivity|].
  rewrite Nat.sub_diag. f_equal.
  replace (Z.of_nat k + 1)%Z with (Z.of_nat (S k)) by lia.
  rewrite IH. apply map_ext_in. intros n Hn. apply in_seq in Hn.
  f_equal. replace (n - k) with (S (n - S k)) by lia. reflexivity.
Qed.

Lemma enumerate_positions (ids : list Z) :
  Cooc.enumerate ids = map (fun i => (i, id_at ids i)) (positions ids).
Proof.
  unfold Cooc.enumerate, positions.
  change 0%Z with (Z.of_nat 0).
  rewrite (enumerate_from_seq ids 0), map_map.
  apply map_ext. intros n. unfold id_at.
  now rewrite Nat.sub_0_r, Nat2Z.id.
Qed.

(** The loops of [window] add the window contributions, in order. *)
Lemma window_fold (w : Z) (ids : list Z) (t : Cooc.table) :
  Cooc.window w ids t = fold_left addc (window_contributions w ids) t.
Proof.
  unfold Cooc.window, window_contributions.
  rewrite enumerate_positions, fold_left_flat_map.
  rewrite fold_left_of_map. revert t.
  apply fold_left_ext_in. intros t i _. cbv beta iota.
  rewrite fold_left_flat_map. revert t.
  apply fold_left_ext_in. intros t' j _.
  unfold Cooc.visit, contribution.
  destruct (negb (i =? j)%Z); reflexivity.
Qed.

(** The window bounds select the positions at distance at most [w]. *)
Lemma window_contributions_spec (w : Z) (ids : list Z) :
  window_contributions w ids = contributions w ids.
Proof.
  unfold window_contributions, contributions.
  apply flat_map_ext_on. intros i Hi. apply in_positions in Hi.
  rewrite positions_range.
  rewrite <- (@flat_map_subrange _ (fun j => (Z.abs (i - j) <=? w)%Z)
                (contribution ids i) 0 (Z.of_nat (length ids))).
  - apply flat_map_ext. intros j. unfold contribution.
    destruct (negb (i =? j)%Z), (Z.abs (i - j) <=? w)%Z; reflexivity.
  - lia.
  - lia.
  - intros j Hj. rewrite Z.leb_le. lia.
Qed.

(* ================================================================== *)
(** * Accumulating contributions into the table *)
(* ================================================================== *)






Lemma accumulate_nodup cs :
  forall t : Cooc.table,
    NoDup (Dict.keys t) -> NoDup (Dict.keys (fold_left addc cs t)).
Proof.
  induction cs as [|c cs IH]; intros t H; simpl; [assumption|].
  apply IH. unfold addc, Cooc.add_weight.
  now apply (@nodup_keys_set _ _ Cooc.key_eqb key_eqb_eq).
Qed.

Lemma to_ids_filtered (m : Dict.dict pystr Z) (s : list pystr) :
  Cooc.to_ids m s = filtered_ids m s.
Proof.
  unfold filtered_ids. induction s as [|tok s IH]; simpl; [reflexivity|].
  destruct (Dict.get Py.eqb m tok); simpl; now rewrite IH.
Qed.

(** [compute_cooccurrence] adds, to the table it starts from, the
    contributions of the specification. *)
Lemma compute_cooccurrence_fold (self : Cooc.t) (streams : list (list pystr)) :
  Cooc.cooccurrence_counts (Cooc.compute_cooccurrence self streams) =
  fold_left addc
    (all_contributions (Cooc.token_to_id self) (Cooc.window_size self) streams)
    (Cooc.cooccurrence_counts self).
Proof.
  unfold Cooc.compute_cooccurrence, all_contributions.
  cbn [Cooc.cooccurrence_counts].
  rewrite fold_left_flat_map.
  generalize (Cooc.cooccurrence_counts self) as t.
  apply fold_left_ext_in. intros t s _.
  now rewrite window_fold, window_contributions_spec, to_ids_filtered.
Qed.

(** ** Keys and weights of the contributions *)







(* ================================================================== *)
(** * The sliding window in binary64 *)
(* ================================================================== *)

(** The numbers of some weights: [1.0 / 1] and [1.0 / 2] are exact,
    [1.0 / 3] is rounded, and so is the sum of two of them; an [int]
    above [2 ** 53] is rounded when it becomes a [float]. *)
Example inverse64_values :
  FloatOps.Prim2SF (inverse64 1) = SpecFloat.S754_finite false 4503599627370496 (-52) /\
  FloatOps.Prim2SF (inverse64 2) = SpecFloat.S754_finite false 4503599627370496 (-53) /\
  FloatOps.Prim2SF (inverse64 3) = SpecFloat.S754_finite false 6004799503160661 (-54) /\
  FloatOps.Prim2SF (sum64 PrimFloat.zero [inverse64 3; inverse64 3]) =
  SpecFloat.S754_finite false 6004799503160661 (-53) /\
  FloatOps.Prim2SF (Cooc64.of_int 9007199254740993) =
  SpecFloat.S754_finite false 4503599627370496 1.
Proof. vm_compute. repeat split. Qed.

(** The loops of [window] make the window steps, in order. *)
Lemma window64_fold (w : Z) (ids : list Z) (t : Cooc64.table) :
  Cooc64.window w ids t = fold_left add64 (window_steps w ids) t.
Proof.
  unfold Cooc64.window, window_steps.
  rewrite enumerate_positions, fold_left_flat_map.
  rewrite fold_left_of_map. revert t.
  apply fold_left_ext_in. intros t i _. cbv beta iota.
  rewrite fold_left_flat_map. revert t.
  apply fold_left_ext_in. intros t' j _.
  unfold Cooc64.visit, step.
  destruct (negb (i =? j)%Z); reflexivity.
Qed.

(** The window bounds select the positions at distance at most [w]. *)
Lemma window_steps_spec (w : Z) (ids : list Z) :
  window_steps w ids = steps w ids.
Proof.
  unfold window_steps, steps.
  apply flat_map_ext_on. intros i Hi. apply in_positions in Hi.
  rewrite positions_range.
  rewrite <- (@flat_map_subrange _ (fun j => (Z.abs (i - j) <=? w)%Z)
                (step ids i) 0 (Z.of_nat (length ids))).
  - apply flat_map_ext. intros j. unfold step.
    destruct (negb (i =? j)%Z), (Z.abs (i - j) <=? w)%Z; reflexivity.
  - lia.
  - lia.
  - intros j Hj. rewrite Z.leb_le. lia.
Qed.

Lemma get_add64 (t : Cooc64.table) (c : Cooc.key * Z) (k : Cooc.key) :
  Dict.get Cooc.key_eqb (add64 t c) k =
  if Cooc.key_eqb (fst c) k
  then Some (PrimFloat.add
               (Dict.get_default Cooc.key_eqb t k PrimFloat.zero)
               (inverse64 (snd c)))
  else Dict.get Cooc.key_eqb t k.
Proof.
  unfold add64, Cooc64.add_weight.
  destruct (Cooc.key_eqb (fst c) k) eqn:E.
  - apply key_eqb_eq in E. subst k.
    apply (@get_set_same _ _ Cooc.key_eqb key_eqb_eq).
  - apply (@get_set_other _ _ Cooc.key_eqb key_eqb_eq). intros ->.
    now rewrite key_eqb_refl in E.
Qed.

Lemma weights_of_cons (c : Cooc.key * Z) cs (k : Cooc.key) :
  weights_of (c :: cs) k =
  if Cooc.key_eqb (fst c) k then inverse64 (snd c) :: weights_of cs k
  else weights_of cs k.
Proof. unfold weights_of. simpl. now destruct (Cooc.key_eqb (fst c) k). Qed.

(** The table after a run of steps: a key is present when it was
    present before or a step reaches it, and its weight is the previous
    weight, [0.0] for a new key, to which the weights of its steps were
    added one after the other. *)
Lemma accumulate64_get cs :
  forall (t : Cooc64.table) (k : Cooc.key),
    match Dict.get Cooc.key_eqb (fold_left add64 cs t) k with
    | Some v =>
        (Dict.get Cooc.key_eqb t k <> None \/ reached cs k = true) /\
        v = sum64 (Dict.get_default Cooc.key_eqb t k PrimFloat.zero)
                  (weights_of cs k)
    | None =>
        Dict.get Cooc.key_eqb t k = None /\ reached cs k = false
    end.
Proof.
  induction cs as [|c cs IH]; intros t k.
  - simpl. unfold Dict.get_default, sum64.
    destruct (Dict.get Cooc.key_eqb t k) as [v|]; simpl.
    + split; [left; discriminate|reflexivity].
    + auto.
  - simpl fold_left. specialize (IH (add64 t c) k).
    rewrite weights_of_cons. unfold reached in *. simpl existsb.
    unfold Dict.get_default in *. rewrite get_add64 in IH.
    destruct (Dict.get Cooc.key_eqb (fold_left add64 cs (add64 t c)) k)
      as [v|]; destruct (Cooc.key_eqb (fst c) k).
    + destruct IH as [_ IH]. split; [now right|exact IH].
    + assumption.
    + destruct IH as [IH _]. discriminate.
    + assumption.
Qed.

Lemma accumulate64_nodup cs :
  forall t : Cooc64.table,
    NoDup (Dict.keys t) -> NoDup (Dict.keys (fold_left add64 cs t)).
Proof.
  induction cs as [|c cs IH]; intros t H; simpl; [assumption|].
  apply IH. unfold add64, Cooc64.add_weight.
  now apply (@nodup_keys_set _ _ Cooc.key_eqb key_eqb_eq).
Qed.

(** [compute_cooccurrence] makes, on the table it starts from, the
    steps of the specification. *)
Lemma compute_cooccurrence64_fold (self : Cooc64.t)
      (streams : list (list pystr)) :
  Cooc64.cooccurrence_counts (Cooc64.compute_cooccurrence self streams) =
  fold_left add64
    (all_steps (Cooc64.token_to_id self) (Cooc64.window_size self) streams)
    (Cooc64.cooccurrence_counts self).
Proof.
  unfold Cooc64.compute_cooccurrence, all_steps.
  cbn [Cooc64.cooccurrence_counts].
  rewrite fold_left_flat_map.
  generalize (Cooc64.cooccurrence_counts self) as t.
  apply fold_left_ext_in. intros t s _.
  now rewrite window64_fold, window_steps_spec, to_ids_filtered.
Qed.

(* ================================================================== *)
(** * The window of size one *)
(* ================================================================== *)

Lemma range_one (x : Z) : Cooc.range x (x + 1) = [x].
Proof.
  unfold Cooc.range. replace (Z.to_nat (x + 1 - x)) with 1 by lia.
  simpl. f_equal. lia.
Qed.
















(* ================================================================== *)
(** * Frequencies through the learning loop *)
(* ================================================================== *)

Lemma forallb_scan (P : ascii -> bool) (lit : pystr) (tpl : list Re.titem) :
  forallb P (Re.expand tpl lit) = true ->
  forall w prev k,
    forallb P w = true -> forallb P (Re.sub_scan lit tpl prev k w) = true.
Proof.
  intros Hnew. induction w as [|c w IH]; intros prev k Hw; [reflexivity|].
  simpl in Hw. apply andb_true_iff in Hw as [Hc Hw].
  destruct k as [|k]; cbn [Re.sub_scan]; [|now apply IH].
  destruct (Re.match_here lit prev (c :: w)).
  - rewrite forallb_app, Hnew. now apply IH.
  - simpl. rewrite Hc. now apply IH.
Qed.

Lemma forallb_split_from (P : ascii -> bool) (w : pystr) :
  forall cur,
    forallb P cur = true -> forallb P w = true ->
    forall t, In t (split_from cur w) -> forallb P t = true.
Proof.
  induction w as [|c w IH]; intros cur Hcur Hw t Ht; simpl in Ht.
  - destruct cur; [contradiction|]. destruct Ht as [<-|[]]. assumption.
  - simpl in Hw. apply andb_true_iff in Hw as [Hc Hw].
    destruct (isspace c).
    + destruct cur as [|x cur'].
      * now apply (IH [] eq_refl Hw).
      * destruct Ht as [<-|Ht]; [assumption|]. now apply (IH [] eq_refl Hw).
    + apply (IH (cur ++ [c])); auto.
      rewrite forallb_app, Hcur. simpl. now rewrite Hc.
Qed.

Lemma split_from_tokens_wsfree (w : pystr) :
  forall cur,
    wsfree cur = true ->
    forall t, In t (split_from cur w) -> wsfree t = true.
Proof.
  induction w as [|c w IH]; intros cur Hcur t Ht; simpl in Ht.
  - destruct cur; [contradiction|]. destruct Ht as [<-|[]]. assumption.
  - destruct (isspace c) eqn:E.
    + destruct cur as [|x cur'].
      * now apply (IH [] eq_refl).
      * destruct Ht as [<-|Ht]; [assumption|]. now apply (IH [] eq_refl).
    + apply (IH (cur ++ [c])); auto.
      rewrite wsfree_app, Hcur. simpl. now rewrite E.
Qed.

Lemma adjacent_in (l : list pystr) (p : pair) :
  In p (adjacent l) -> In (fst p) l /\ In (snd p) l.
Proof.
  induction l as [|a [|b r] IH]; simpl; try contradiction.
  intros [<-|H]; simpl; [tauto|].
  apply IH in H. simpl in H. tauto.
Qed.

Lemma keys_bump (s : stats_t) (p q : pair) (f : Z) :
  In q (Dict.keys (bump s p f)) -> q = p \/ In q (Dict.keys s).
Proof.
  unfold bump. rewrite (@keys_set _ _ pair_eqb).
  destruct (Dict.mem pair_eqb s p); [tauto|].
  intros H. apply in_app_or in H as [H|[<-|[]]]; tauto.
Qed.

Lemma keys_bump_all (l : list pair) (f : Z) (q : pair) :
  forall s,
    In q (Dict.keys (fold_left (fun s p => bump s p f) l s)) ->
    In q l \/ In q (Dict.keys s).
Proof.
  induction l as [|p l IH]; intros s H; simpl in *; [tauto|].
  apply IH in H as [H|H]; [tauto|].
  apply keys_bump in H. intuition.
Qed.

(** Every pair of the statistics is a pair of adjacent tokens of some
    entry. *)
Lemma keys_get_stats (v : vocab_t) (q : pair) :
  In q (Dict.keys (get_stats v)) ->
  exists e, In e v /\ In q (adjacent (split (fst e))).
Proof.
  unfold get_stats.
  assert (H : forall s,
             In q (Dict.keys
                     (fold_left
                        (fun pairs (entry : pystr * Z) =>
                           let (word, freq) := entry in
                           let symbols := split word in
                           fold_left (fun pairs p => bump pairs p freq)
                                     (adjacent symbols) pairs) v s)) ->
             (exists e, In e v /\ In q (adjacent (split (fst e)))) \/
             In q (Dict.keys s)).
  { induction v as [|[w f] v IH]; intros s Hq; simpl in Hq; [tauto|].
    apply IH in Hq as [(e & He & Hq)|Hq].
    - left. exists e. split; [now right|assumption].
    - apply keys_bump_all in Hq as [Hq|Hq]; [|tauto].
      left. exists (w, f). split; [now left|assumption]. }
  intros Hq. apply H in Hq as [Hq|[]]. assumption.
Qed.

(** The pair selected from a clean vocabulary holds no backslash. *)
Lemma selected_pair_plain (v : vocab_t) (p : pair) :
  clean v -> max_key (get_stats v) = Some p -> plain_pair p = true.
Proof.
  intros [_ Hb] Hmax.
  apply max_key_first_max, first_max_in, keys_get_stats in Hmax
    as ([w f] & He & Hp).
  apply adjacent_in in Hp as [HL HR].
  rewrite forallb_forall in Hb. specialize (Hb _ He). simpl in Hb, HL, HR.
  unfold plain_pair. apply andb_true_iff. unfold no_backslash.
  split.
  - apply (@forallb_split_from _ w [] eq_refl Hb _ HL).
  - apply (@forallb_split_from _ w [] eq_refl Hb _ HR).
Qed.

(** On a clean vocabulary a merge rewrites every entry in place. *)
Lemma merge_vocab_clean (p : pair) (v : vocab_t) :
  plain_pair p = true -> clean v ->
  merge_vocab p v
  = Some (map (fun e : pystr * Z => (plain_scan p (fst e), snd e)) v).
Proof.
  intros Hp [Hnd _]. unfold merge_vocab.
  set (f := fun e : pystr * Z => (plain_scan p (fst e), snd e)).
  assert (Hkeys : NoDup (Dict.keys (map f v))).
  { unfold Dict.keys. rewrite map_map.
    apply NoDup_map_inv with (f := nows). rewrite map_map.
    erewrite map_ext; [exact Hnd|].
    intros e. unfold f, plain_scan. simpl.
    rewrite nows_scan; [reflexivity|apply bigram_nonempty|].
    rewrite expand_plain. apply nows_bigram. }
  change (Some (map f v)) with (Some ([] ++ map f v)).
  change (Dict.keys (map f v)) with (Dict.keys ([] ++ map f v)) in Hkeys.
  generalize dependent (@nil (pystr * Z)).
  induction v as [|[w fr] v IH]; intros acc Hacc; simpl.
  - now rewrite app_nil_r.
  - rewrite merge_word_plain by assumption. fold (plain_scan p w).
    rewrite (@set_fresh _ _ Py.eqb str_eqb_eq).
    + rewrite IH.
      * now rewrite <- app_assoc.
      * clear - Hnd. simpl in Hnd. now inversion Hnd.
      * now rewrite <- app_assoc.
    + unfold Dict.keys in Hacc. rewrite map_app in Hacc. simpl in Hacc.
      apply NoDup_remove_2 in Hacc. intros Hin. apply Hacc.
      apply in_or_app. now left.
Qed.

Lemma merge_vocab_keeps_clean (p : pair) (v : vocab_t) :
  plain_pair p = true -> clean v ->
  clean (map (fun e : pystr * Z => (plain_scan p (fst e), snd e)) v).
Proof.
  intros Hp [Hnd Hb]. split.
  - rewrite map_map. erewrite map_ext; [exact Hnd|].
    intros e. unfold plain_scan. simpl.
    rewrite nows_scan; [reflexivity|apply bigram_nonempty|].
    rewrite expand_plain. apply nows_bigram.
  - rewrite forallb_forall in *. intros e He.
    apply in_map_iff in He as (e0 & <- & He0). simpl.
    unfold plain_scan, no_backslash. apply forallb_scan.
    + rewrite expand_plain. unfold merged.
      fold (no_backslash (fst p ++ snd p)). now rewrite no_backslash_app.
    + apply (Hb _ He0).
Qed.

Lemma reachable_clean (v0 v : vocab_t) :
  clean v0 -> reachable v0 v -> clean v.
Proof.
  intros H0 Hr. induction Hr as [|v v' p Hr IH Hstep]; [assumption|].
  apply learn_step_merged in Hstep as [Hmax Hmerge].
  pose proof (@selected_pair_plain v p IH Hmax) as Hp.
  rewrite (@merge_vocab_clean p v Hp IH) in Hmerge. injection Hmerge as <-.
  now apply merge_vocab_keeps_clean.
Qed.

(** From a clean vocabulary, the merge of every iteration returns, and
    the state it produces holds the same frequencies, entry by entry,
    hence the same total. *)
Lemma merge_keeps_frequencies (v0 v : vocab_t) (p : pair) :
  clean v0 -> reachable v0 v ->
  max_key (get_stats v) = Some p ->
  exists v',
    merge_vocab p v = Some v' /\
    learn_step v = Merged p v' /\
    Dict.values v' = Dict.values v /\
    total v' = total v.
Proof.
  intros H0 Hr Hmax.
  pose proof (@reachable_clean v0 v H0 Hr) as Hc.
  pose proof (@selected_pair_plain v p Hc Hmax) as Hp.
  pose proof (@merge_vocab_clean p v Hp Hc) as Hm.
  eexists. split; [exact Hm|].
  assert (Hv : Dict.values
                 (map (fun e : pystr * Z => (plain_scan p (fst e), snd e)) v)
               = Dict.values v).
  { unfold Dict.values. rewrite map_map. reflexivity. }
  split; [|split].
  - unfold learn_step. now rewrite Hmax, Hm.
  - exact Hv.
  - unfold total. now rewrite Hv.
Qed.

(** ** The initial vocabularies are clean *)

Lemma framed_vocab_clean (frame : pystr -> pystr) (good : pystr -> Prop)
      (seqs : list pystr) :
  (forall s1 s2, good s1 -> good s2 ->
                 nows (frame s1) = nows (frame s2) -> s1 = s2) ->
  (forall s, good s -> no_backslash (frame s) = true) ->
  Forall good seqs ->
  clean (framed_vocab frame seqs).
Proof.
  intros Hinj Hplain Hgood. unfold framed_vocab.
  assert (H : forall acc : vocab_t,
             NoDup (Dict.keys acc) ->
             (forall k, In k (Dict.keys acc) ->
                        exists s, good s /\ k = frame s) ->
             let v := fold_left
                        (fun vocab s =>
                           Dict.set Py.eqb vocab (frame s)
                             (Dict.get_default Py.eqb vocab (frame s) 0 + 1)%Z)
                        seqs acc in
             NoDup (Dict.keys v) /\
             (forall k, In k (Dict.keys v) -> exists s, good s /\ k = frame s)).
  { induction Hgood as [|s seqs Hs Hrest IH]; intros acc Hnd Hk; simpl.
    - auto.
    - apply IH.
      + now apply (@nodup_keys_set _ _ Py.eqb str_eqb_eq).
      + intros k. rewrite (@keys_set _ _ Py.eqb).
        destruct (Dict.mem Py.eqb acc (frame s)); [apply Hk|].
        intros Hin. apply in_app_or in Hin as [Hin|[<-|[]]]; eauto. }
  destruct (H [] (NoDup_nil _) (fun k (F : In k []) => match F with end))
    as [Hnd Hk].
  cbv zeta in Hnd, Hk. split.
  - rewrite <- (map_map fst nows).
    apply NoDup_map_NoDup_ForallPairs; [|exact Hnd].
    intros k1 k2 H1 H2 E.
    destruct (Hk _ H1) as (s1 & G1 & ->), (Hk _ H2) as (s2 & G2 & ->).
    f_equal. now apply Hinj.
  - apply forallb_forall. intros e He.
    destruct (Hk (fst e)) as (s & G & ->); [now apply in_map|].
    now apply Hplain.
Qed.

Lemma no_backslash_join (l : list pystr) :
  forallb no_backslash l = true ->
  no_backslash (join [" "%char] l) = true.
Proof.
  induction l as [|a r IH]; intros H; [reflexivity|].
  simpl in H. apply andb_true_iff in H as [Ha Hr].
  rewrite join_cons, no_backslash_app, Ha. simpl.
  destruct r; [reflexivity|]. now apply IH.
Qed.

Lemma no_backslash_chars (s : pystr) :
  no_backslash s = true -> forallb no_backslash (chars s) = true.
Proof.
  unfold chars, no_backslash. rewrite !forallb_forall. intros H t Ht.
  apply in_map_iff in Ht as (c & <- & Hc). simpl. now rewrite (H c Hc).
Qed.

Lemma prepare_sequences_clean (sequences : list pystr) :
  forallb wsfree sequences = true ->
  forallb no_backslash sequences = true ->
  clean (BPEProcessor.prepare_sequences sequences).
Proof.
  intros Hw Hb.
  apply (@framed_vocab_clean BPEProcessor.spaced
           (fun s => wsfree s = true /\ no_backslash s = true)).
  - intros s1 s2 [W1 _] [W2 _] E.
    rewrite !nows_spaced in E by assumption.
    apply app_inv_head in E. now apply app_inv_tail in E.
  - intros s [_ B]. unfold BPEProcessor.spaced.
    rewrite !no_backslash_app, no_backslash_join
      by now apply no_backslash_chars.
    reflexivity.
  - apply Forall_forall. intros s Hs.
    rewrite forallb_forall in Hw, Hb. auto.
Qed.

Lemma initial_vocab_clean (corpus_text : pystr) :
  no_backslash corpus_text = true ->
  clean (StandardBPE.initial_vocab corpus_text).
Proof.
  intros Hb.
  apply (@framed_vocab_clean
           (fun word => join [" "%char] (StandardBPE.get_word_tokens word))
           (fun s => wsfree s = true /\ no_backslash s = true)).
  - intros s1 s2 [W1 _] [W2 _] E.
    rewrite !nows_word_tokens in E by assumption.
    now apply app_inv_tail in E.
  - intros s [W B]. unfold StandardBPE.get_word_tokens.
    apply no_backslash_join. rewrite forallb_app.
    now rewrite no_backslash_chars.
  - apply Forall_forall. intros s Hs. unfold split in Hs. split.
    + apply (@split_from_tokens_wsfree corpus_text [] eq_refl _ Hs).
    + apply (@forallb_split_from _ corpus_text [] eq_refl Hb _ Hs).
Qed.

(** From a clean vocabulary the learning loop never raises. *)
Lemma learn_loop_returns (n : nat) :
  forall v codes,
    clean v -> exists r, learn_loop n v codes = Some r.
Proof.
  induction n as [|n IH]; intros v codes Hc; simpl; [eauto|].
  unfold learn_step.
  destruct (max_key (get_stats v)) as [p|] eqn:Hmax; [|eauto].
  pose proof (@selected_pair_plain v p Hc Hmax) as Hp.
  rewrite (@merge_vocab_clean p v Hp Hc).
  apply IH. now apply merge_vocab_keeps_clean.
Qed.

(* ================================================================== *)
(** * The claims *)
(* ================================================================== *)

(** C1 (defect of the code).  The claim: every merge is an exact
    adjacency splice on the token list, for every pair of
    white-space-free symbols.  The substitution does find exactly the
    adjacent occurrences ([merge_word_tokens]) and is the splice when
    the symbols hold no backslash ([merge_word_splice],
    [merge_word_split]); but the text
    it writes is the template expansion of [L + R], not [L + R].
    Here: the pair of two backslashes on the tokens [<s> \ \ </s>].
    The code writes one backslash where the splice writes the token of
    two, and a pair such as [(\, A)] makes [sub] raise. *)
Theorem C1_backslash_pair_is_not_spliced :
  forallb is_token [s_open; bs; bs; s_close] = true /\
  merge_word (bs, bs) (join [" "%char] [s_open; bs; bs; s_close])
    = Some (join [" "%char] [s_open; bs; s_close]) /\
  merge_vocab (bs, bs) [(join [" "%char] [s_open; bs; bs; s_close], 1%Z)]
    = Some [(join [" "%char] [s_open; bs; s_close], 1%Z)] /\
  splice (bs, bs) [s_open; bs; bs; s_close] = [s_open; bs ++ bs; s_close] /\
  option_map split
             (merge_word (bs, bs) (join [" "%char] [s_open; bs; bs; s_close]))
    <> Some (splice (bs, bs)
                    (split (join [" "%char] [s_open; bs; bs; s_close]))) /\
  merge_word (bs, A) (join [" "%char] [s_open; bs; A; s_close]) = None.
Proof. vm_compute. repeat split. discriminate. Qed.

(** C2.  For every window size (in particular [w >= 1]), every id
    mapping and every list of streams, the table of a fresh object
    after [compute_cooccurrence] holds exactly the keys that a step
    reaches, without a duplicate, where the steps are: for every
    stream, in order, filtered to the ids of its in-vocabulary tokens,
    and every ordered pair of positions [(i, j)] with [i <> j] and
    [|i - j| <= w], the key [(min, max)] of the two ids.  The weight of
    a key is what the additions of [1 / |i - j|] leave in the table:
    starting from [0.0], the binary64 quotients [1.0 / |i - j|] of its
    steps, added one after the other in binary64. *)
Theorem C2_compute_cooccurrence_windowed_sum
        (w mc : Z) (m : Dict.dict pystr Z) (i2t : Dict.dict Z pystr)
        (tc : Dict.dict pystr Z) (vs : Z)
        (streams : list (list pystr)) (k : Cooc.key) :
  let self := Cooc64.mk w mc m i2t tc [] vs in
  let tbl :=
    Cooc64.cooccurrence_counts (Cooc64.compute_cooccurrence self streams) in
  let cs := all_steps m w streams in
  NoDup (Dict.keys tbl) /\
  match Dict.get Cooc.key_eqb tbl k with
  | Some v => reached cs k = true /\ v = sum64 PrimFloat.zero (weights_of cs k)
  | None => reached cs k = false
  end.
Proof.
  intros self tbl cs. subst tbl. rewrite compute_cooccurrence64_fold.
  cbn [Cooc64.cooccurrence_counts Cooc64.token_to_id Cooc64.window_size self].
  fold cs. split.
  - apply accumulate64_nodup. constructor.
  - pose proof (accumulate64_get cs [] k) as H.
    destruct (Dict.get Cooc.key_eqb (fold_left add64 cs []) k) as [v|].
    + destruct H as [[H|H] Hv]; [now contradiction H|].
      split; [assumption|exact Hv].
    + tauto.
Qed.



(** C4, as the claim states it, fails.  The corpora "AB BA" and "BA AB"
    give the same pair statistics as a mapping (every pair has
    frequency 1), yet the learner selects (A,B) for the first and (B,A)
    for the second: the choice follows the insertion order.  In the
    first, (A,</w>) ties and is smaller in the lexicographic order,
    (B,A) ties and is larger. *)
Lemma C4_tie_break_counterexample :
  same_mapping (get_stats (StandardBPE.initial_vocab (str "AB BA")))
               (get_stats (StandardBPE.initial_vocab (str "BA AB"))) = true /\
  max_key (get_stats (StandardBPE.initial_vocab (str "AB BA"))) = Some (A, B) /\
  max_key (get_stats (StandardBPE.initial_vocab (str "BA AB"))) = Some (B, A) /\
  Dict.get pair_eqb (get_stats (StandardBPE.initial_vocab (str "AB BA")))
           (A, w_close) = Some 1%Z /\
  Dict.get pair_eqb (get_stats (StandardBPE.initial_vocab (str "AB BA")))
           (A, B) = Some 1%Z /\
  Dict.get pair_eqb (get_stats (StandardBPE.initial_vocab (str "AB BA")))
           (B, A) = Some 1%Z /\
  pair_leb (A, w_close) (A, B) = true /\ pair_leb (A, B) (A, w_close) = false /\
  pair_leb (A, B) (B, A) = true /\ pair_leb (B, A) (A, B) = false.
Proof. vm_compute. repeat split. Qed.

(** C4 (amended).  At every iteration of [learn_bpe], in both classes,
    the rule appended is a pair of maximum aggregate frequency in the
    statistics of the current vocabulary, and among the pairs that tie
    for the maximum it is the one inserted first into the statistics
    (the first met when the entries are scanned in order, each from
    left to right). *)
Theorem C4_learned_rules_are_first_maxima :
  (forall (m : Z) (sequences : list pystr) (o : BPEProcessor.t),
      BPEProcessor.learn_bpe (BPEProcessor.init m) sequences = Some o ->
      greedy_from (BPEProcessor.prepare_sequences sequences)
                  (BPEProcessor.bpe_codes o)) /\
  (forall (m : Z) (corpus_text : pystr) (o : StandardBPE.t),
      StandardBPE.learn_bpe (StandardBPE.init m) corpus_text = Some o ->
      greedy_from (StandardBPE.initial_vocab corpus_text)
                  (StandardBPE.bpe_codes o)).
Proof.
  split.
  - intros m sequences o. unfold BPEProcessor.learn_bpe.
    destruct (learn_loop _ _ _) as [[v codes]|] eqn:E; [|discriminate].
    intros [= <-]. apply learn_loop_greedy in E as (new & -> & Hg).
    assumption.
  - intros m corpus_text o. unfold StandardBPE.learn_bpe.
    destruct (learn_loop _ _ _) as [[v codes]|] eqn:E; [|discriminate].
    intros [= <-]. apply learn_loop_greedy in E as (new & -> & Hg).
    assumption.
Qed.

(** Witness of C4: the rules learned from ["AA","AB"] with one merge
    and from "AAAA" with two merges. *)
Lemma C4_learned_rules_are_first_maxima_witness :
  greedy_from (BPEProcessor.prepare_sequences [str "AA"; str "AB"])
              (BPEProcessor.bpe_codes learned_processor) /\
  greedy_from (StandardBPE.initial_vocab (str "AAAA"))
              (StandardBPE.bpe_codes learned_standard).
Proof.
  split.
  - apply (proj1 C4_learned_rules_are_first_maxima 1%Z).
    vm_compute. reflexivity.
  - apply (proj2 C4_learned_rules_are_first_maxima 2%Z).
    vm_compute. reflexivity.
Defined.

(** C5 (defect of the code).  The claim: the merge of an iteration
    keeps every entry's frequency and the total frequency mass.  It
    holds for a corpus of white-space-free sequences without backslash
    ([merge_keeps_frequencies], from the initial vocabularies of
    [prepare_sequences_clean] and [initial_vocab_clean]; the loop then
    never raises, [learn_loop_returns]).  Here: the corpus of four backslashes
    and three backslashes.  The first iteration selects the pair of
    two backslashes (frequency 5), the template of two backslashes
    writes a single one, both entries become [<s> \ \ </s>], the second
    assignment overwrites the first, and the total mass falls from 2
    to 1. *)
Theorem C5_backslash_merge_loses_an_entry :
  BPEProcessor.prepare_sequences [bs4; bs3]
    = [(join [" "%char] [s_open; bs; bs; bs; bs; s_close], 1%Z);
       (join [" "%char] [s_open; bs; bs; bs; s_close], 1%Z)] /\
  Dict.get pair_eqb (get_stats (BPEProcessor.prepare_sequences [bs4; bs3]))
           (bs, bs) = Some 5%Z /\
  learn_step (BPEProcessor.prepare_sequences [bs4; bs3])
    = Merged (bs, bs) [(join [" "%char] [s_open; bs; bs; s_close], 1%Z)] /\
  total (BPEProcessor.prepare_sequences [bs4; bs3]) = 2%Z /\
  total [(join [" "%char] [s_open; bs; bs; s_close], 1%Z)] = 1%Z.
Proof. vm_compute. repeat split. Qed.

(** C6, as the claim states it, fails: merging (A,A) does not rewrite
    the entry to 'AA A </w>'. *)
Lemma C6_merge_counterexample :
  merge_vocab (A, A) (StandardBPE.initial_vocab (str "AAAA"))
  <> Some [(str "AA A </w>", 1%Z)].
Proof. vm_compute. discriminate. Qed.

(** C6 (amended).  On corpus "AAAA" with two merges and the end marker
    </w>, the initial vocabulary is the single entry 'A A A A </w>'
    with frequency 1; in iteration 1 the pair (A,A) has aggregate
    frequency 3, every other pair has less, and merging it rewrites the
    entry to 'AA AA </w>': the two non-overlapping occurrences are
    both replaced. *)
Theorem C6_first_iteration_on_AAAA :
  StandardBPE.initial_vocab (str "AAAA") = [(str "A A A A </w>", 1%Z)] /\
  Dict.get pair_eqb (get_stats (StandardBPE.initial_vocab (str "AAAA"))) (A, A)
    = Some 3%Z /\
  forallb (fun e : pair * Z => pair_eqb (fst e) (A, A) || (snd e <? 3)%Z)
          (get_stats (StandardBPE.initial_vocab (str "AAAA"))) = true /\
  learn_step (StandardBPE.initial_vocab (str "AAAA"))
    = Merged (A, A) [(str "AA AA </w>", 1%Z)] /\
  option_map StandardBPE.bpe_codes
             (StandardBPE.learn_bpe (StandardBPE.init 2) (str "AAAA"))
    = Some [(A, A); (str "AA", str "AA")].
Proof. vm_compute. repeat split. Qed.



(** C8 (defect of the code).  The claim: the concatenation of the
    tokens of [apply_bpe] is the framed input, for any rules.  It
    holds, and [apply_bpe] returns, for all rules without backslash
    ([apply_bpe_reconstructs], [standard_apply_bpe_reconstructs]).
    Here: the rule learned from the corpus of three backslashes is the
    pair of two backslashes; applied to the same sequence it returns
    [<s> \ \ </s>], whose concatenation has lost a character. *)
Theorem C8_backslash_rule_breaks_reconstruction :
  wsfree bs3 = true /\
  option_map BPEProcessor.bpe_codes
             (BPEProcessor.learn_bpe (BPEProcessor.init 1) [bs3])
    = Some [(bs, bs)] /\
  BPEProcessor.apply_bpe (BPEProcessor.mk 1 [(bs, bs)] []) bs3
    = Some [s_open; bs; bs; s_close] /\
  Py.concat [s_open; bs; bs; s_close] <> s_open ++ bs3 ++ s_close.
Proof. vm_compute. repeat split. discriminate. Qed.

(** C9 (defect of the code).  The claim: one more rule never adds a
    token.  It holds, and [apply_bpe] returns, for all rules without
    backslash ([apply_bpe_prefix_count],
    [standard_apply_bpe_prefix_count]).  Here: [learn_bpe] with eight
    merges on the corpus [\134g<0>\134g<0>\134g<0>], [134g<0>] learns
    [octal_rules].  On the first sequence the first seven rules give
    [<s> \g<0> \g<0> \g<0> </s>], five tokens; the eighth rule merges
    two tokens [\g<0>], its template [\g<0>\g<0>] writes the whole match
    twice, and the result [<s> \g<0> \g<0>\g<0> \g<0> \g<0> </s>] has
    six tokens. *)
Theorem C9_template_rule_adds_a_token :
  option_map BPEProcessor.bpe_codes
             (BPEProcessor.learn_bpe (BPEProcessor.init 8) octal_corpus)
    = Some octal_rules /\
  BPEProcessor.apply_bpe (BPEProcessor.mk 8 (firstn 7 octal_rules) [])
                         octal_seq
    = Some [s_open; group0; group0; group0; s_close] /\
  BPEProcessor.apply_bpe (BPEProcessor.mk 8 (firstn 8 octal_rules) [])
                         octal_seq
    = Some [s_open; group0; group0 ++ group0; group0; group0; s_close] /\
  StandardBPE.apply_bpe (StandardBPE.mk 8 (firstn 7 octal_rules) [])
                        octal_seq
    = Some [group0; group0; group0; w_close] /\
  StandardBPE.apply_bpe (StandardBPE.mk 8 (firstn 8 octal_rules) [])
                        octal_seq
    = Some [group0; group0 ++ group0; group0; group0; w_close].
Proof. vm_compute. repeat split. Qed.

(** C10.  For the corpus ["AA","AB"] and one merge, the pair
    ('<s>','A') has frequency 2 and every other pair has less; it is
    the rule learned, its left symbol is the start sentinel, and
    [apply_bpe("AA")] returns ['<s>A', 'A', '</s>']: the sentinel is
    fused with a character of the sequence. *)
Theorem C10_sentinel_is_merged_into_a_token :
  Dict.get pair_eqb
           (get_stats (BPEProcessor.prepare_sequences [str "AA"; str "AB"]))
           (s_open, A) = Some 2%Z /\
  forallb (fun e : pair * Z => pair_eqb (fst e) (s_open, A) || (snd e <? 2)%Z)
          (get_stats (BPEProcessor.prepare_sequences [str "AA"; str "AB"]))
    = true /\
  BPEProcessor.learn_bpe (BPEProcessor.init 1) [str "AA"; str "AB"]
    = Some learned_processor /\
  BPEProcessor.bpe_codes learned_processor = [(s_open, A)] /\
  BPEProcessor.apply_bpe learned_processor (str "AA")
    = Some [str "<s>A"; A; s_close].
Proof. vm_compute. repeat split. Qed.

(* ================================================================== *)
(** * Stripping *)
(* ================================================================== *)

Lemma lstrip_starts_clean (w : pystr) : starts_clean (lstrip w) = true.
Proof.
  induction w as [|c w IH]; simpl; [reflexivity|].
  destruct (isspace c) eqn:E; [exact IH|]. simpl. now rewrite E.
Qed.

Lemma lstrip_decompose (w : pystr) :
  exists ws, w = ws ++ lstrip w /\ forallb isspace ws = true.
Proof.
  induction w as [|c w IH]; simpl.
  - now exists [].
  - destruct (isspace c) eqn:E.
    + destruct IH as [ws [H1 H2]]. exists (c :: ws). simpl.
      rewrite E, H2. split; [now rewrite <- H1|reflexivity].
    + now exists [].
Qed.

Lemma lstrip_clean (w : pystr) : starts_clean w = true -> lstrip w = w.
Proof.
  destruct w as [|c w]; simpl; [reflexivity|].
  now destruct (isspace c).
Qed.

Lemma rstrip_decompose (w : pystr) :
  exists ws, w = rstrip w ++ ws /\ forallb isspace ws = true.
Proof.
  unfold rstrip. destruct (lstrip_decompose (rev w)) as [ws [H1 H2]].
  exists (rev ws). split.
  - rewrite <- rev_app_distr, <- H1. now rewrite rev_involutive.
  - rewrite forallb_forall in *. intros x Hx. apply H2. now apply in_rev.
Qed.

Lemma starts_clean_prefix (a b : pystr) :
  starts_clean (a ++ b) = true -> starts_clean a = true.
Proof. now destruct a. Qed.

Lemma strip_trimmed (w : pystr) : trimmed (strip w) = true.
Proof.
  unfold trimmed, strip. apply andb_true_iff. split.
  - destruct (rstrip_decompose (lstrip w)) as [ws [H1 _]].
    apply starts_clean_prefix with (b := ws). rewrite <- H1.
    apply lstrip_starts_clean.
  - unfold rstrip. rewrite rev_involutive. apply lstrip_starts_clean.
Qed.

Lemma trimmed_strip (s : pystr) : trimmed s = true -> strip s = s.
Proof.
  unfold trimmed, strip, rstrip. intros H.
  apply andb_true_iff in H. destruct H as [H1 H2].
  rewrite (lstrip_clean _ H1), (lstrip_clean _ H2).
  apply rev_involutive.
Qed.

Lemma starts_clean_app (a b : pystr) :
  starts_clean a = true -> starts_clean b = true ->
  starts_clean (a ++ b) = true.
Proof. now destruct a. Qed.

Lemma trimmed_app (a b : pystr) :
  trimmed a = true -> trimmed b = true -> trimmed (a ++ b) = true.
Proof.
  unfold trimmed. intros Ha Hb.
  apply andb_true_iff in Ha. apply andb_true_iff in Hb.
  destruct Ha as [Ha1 Ha2], Hb as [Hb1 Hb2].
  apply andb_true_iff. split.
  - now apply starts_clean_app.
  - rewrite rev_app_distr. now apply starts_clean_app.
Qed.

Lemma split_from_spaces (ws : pystr) :
  forallb isspace ws = true ->
  forall cur w, split_from cur (w ++ ws) = split_from cur w.
Proof.
  intros Hws cur w. revert cur.
  induction w as [|c w IH]; intros cur; simpl.
  - revert cur. induction ws as [|x ws IHws]; intros cur; [reflexivity|].
    simpl in Hws. apply andb_true_iff in Hws. destruct Hws as [Hx Hws].
    simpl. rewrite Hx. destruct cur.
    + now apply IHws.
    + now rewrite (IHws Hws []).
  - destruct (isspace c); [destruct cur|]; now rewrite ?IH.
Qed.

Lemma split_from_leading (ws : pystr) :
  forallb isspace ws = true ->
  forall w, split_from [] (ws ++ w) = split_from [] w.
Proof.
  intros Hws w. induction ws as [|x ws IH]; [reflexivity|].
  simpl in Hws. apply andb_true_iff in Hws. destruct Hws as [Hx Hws].
  simpl. rewrite Hx. now apply IH.
Qed.

Lemma split_strip (w : pystr) : split (strip w) = split w.
Proof.
  unfold split, strip.
  destruct (lstrip_decompose w) as [ws1 [H1 H2]].
  destruct (rstrip_decompose (lstrip w)) as [ws2 [H3 H4]].
  rewrite H1 at 2. rewrite (split_from_leading _ H2).
  rewrite H3 at 2. now rewrite (split_from_spaces _ H4).
Qed.

(* ================================================================== *)
(** * Reading a FASTA file *)
(* ================================================================== *)

Lemma flush_invariant (st : BPEProcessor.fasta) :
  length (BPEProcessor.headers st) = length (BPEProcessor.sequences st) ->
  Forall (fun s => s <> [] /\ trimmed s = true) (BPEProcessor.sequences st) ->
  trimmed (BPEProcessor.current_seq st) = true ->
  length (BPEProcessor.headers (BPEProcessor.flush st)) =
  length (BPEProcessor.sequences (BPEProcessor.flush st)) /\
  Forall (fun s => s <> [] /\ trimmed s = true)
         (BPEProcessor.sequences (BPEProcessor.flush st)).
Proof.
  intros Hl Hs Hc. unfold BPEProcessor.flush.
  destruct (BPEProcessor.current_seq st) as [|c r] eqn:E; [now split|].
  simpl. split.
  - rewrite !length_app, Hl. reflexivity.
  - apply Forall_app. split; [exact Hs|].
    constructor; [|constructor]. split; [discriminate|exact Hc].
Qed.

Lemma read_lines_invariant (lines : list pystr) :
  forall st,
    length (BPEProcessor.headers st) = length (BPEProcessor.sequences st) ->
    Forall (fun s => s <> [] /\ trimmed s = true) (BPEProcessor.sequences st) ->
    trimmed (BPEProcessor.current_seq st) = true ->
    let st' := fold_left BPEProcessor.read_line lines st in
    length (BPEProcessor.headers st') = length (BPEProcessor.sequences st') /\
    Forall (fun s => s <> [] /\ trimmed s = true) (BPEProcessor.sequences st') /\
    trimmed (BPEProcessor.current_seq st') = true.
Proof.
  induction lines as [|l lines IH]; intros st Hl Hs Hc; simpl.
  - now repeat split.
  - assert (H : length (BPEProcessor.headers (BPEProcessor.read_line st l)) =
                length (BPEProcessor.sequences (BPEProcessor.read_line st l)) /\
                Forall (fun s => s <> [] /\ trimmed s = true)
                       (BPEProcessor.sequences (BPEProcessor.read_line st l)) /\
                trimmed (BPEProcessor.current_seq (BPEProcessor.read_line st l))
                = true).
    { unfold BPEProcessor.read_line.
      destruct (startswith ">"%char (strip l)); simpl.
      - destruct (flush_invariant st Hl Hs Hc) as [Hl' Hs']. now repeat split.
      - repeat split; auto.
        apply trimmed_app; [exact Hc|apply strip_trimmed]. }
    destruct H as [H1 [H2 H3]]. now apply IH.
Qed.

Lemma flush_residues (st : BPEProcessor.fasta) :
  List.concat (BPEProcessor.sequences (BPEProcessor.flush st)) =
  List.concat (BPEProcessor.sequences st) ++ BPEProcessor.current_seq st.
Proof.
  unfold BPEProcessor.flush.
  destruct (BPEProcessor.current_seq st) as [|c r] eqn:E.
  - now rewrite app_nil_r.
  - simpl. rewrite concat_app. simpl. now rewrite app_nil_r.
Qed.

Lemma read_lines_residues (lines : list pystr) :
  forall st,
    let st' := fold_left BPEProcessor.read_line lines st in
    List.concat (BPEProcessor.sequences st') ++ BPEProcessor.current_seq st' =
    (List.concat (BPEProcessor.sequences st) ++ BPEProcessor.current_seq st)
      ++ List.concat (residue_lines lines).
Proof.
  induction lines as [|l lines IH]; intros st; simpl.
  - now rewrite app_nil_r.
  - rewrite IH. unfold residue_lines. simpl.
    unfold BPEProcessor.read_line.
    destruct (startswith ">"%char (strip l)); simpl.
    + rewrite flush_residues. now rewrite app_nil_r.
    + now rewrite !app_assoc.
Qed.

(** The loop of [parse_fasta_to_corpus] goes through the same states as
    the loop of [parse_fasta], without the headers. *)
Lemma read_lines_agree (lines : list pystr) :
  forall (st : BPEProcessor.fasta),
    fold_left StandardBPE.read_line lines
              (BPEProcessor.sequences st, BPEProcessor.current_seq st) =
    (BPEProcessor.sequences (fold_left BPEProcessor.read_line lines st),
     BPEProcessor.current_seq (fold_left BPEProcessor.read_line lines st)).
Proof.
  induction lines as [|l lines IH]; intros st; simpl; [reflexivity|].
  rewrite <- IH. f_equal.
  unfold BPEProcessor.read_line, BPEProcessor.flush.
  destruct (startswith ">"%char (strip l));
    destruct (BPEProcessor.current_seq st); reflexivity.
Qed.

Lemma flush_wsfree (st : BPEProcessor.fasta) :
  forallb wsfree (BPEProcessor.sequences st) = true ->
  wsfree (BPEProcessor.current_seq st) = true ->
  forallb wsfree (BPEProcessor.sequences (BPEProcessor.flush st)) = true.
Proof.
  intros Hs Hc. unfold BPEProcessor.flush.
  destruct (BPEProcessor.current_seq st) as [|c r] eqn:E; [exact Hs|].
  cbn [BPEProcessor.sequences]. rewrite forallb_app, Hs.
  cbn [forallb]. now rewrite Hc.
Qed.

Lemma read_lines_wsfree (lines : list pystr) :
  forallb wsfree (residue_lines lines) = true ->
  forall st,
    forallb wsfree (BPEProcessor.sequences st) = true ->
    wsfree (BPEProcessor.current_seq st) = true ->
    let st' := fold_left BPEProcessor.read_line lines st in
    forallb wsfree (BPEProcessor.sequences st') = true /\
    wsfree (BPEProcessor.current_seq st') = true.
Proof.
  induction lines as [|l lines IH]; intros Hl st Hs Hc; simpl.
  - now split.
  - unfold residue_lines in Hl. simpl in Hl.
    assert (H : forallb wsfree (residue_lines lines) = true /\
                forallb wsfree
                        (BPEProcessor.sequences (BPEProcessor.read_line st l))
                = true /\
                wsfree (BPEProcessor.current_seq (BPEProcessor.read_line st l))
                = true).
    { unfold BPEProcessor.read_line.
      destruct (startswith ">"%char (strip l)); simpl in *.
      - repeat split; auto. now apply flush_wsfree.
      - apply andb_true_iff in Hl. destruct Hl as [Hl1 Hl2].
        repeat split; auto. rewrite wsfree_app, Hc. exact Hl1. }
    destruct H as [H1 [H2 H3]]. now apply IH.
Qed.

Lemma parse_fasta_state (lines : list pystr) :
  BPEProcessor.parse_fasta lines =
  (BPEProcessor.headers
     (BPEProcessor.flush
        (fold_left BPEProcessor.read_line lines
                   (BPEProcessor.mk_fasta [] [] [] []))),
   BPEProcessor.sequences
     (BPEProcessor.flush
        (fold_left BPEProcessor.read_line lines
                   (BPEProcessor.mk_fasta [] [] [] [])))).
Proof. reflexivity. Qed.

Lemma fasta_sequences_state (lines : list pystr) :
  StandardBPE.fasta_sequences lines =
  BPEProcessor.sequences
    (BPEProcessor.flush
       (fold_left BPEProcessor.read_line lines
                  (BPEProcessor.mk_fasta [] [] [] []))).
Proof.
  unfold StandardBPE.fasta_sequences.
  change (fold_left StandardBPE.read_line lines ([], []))
    with (fold_left StandardBPE.read_line lines
            (BPEProcessor.sequences (BPEProcessor.mk_fasta [] [] [] []),
             BPEProcessor.current_seq (BPEProcessor.mk_fasta [] [] [] []))).
  rewrite read_lines_agree.
  unfold BPEProcessor.flush.
  now destruct (BPEProcessor.current_seq _).
Qed.

(* ================================================================== *)
(** * Sorting *)
(* ================================================================== *)

Lemma leb_refl (a : pystr) : Py.leb a a = true.
Proof.
  induction a as [|x a IH]; simpl; [reflexivity|].
  now rewrite Nat.ltb_irrefl.
Qed.

Lemma leb_total (a b : pystr) : Py.leb a b = false -> Py.leb b a = true.
Proof.
  revert b. induction a as [|x a IH]; intros [|y b]; simpl; try easy.
  destruct (nat_of_ascii x <? nat_of_ascii y) eqn:E1; [discriminate|].
  destruct (nat_of_ascii y <? nat_of_ascii x) eqn:E2; [reflexivity|].
  apply IH.
Qed.

Lemma leb_trans (a b c : pystr) :
  Py.leb a b = true -> Py.leb b c = true -> Py.leb a c = true.
Proof.
  revert b c. induction a as [|x a IH]; intros [|y b] [|z c]; simpl; try easy.
  destruct (nat_of_ascii x <? nat_of_ascii y) eqn:E1;
    destruct (nat_of_ascii y <? nat_of_ascii x) eqn:E2;
    destruct (nat_of_ascii y <? nat_of_ascii z) eqn:E3;
    destruct (nat_of_ascii z <? nat_of_ascii y) eqn:E4;
    destruct (nat_of_ascii x <? nat_of_ascii z) eqn:E5;
    destruct (nat_of_ascii z <? nat_of_ascii x) eqn:E6;
    try easy;
    rewrite ?Nat.ltb_lt, ?Nat.ltb_ge in *; try lia.
  apply IH.
Qed.

Lemma leb_antisym (a b : pystr) :
  Py.leb a b = true -> Py.leb b a = true -> a = b.
Proof.
  revert b. induction a as [|x a IH]; intros [|y b]; simpl; try easy.
  destruct (nat_of_ascii x <? nat_of_ascii y) eqn:E1;
    destruct (nat_of_ascii y <? nat_of_ascii x) eqn:E2; try easy.
  - rewrite Nat.ltb_lt in *. lia.
  - intros H1 H2. rewrite Nat.ltb_ge in *.
    assert (nat_of_ascii x = nat_of_ascii y) by lia.
    f_equal; [|now apply IH].
    rewrite <- (ascii_nat_embedding x), <- (ascii_nat_embedding y).
    now f_equal.
Qed.

Lemma insert_sorted_perm (x : pystr) (l : list pystr) :
  Permutation (insert_sorted x l) (x :: l).
Proof.
  induction l as [|y l IH]; simpl; [reflexivity|].
  destruct (Py.leb x y); [reflexivity|].
  rewrite IH. apply perm_swap.
Qed.

Lemma sorted_perm (l : list pystr) : Permutation (sorted l) l.
Proof.
  induction l as [|x l IH]; simpl; [reflexivity|].
  unfold sorted in IH. rewrite insert_sorted_perm. now constructor.
Qed.

Lemma insert_sorted_sorted (x : pystr) (l : list pystr) :
  StronglySorted (fun a b => Py.leb a b = true) l ->
  StronglySorted (fun a b => Py.leb a b = true) (insert_sorted x l).
Proof.
  induction 1 as [|y l Hs IH Hy]; simpl.
  - constructor; constructor.
  - destruct (Py.leb x y) eqn:E.
    + constructor; [now constructor|].
      constructor; [exact E|].
      rewrite Forall_forall in *. intros z Hz.
      apply leb_trans with y; auto.
    + constructor; [exact IH|].
      rewrite Forall_forall in *. intros z Hz.
      apply (Permutation_in _ (insert_sorted_perm x l)) in Hz.
      destruct Hz as [<-|Hz]; [now apply leb_total|now apply Hy].
Qed.

Lemma sorted_sorted (l : list pystr) :
  StronglySorted (fun a b => Py.leb a b = true) (sorted l).
Proof.
  induction l as [|x l IH]; simpl; [constructor|].
  now apply insert_sorted_sorted.
Qed.

(** A sorted list without duplicates is the only one with its
    elements. *)
Lemma sorted_unique (l1 l2 : list pystr) :
  StronglySorted (fun a b => Py.leb a b = true) l1 ->
  StronglySorted (fun a b => Py.leb a b = true) l2 ->
  NoDup l1 -> NoDup l2 ->
  (forall t, In t l1 <-> In t l2) -> l1 = l2.
Proof.
  intros H1. revert l2.
  induction H1 as [|x l1 Hs1 IH Hx]; intros l2 H2 N1 N2 Hin.
  - destruct l2 as [|y l2]; [reflexivity|].
    exfalso. apply (proj2 (Hin y)). now left.
  - destruct l2 as [|y l2].
    + exfalso. apply (proj1 (Hin x)). now left.
    + inversion H2 as [|? ? Hs2 Hy]; subst.
      inversion N1 as [|? ? Nx N1']; subst.
      inversion N2 as [|? ? Ny N2']; subst.
      rewrite Forall_forall in Hx, Hy.
      assert (x = y).
      { destruct (proj1 (Hin x) (or_introl eq_refl)) as [E|Hx2]; [now symmetry|].
        destruct (proj2 (Hin y) (or_introl eq_refl)) as [E|Hy1]; [exact E|].
        apply leb_antisym; auto. }
      subst y. f_equal. apply IH; auto.
      intros t. split; intros Ht.
      * destruct (proj1 (Hin t) (or_intror Ht)) as [E|H]; [|exact H].
        subst t. contradiction.
      * destruct (proj2 (Hin t) (or_intror Ht)) as [E|H]; [|exact H].
        subst t. contradiction.
Qed.

(** ** Decreasing order *)

Lemma insert_desc_perm {A : Type} (lt : A -> A -> bool) (x : A) (l : list A) :
  Permutation (insert_desc lt x l) (x :: l).
Proof.
  induction l as [|y l IH]; simpl; [reflexivity|].
  destruct (lt x y); [|reflexivity].
  rewrite IH. apply perm_swap.
Qed.

Lemma sorted_desc_perm {A : Type} (lt : A -> A -> bool) (l : list A) :
  Permutation (sorted_desc lt l) l.
Proof.
  induction l as [|x l IH]; simpl; [reflexivity|].
  unfold sorted_desc in IH. rewrite insert_desc_perm. now constructor.
Qed.

Section Descending.
Variables (A : Type) (lt : A -> A -> bool).
Hypothesis lt_trans_neg :
  forall a b c, lt a b = false -> lt b c = false -> lt a c = false.
Hypothesis lt_asym : forall a b, lt a b = true -> lt b a = false.

Lemma insert_desc_sorted (x : A) (l : list A) :
  StronglySorted (fun a b => lt a b = false) l ->
  StronglySorted (fun a b => lt a b = false) (insert_desc lt x l).
Proof.
  induction 1 as [|y l Hs IH Hy]; simpl.
  - constructor; constructor.
  - destruct (lt x y) eqn:E.
    + constructor; [exact IH|].
      rewrite Forall_forall in *. intros z Hz.
      apply (Permutation_in _ (insert_desc_perm lt x l)) in Hz.
      destruct Hz as [<-|Hz]; [now apply lt_asym|now apply Hy].
    + constructor; [now constructor|].
      constructor; [exact E|].
      rewrite Forall_forall in *. intros z Hz.
      apply lt_trans_neg with y; auto.
Qed.

Lemma sorted_desc_sorted (l : list A) :
  StronglySorted (fun a b => lt a b = false) (sorted_desc lt l).
Proof.
  induction l as [|x l IH]; simpl; [constructor|].
  now apply insert_desc_sorted.
Qed.
End Descending.

(* ================================================================== *)
(** * Token sets and counters *)
(* ================================================================== *)

Lemma existsb_eqb_in (t : pystr) (l : list pystr) :
  existsb (Py.eqb t) l = true <-> In t l.
Proof.
  rewrite existsb_exists. split.
  - intros [x [Hx E]]. apply str_eqb_eq in E. now subst.
  - intros H. exists t. split; [exact H|apply str_eqb_refl].
Qed.

Lemma add_tokens_spec (new : list pystr) :
  forall seen,
    NoDup seen ->
    NoDup (fold_left add_token new seen) /\
    forall t, In t (fold_left add_token new seen) <-> In t seen \/ In t new.
Proof.
  induction new as [|x new IH]; intros seen Hn; simpl.
  - split; [exact Hn|]. intros t. tauto.
  - assert (Hn' : NoDup (add_token seen x) /\
                  forall t, In t (add_token seen x) <-> In t seen \/ t = x).
    { unfold add_token. destruct (existsb (Py.eqb x) seen) eqn:E.
      - apply existsb_eqb_in in E. split; [exact Hn|].
        intros t. split; [tauto|]. intros [H|H]; [exact H|now subst].
      - split.
        + apply NoDup_app; [exact Hn|repeat constructor; easy|].
          intros a Ha [<-|[]]. apply existsb_eqb_in in Ha. congruence.
        + intros t. rewrite in_app_iff. simpl.
          intuition (subst; auto). }
    destruct Hn' as [Hn' Hin'].
    destruct (IH _ Hn') as [H1 H2]. split; [exact H1|].
    intros t. rewrite H2, Hin'. split; intros H; intuition (subst; auto).
Qed.

Lemma token_set_from (v : vocab_t) :
  forall seen,
    NoDup seen ->
    let r := fold_left (fun seen (entry : pystr * Z) =>
                          fold_left add_token (split (fst entry)) seen)
                       v seen in
    NoDup r /\
    forall t, In t r <->
              In t seen \/ exists e, In e v /\ In t (split (fst e)).
Proof.
  induction v as [|e v IH]; intros seen Hn; simpl.
  - split; [exact Hn|]. intros t. split; [tauto|].
    intros [H|[e [[] _]]]. exact H.
  - destruct (add_tokens_spec (split (fst e)) Hn) as [H1 H2].
    destruct (IH _ H1) as [H3 H4]. split; [exact H3|].
    intros t. rewrite H4, H2. split.
    + intros [[H|H]|[e' [He' Ht]]]; eauto.
    + intros [H|[e' [[<-|He'] Ht]]]; eauto.
Qed.

Lemma token_set_spec (v : vocab_t) :
  NoDup (token_set v) /\
  forall t, In t (token_set v) <-> exists e, In e v /\ In t (split (fst e)).
Proof.
  destruct (@token_set_from v [] (NoDup_nil _)) as [H1 H2].
  split; [exact H1|]. intros t. unfold token_set. rewrite H2.
  split; [intros [[]|H]; exact H|now right].
Qed.

(** ** Counters *)

Lemma count_of_cons (t x : pystr) (l : list pystr) :
  count_of t (x :: l) = ((if Py.eqb t x then 1 else 0) + count_of t l)%Z.
Proof.
  unfold count_of. simpl. destruct (Py.eqb t x); cbn [length]; lia.
Qed.

Lemma count_of_nonneg (t : pystr) (l : list pystr) : (0 <= count_of t l)%Z.
Proof. unfold count_of. lia. Qed.

Lemma count_of_pos (t : pystr) (l : list pystr) :
  (0 < count_of t l)%Z <-> In t l.
Proof.
  induction l as [|x l IH]; [unfold count_of; simpl; split; [lia|easy]|].
  rewrite count_of_cons. pose proof (count_of_nonneg t l).
  destruct (Py.eqb t x) eqn:E.
  - apply str_eqb_eq in E. subst. split; [now left|lia].
  - split.
    + intros H1. right. apply IH. lia.
    + intros [->|H1]; [now rewrite str_eqb_refl in E|].
      apply IH in H1. lia.
Qed.

Lemma count_of_app (t : pystr) (l1 l2 : list pystr) :
  count_of t (l1 ++ l2) = (count_of t l1 + count_of t l2)%Z.
Proof.
  unfold count_of. rewrite filter_app, length_app. lia.
Qed.

Lemma tally_get (counts : Dict.dict pystr Z) (x t : pystr) :
  Dict.get Py.eqb (tally counts x) t =
  if Py.eqb t x then Some (Dict.get_default Py.eqb counts x 0 + 1)%Z
  else Dict.get Py.eqb counts t.
Proof.
  unfold tally. destruct (Py.eqb t x) eqn:E.
  - apply str_eqb_eq in E. subst. now apply get_set_same, str_eqb_eq.
  - apply get_set_other; [apply str_eqb_eq|].
    intros ->. now rewrite str_eqb_refl in E.
Qed.

Lemma tally_all_get (tokens : list pystr) (t : pystr) :
  forall counts,
    Dict.get Py.eqb (fold_left tally tokens counts) t =
    if (count_of t tokens =? 0)%Z then Dict.get Py.eqb counts t
    else Some (Dict.get_default Py.eqb counts t 0 + count_of t tokens)%Z.
Proof.
  induction tokens as [|x tokens IH]; intros counts.
  - reflexivity.
  - cbn [fold_left]. rewrite IH, count_of_cons.
    unfold Dict.get_default. rewrite tally_get.
    pose proof (count_of_nonneg t tokens).
    destruct (Py.eqb t x) eqn:E.
    + apply str_eqb_eq in E. subst x.
      destruct (count_of t tokens =? 0)%Z eqn:E0.
      * apply Z.eqb_eq in E0. rewrite E0.
        replace (1 + 0 =? 0)%Z with false by reflexivity.
        apply f_equal; unfold Dict.get_default; lia.
      * apply Z.eqb_neq in E0.
        replace (1 + count_of t tokens =? 0)%Z with false
          by (symmetry; apply Z.eqb_neq; lia).
        apply f_equal; unfold Dict.get_default; lia.
    + rewrite Z.add_0_l. reflexivity.
Qed.

Lemma tally_all_nodup (tokens : list pystr) :
  forall counts,
    NoDup (Dict.keys counts) ->
    NoDup (Dict.keys (fold_left tally tokens counts)).
Proof.
  induction tokens as [|x tokens IH]; intros counts Hn; [exact Hn|].
  cbn [fold_left]. apply IH. unfold tally.
  apply nodup_keys_set; [apply str_eqb_eq|exact Hn].
Qed.

Lemma count_tokens_tally (counts : Dict.dict pystr Z)
      (token_sequences : list (list pystr)) :
  Cooc.count_tokens counts token_sequences =
  fold_left tally (List.concat token_sequences) counts.
Proof.
  unfold Cooc.count_tokens. revert counts.
  induction token_sequences as [|s ss IH]; intros counts; [reflexivity|].
  simpl. rewrite fold_left_app. apply IH.
Qed.

Section Lookup.
Variables (K V : Type) (keq : K -> K -> bool).
Hypothesis keq_eq : forall a b, keq a b = true <-> a = b.

Lemma get_in_nodup (d : Dict.dict K V) (k : K) (v : V) :
  NoDup (Dict.keys d) ->
  (Dict.get keq d k = Some v <-> In (k, v) d).
Proof.
  induction d as [|[k' v'] d IH]; intros Hn; simpl; [easy|].
  inversion Hn as [|? ? Hk Hn']; subst.
  destruct (keq k k') eqn:E.
  - apply keq_eq in E. subst k'. split.
    + intros [= ->]. now left.
    + intros [[= ->]|H]; [reflexivity|].
      exfalso. apply Hk. now apply (in_map fst) in H.
  - rewrite (IH Hn'). split; [now right|].
    intros [[= -> ->]|H]; [|exact H].
    rewrite (proj2 (keq_eq k k) eq_refl) in E. discriminate.
Qed.

Lemma mem_in_keys (d : Dict.dict K V) (k : K) :
  Dict.mem keq d k = true <-> In k (Dict.keys d).
Proof.
  unfold Dict.mem. induction d as [|[k' v'] d IH]; simpl; [easy|].
  destruct (keq k k') eqn:E.
  - apply keq_eq in E. subst. split; [now left|reflexivity].
  - rewrite IH. split; [now right|].
    intros [->|H]; [|exact H].
    rewrite (proj2 (keq_eq k k) eq_refl) in E. discriminate.
Qed.
End Lookup.

(* ================================================================== *)
(** * The vocabulary of the co-occurrence matrix *)
(* ================================================================== *)

Section FreshKeys.
Variables (K V I : Type) (keq : K -> K -> bool).
Variables (kf : I -> K) (vf : I -> V).
Hypothesis keq_eq : forall a b, keq a b = true <-> a = b.

(** Assigning distinct new keys appends them in order. *)
Lemma set_all_fresh (l : list I) :
  forall d : Dict.dict K V,
    NoDup (Dict.keys d ++ map kf l) ->
    fold_left (fun d it => Dict.set keq d (kf it) (vf it)) l d =
    d ++ map (fun it => (kf it, vf it)) l.
Proof.
  induction l as [|x l IH]; intros d Hn; simpl.
  - now rewrite app_nil_r.
  - simpl in Hn.
    assert (Hx : ~ In (kf x) (Dict.keys d)).
    { intros Hin. apply NoDup_remove_2 in Hn. apply Hn.
      apply in_or_app. now left. }
    rewrite (@set_fresh _ _ _ keq_eq d (kf x) (vf x) Hx).
    rewrite IH.
    + now rewrite <- app_assoc.
    + unfold Dict.keys in *. rewrite map_app. simpl.
      rewrite <- app_assoc. simpl.
      apply NoDup_Add with (a := kf x) (l := map fst d ++ map kf l).
      * apply Add_app.
      * split.
        -- now apply NoDup_remove_1 in Hn.
        -- now apply NoDup_remove_2 in Hn.
Qed.
End FreshKeys.

Lemma enumerate_from_fst {A : Type} (l : list A) :
  forall k, map fst (Cooc.enumerate_from k l) =
            Cooc.range k (k + Z.of_nat (length l)).
Proof.
  induction l as [|x l IH]; intros k; simpl.
  - unfold Cooc.range. now replace (k + 0 - k)%Z with 0%Z by lia.
  - rewrite IH.
    rewrite (@range_app k (k + 1) (k + Z.pos (Pos.of_succ_nat (length l))))
      by lia.
    rewrite range_one. simpl. f_equal. f_equal. lia.
Qed.

Lemma enumerate_from_snd {A : Type} (l : list A) :
  forall k, map snd (Cooc.enumerate_from k l) = l.
Proof.
  induction l as [|x l IH]; intros k; simpl; [reflexivity|].
  now rewrite IH.
Qed.

Lemma nodup_map_inj {A B : Type} (f : A -> B) (l : list A) :
  (forall a b, f a = f b -> a = b) -> NoDup l -> NoDup (map f l).
Proof.
  intros Hf. induction 1 as [|x l Hx Hn IH]; simpl; constructor; auto.
  intros Hin. apply in_map_iff in Hin. destruct Hin as [y [E Hy]].
  apply Hf in E. now subst.
Qed.

Lemma range_nodup (lo hi : Z) : NoDup (Cooc.range lo hi).
Proof.
  unfold Cooc.range. apply nodup_map_inj.
  - intros a b H. lia.
  - apply seq_NoDup.
Qed.

Lemma z_eqb_eq (a b : Z) : Z.eqb a b = true <-> a = b.
Proof. apply Z.eqb_eq. Qed.

Lemma keys_filter_in (counts : Dict.dict pystr Z) (f : pystr * Z -> bool)
      (t : pystr) :
  In t (Dict.keys (filter f counts)) <->
  exists c, In (t, c) counts /\ f (t, c) = true.
Proof.
  unfold Dict.keys. rewrite in_map_iff. split.
  - intros [[t' c] [E H]]. simpl in E. subst t'.
    apply filter_In in H. now exists c.
  - intros [c [H1 H2]]. exists (t, c). split; [reflexivity|].
    now apply filter_In.
Qed.

Lemma nodup_keys_filter {V : Type} (d : Dict.dict pystr V)
      (f : pystr * V -> bool) :
  NoDup (Dict.keys d) -> NoDup (Dict.keys (filter f d)).
Proof.
  unfold Dict.keys. induction d as [|[k v] d IH]; intros Hn; simpl.
  - constructor.
  - inversion Hn as [|? ? Hk Hn']; subst.
    destruct (f (k, v)); simpl; [|now apply IH].
    constructor; [|now apply IH].
    intros Hin. apply Hk. apply in_map_iff in Hin.
    destruct Hin as [e [E He]]. apply filter_In in He.
    apply in_map_iff. exists e. tauto.
Qed.

(** The tokens that get an id, in the order of their ids. *)
Lemma build_vocabulary_fresh (w mc : Z) (token_sequences : list (list pystr)) :
  let self := Cooc.build_vocabulary (Cooc.init w mc) token_sequences in
  let tokens := List.concat token_sequences in
  exists toks,
    Cooc.token_to_id self = by_token (Cooc.enumerate toks) /\
    Cooc.id_to_token self = Cooc.enumerate toks /\
    Cooc.vocab_size self = Z.of_nat (length toks) /\
    StronglySorted (fun a b => Py.leb a b = true) toks /\
    NoDup toks /\
    forall t, In t toks <->
              (0 < count_of t tokens)%Z /\ (mc <= count_of t tokens)%Z.
Proof.
  intros self tokens.
  set (counts := Cooc.count_tokens [] token_sequences).
  set (filtered := filter (fun tc : pystr * Z => (mc <=? snd tc)%Z) counts).
  exists (sorted (Dict.keys filtered)).
  assert (Hc : NoDup (Dict.keys counts)).
  { unfold counts. rewrite count_tokens_tally.
    apply tally_all_nodup. constructor. }
  assert (Hf : NoDup (Dict.keys filtered)) by now apply nodup_keys_filter.
  assert (Hs : NoDup (sorted (Dict.keys filtered))).
  { apply (Permutation_NoDup (Permutation_sym (sorted_perm _)) Hf). }
  split; [|split; [|split; [|split; [|split; [|intros t; split]]]]].
  - unfold self, Cooc.build_vocabulary, Cooc.init. cbn [Cooc.token_to_id
      Cooc.token_counts Cooc.min_count].
    fold counts. fold filtered.
    rewrite (@set_all_fresh pystr Z (Z * pystr) Py.eqb
               (fun it => snd it) (fun it => fst it) str_eqb_eq).
    + reflexivity.
    + simpl. unfold Cooc.enumerate. now rewrite enumerate_from_snd.
  - unfold self, Cooc.build_vocabulary, Cooc.init. cbn [Cooc.id_to_token
      Cooc.token_counts Cooc.min_count].
    fold counts. fold filtered.
    rewrite (@set_all_fresh Z pystr (Z * pystr) Z.eqb
               (fun it => fst it) (fun it => snd it) z_eqb_eq).
    + simpl. rewrite <- (map_id (Cooc.enumerate _)) at 2.
      apply map_ext. now intros [i t].
    + simpl. unfold Cooc.enumerate. rewrite enumerate_from_fst.
      apply range_nodup.
  - unfold self, Cooc.build_vocabulary, Cooc.init. cbn [Cooc.vocab_size
      Cooc.token_counts Cooc.min_count].
    fold counts. fold filtered. f_equal.
    rewrite (Permutation_length (sorted_perm _)).
    unfold Dict.keys. now rewrite length_map.
  - apply sorted_sorted.
  - exact Hs.
  - intros Ht.
    apply (Permutation_in _ (sorted_perm _)) in Ht.
    apply keys_filter_in in Ht. destruct Ht as [c [H1 H2]].
    apply (@get_in_nodup _ _ _ str_eqb_eq counts t c Hc) in H1.
    unfold counts in H1. rewrite count_tokens_tally, tally_all_get in H1.
    fold tokens in H1. simpl in H1.
    destruct (count_of t tokens =? 0)%Z eqn:E0; [discriminate|].
    apply Z.eqb_neq in E0. pose proof (count_of_nonneg t tokens).
    injection H1 as <-. simpl in H2. unfold Dict.get_default in H2.
    simpl in H2. apply Z.leb_le in H2. lia.
  - intros [H1 H2].
    apply (Permutation_in _ (Permutation_sym (sorted_perm _))).
    apply keys_filter_in. exists (count_of t tokens). split.
    + apply (@get_in_nodup _ _ _ str_eqb_eq counts t _ Hc).
      unfold counts. rewrite count_tokens_tally, tally_all_get.
      fold tokens.
      replace (count_of t tokens =? 0)%Z with false
        by (symmetry; apply Z.eqb_neq; lia).
      reflexivity.
    + simpl. now apply Z.leb_le.
Qed.

Lemma by_token_keys (toks : list pystr) :
  forall k, Dict.keys (by_token (Cooc.enumerate_from k toks)) = toks.
Proof.
  unfold Dict.keys, by_token. intros k. rewrite map_map. simpl.
  apply enumerate_from_snd.
Qed.

Lemma by_token_values (toks : list pystr) :
  forall k, Dict.values (by_token (Cooc.enumerate_from k toks)) =
            Cooc.range k (k + Z.of_nat (length toks)).
Proof.
  unfold Dict.values, by_token. intros k. rewrite map_map. simpl.
  apply enumerate_from_fst.
Qed.

Lemma sorted_nodup_strict (l : list pystr) :
  StronglySorted (fun a b => Py.leb a b = true) l -> NoDup l ->
  StronglySorted (fun a b => Py.leb a b = true /\ a <> b) l.
Proof.
  induction 1 as [|x l Hs IH Hx]; intros Hn; constructor.
  - apply IH. now inversion Hn.
  - inversion Hn as [|? ? Hnx Hn']; subst.
    rewrite Forall_forall in *. intros y Hy. split; [now apply Hx|].
    intros ->. contradiction.
Qed.

Lemma get_some_in {K V : Type} (keq : K -> K -> bool) (d : Dict.dict K V)
      (k : K) (v : V) :
  Dict.get keq d k = Some v -> In v (Dict.values d).
Proof.
  induction d as [|[k' v'] d IH]; simpl; [discriminate|].
  destruct (keq k k'); [intros [= ->]; now left|].
  intros H. right. now apply IH.
Qed.

Lemma to_ids_known (m : Dict.dict pystr Z) (s : list pystr) (id : Z) :
  In id (Cooc.to_ids m s) -> In id (Dict.values m).
Proof.
  induction s as [|t s IH]; simpl; [easy|].
  destruct (Dict.get Py.eqb m t) as [i|] eqn:E; [|exact IH].
  intros [<-|H]; [|now apply IH].
  now apply get_some_in in E.
Qed.

Lemma id_at_in (ids : list Z) (i : Z) :
  In i (positions ids) -> In (id_at ids i) ids.
Proof.
  intros H. apply in_positions in H. unfold id_at. apply nth_In. lia.
Qed.

Lemma unordered_in (a b : Z) (l : list Z) :
  In a l -> In b l ->
  In (fst (unordered a b)) l /\ In (snd (unordered a b)) l.
Proof.
  intros Ha Hb. unfold unordered. simpl. split.
  - destruct (Z.min_dec a b) as [-> | ->]; assumption.
  - destruct (Z.max_dec a b) as [-> | ->]; assumption.
Qed.

Lemma contributions_ids (w : Z) (ids : list Z) (c : Cooc.key * Q) :
  In c (contributions w ids) ->
  In (fst (fst c)) ids /\ In (snd (fst c)) ids.
Proof.
  unfold contributions. intros H.
  apply in_flat_map in H. destruct H as [i [Hi H]].
  apply in_flat_map in H. destruct H as [j [Hj H]].
  destruct (negb (i =? j)%Z && (Z.abs (i - j) <=? w)%Z); [|easy].
  destruct H as [<-|[]]. cbn [fst].
  apply unordered_in; now apply id_at_in.
Qed.

Lemma all_contributions_ids (m : Dict.dict pystr Z) (w : Z)
      (streams : list (list pystr)) (c : Cooc.key * Q) :
  In c (all_contributions m w streams) ->
  In (fst (fst c)) (Dict.values m) /\ In (snd (fst c)) (Dict.values m).
Proof.
  unfold all_contributions. intros H.
  apply in_flat_map in H. destruct H as [s [_ H]].
  apply contributions_ids in H. rewrite <- to_ids_filtered in H.
  destruct H as [H1 H2]. split; eapply to_ids_known; eassumption.
Qed.

Lemma accumulate_keys cs (k : Cooc.key) :
  forall t : Cooc.table,
    In k (Dict.keys (fold_left addc cs t)) ->
    In k (Dict.keys t) \/ In k (map fst cs).
Proof.
  induction cs as [|c cs IH]; intros t H; simpl in *; [now left|].
  apply IH in H. destruct H as [H|H]; [|now right; right].
  unfold addc, Cooc.add_weight in H. rewrite keys_set in H.
  destruct (Dict.mem Cooc.key_eqb t (fst c)); [now left|].
  apply in_app_or in H. destruct H as [H|[<-|[]]]; [now left|].
  right. now left.
Qed.

(** The keys of the table computed with a fresh vocabulary are pairs of
    ids of the vocabulary. *)
Lemma table_keys_known (w mc : Z) (token_sequences streams : list (list pystr))
      (e : Cooc.key * Q) :
  let self :=
    Cooc.compute_cooccurrence
      (Cooc.build_vocabulary (Cooc.init w mc) token_sequences) streams in
  In e (Cooc.cooccurrence_counts self) ->
  (0 <= fst (fst e) < Cooc.vocab_size self)%Z /\
  (0 <= snd (fst e) < Cooc.vocab_size self)%Z.
Proof.
  intros self He.
  assert (Hk : In (fst e) (Dict.keys (Cooc.cooccurrence_counts self)))
    by now apply in_map.
  unfold self in Hk. rewrite compute_cooccurrence_fold in Hk.
  apply accumulate_keys in Hk. destruct Hk as [[]|Hk].
  apply in_map_iff in Hk. destruct Hk as [c [Ec Hc]].
  apply all_contributions_ids in Hc. rewrite Ec in Hc.
  destruct (build_vocabulary_fresh w mc token_sequences)
    as [toks [H1 [H2 [H3 _]]]].
  cbv zeta in H1, H2, H3.
  unfold self. cbn [Cooc.compute_cooccurrence Cooc.vocab_size].
  rewrite H3. rewrite H1 in Hc. unfold Cooc.enumerate in Hc.
  rewrite by_token_values in Hc.
  destruct Hc as [Ha Hb]. apply in_range in Ha. apply in_range in Hb. lia.
Qed.

Lemma enumerate_lookup (toks : list pystr) (i : Z) :
  Dict.mem Z.eqb (Cooc.enumerate toks) i = true <->
  (0 <= i < Z.of_nat (length toks))%Z.
Proof.
  rewrite (@mem_in_keys _ _ _ z_eqb_eq). unfold Dict.keys, Cooc.enumerate.
  rewrite enumerate_from_fst, in_range. lia.
Qed.

(* ================================================================== *)
(** * The rows of the result files *)
(* ================================================================== *)

Lemma slice_to_firstn {A : Type} (l : list A) (k : Z) :
  exists n, slice_to l k = firstn n l.
Proof.
  unfold slice_to. destruct (0 <=? k)%Z; eexists; reflexivity.
Qed.

Lemma strongly_sorted_app {A : Type} (R : A -> A -> Prop) (l1 l2 : list A) :
  StronglySorted R (l1 ++ l2) ->
  StronglySorted R l1 /\ forall a b, In a l1 -> In b l2 -> R a b.
Proof.
  induction l1 as [|x l1 IH]; simpl; intros H.
  - split; [constructor|easy].
  - inversion H as [|? ? Hs Hx]; subst.
    destruct (IH Hs) as [H1 H2]. split.
    + constructor; [exact H1|].
      rewrite Forall_forall in *. intros y Hy. apply Hx.
      apply in_or_app. now left.
    + intros a b [<-|Ha] Hb; [|now apply H2].
      rewrite Forall_forall in Hx. apply Hx. apply in_or_app. now right.
Qed.

Lemma strongly_sorted_impl {A : Type} (R S : A -> A -> Prop) (l : list A) :
  (forall a b, R a b -> S a b) -> StronglySorted R l -> StronglySorted S l.
Proof.
  intros HRS. induction 1 as [|x l Hs IH Hx]; constructor; [exact IH|].
  rewrite Forall_forall in *. auto.
Qed.

Lemma weight_lt_false (a b : Cooc.key * Q) :
  Cooc.weight_lt a b = false <-> (snd b <= snd a)%Q.
Proof.
  unfold Cooc.weight_lt. rewrite negb_false_iff. apply Qle_bool_iff.
Qed.

Lemma weights_sorted (t : Cooc.table) :
  StronglySorted (fun a b : Cooc.key * Q => (snd b <= snd a)%Q)
                 (sorted_desc Cooc.weight_lt t).
Proof.
  apply strongly_sorted_impl
    with (R := fun a b => Cooc.weight_lt a b = false).
  - intros a b. apply weight_lt_false.
  - apply sorted_desc_sorted.
    + intros a b c H1 H2. rewrite weight_lt_false in *.
      now apply Qle_trans with (snd b).
    + intros a b H. rewrite weight_lt_false.
      destruct (Cooc.weight_lt b a) eqn:E; [|now apply weight_lt_false in E].
      unfold Cooc.weight_lt in *. rewrite negb_true_iff in *.
      destruct (Qlt_le_dec (snd b) (snd a)) as [Hlt|Hle].
      * apply Qlt_le_weak in Hlt. apply Qle_bool_iff in Hlt. congruence.
      * apply Qle_bool_iff in Hle. congruence.
Qed.

Lemma sorted_pairs_prefix (self : Cooc.t) (top_n : option Z) :
  exists n, Cooc.sorted_pairs self top_n =
            firstn n (sorted_desc Cooc.weight_lt (Cooc.cooccurrence_counts self)).
Proof.
  unfold Cooc.sorted_pairs.
  destruct top_n as [k|].
  - destruct (k =? 0)%Z.
    + eexists. symmetry. apply firstn_all.
    + apply slice_to_firstn.
  - eexists. symmetry. apply firstn_all.
Qed.

Lemma sorted_pairs_in (self : Cooc.t) (top_n : option Z) (e : Cooc.key * Q) :
  In e (Cooc.sorted_pairs self top_n) -> In e (Cooc.cooccurrence_counts self).
Proof.
  destruct (sorted_pairs_prefix self top_n) as [n ->]. intros H.
  apply (Permutation_in _ (sorted_desc_perm Cooc.weight_lt _)).
  rewrite <- (firstn_skipn n). apply in_or_app. now left.
Qed.

Lemma contributions_nowhere (w : Z) (ids : list Z) :
  (w <= 0)%Z -> contributions w ids = [].
Proof.
  intros Hw. unfold contributions.
  induction (positions ids) as [|i l IH] at 2; [reflexivity|].
  simpl. rewrite IH, app_nil_r.
  apply flat_map_none with
    (c := fun j => negb (i =? j)%Z && (Z.abs (i - j) <=? w)%Z).
  intros j _. destruct (i =? j)%Z eqn:E; [reflexivity|].
  apply Z.eqb_neq in E. simpl. apply Z.leb_gt. lia.
Qed.

Lemma nth_map_in {A B : Type} (f : A -> B) (l : list A) (i : nat) (d : B)
      (a : A) :
  i < length l -> nth i (map f l) d = f (nth i l a).
Proof.
  intros H. rewrite (nth_indep _ d (f a)) by now rewrite length_map.
  apply map_nth.
Qed.

(* ================================================================== *)
(** * Pair statistics *)
(* ================================================================== *)

Lemma pair_eqb_refl (p : pair) : pair_eqb p p = true.
Proof. now apply pair_eqb_eq. Qed.

Lemma pair_count_cons (p q : pair) (l : list pair) :
  pair_count p (q :: l) = ((if pair_eqb p q then 1 else 0) + pair_count p l)%Z.
Proof.
  unfold pair_count. simpl. destruct (pair_eqb p q); cbn [length]; lia.
Qed.

Lemma pair_count_nonneg (p : pair) (l : list pair) : (0 <= pair_count p l)%Z.
Proof. unfold pair_count. lia. Qed.

Lemma pair_count_zero (p : pair) (l : list pair) :
  (pair_count p l =? 0)%Z = negb (existsb (pair_eqb p) l).
Proof.
  induction l as [|q l IH]; [reflexivity|].
  rewrite pair_count_cons. cbn [existsb].
  pose proof (pair_count_nonneg p l).
  destruct (pair_eqb p q); cbn [orb negb].
  - apply Z.eqb_neq. lia.
  - rewrite Z.add_0_l. exact IH.
Qed.

Lemma bump_get (s : stats_t) (q p : pair) (f : Z) :
  Dict.get pair_eqb (bump s q f) p =
  if pair_eqb p q then Some (Dict.get_default pair_eqb s q 0 + f)%Z
  else Dict.get pair_eqb s p.
Proof.
  unfold bump. destruct (pair_eqb p q) eqn:E.
  - apply pair_eqb_eq in E. subst.
    apply (@get_set_same _ _ _ pair_eqb_eq).
  - apply (@get_set_other _ _ _ pair_eqb_eq).
    intros ->. now rewrite pair_eqb_refl in E.
Qed.

Lemma bump_all_get (l : list pair) (f : Z) (p : pair) :
  forall s,
    Dict.get pair_eqb (fold_left (fun s q => bump s q f) l s) p =
    if (pair_count p l =? 0)%Z then Dict.get pair_eqb s p
    else Some (Dict.get_default pair_eqb s p 0 + f * pair_count p l)%Z.
Proof.
  induction l as [|q l IH]; intros s; [reflexivity|].
  cbn [fold_left]. rewrite IH, pair_count_cons.
  unfold Dict.get_default. rewrite bump_get.
  pose proof (pair_count_nonneg p l).
  destruct (pair_eqb p q) eqn:E.
  - apply pair_eqb_eq in E. subst q.
    replace (1 + pair_count p l =? 0)%Z with false
      by (symmetry; apply Z.eqb_neq; lia).
    destruct (pair_count p l =? 0)%Z eqn:E0.
    + apply Z.eqb_eq in E0. rewrite E0.
      apply f_equal. unfold Dict.get_default. lia.
    + apply f_equal. unfold Dict.get_default. lia.
  - rewrite Z.add_0_l. reflexivity.
Qed.

Lemma pair_frequency_absent (v : vocab_t) (p : pair) :
  occurs v p = false -> pair_frequency v p = 0%Z.
Proof.
  induction v as [|e v IH]; [reflexivity|].
  cbn [occurs existsb pair_frequency fold_right].
  intros H. apply orb_false_iff in H. destruct H as [H1 H2].
  fold (pair_frequency v p). rewrite (IH H2).
  pose proof (pair_count_zero p (adjacent (split (fst e)))) as Hz.
  rewrite H1 in Hz. apply Z.eqb_eq in Hz. rewrite Hz. lia.
Qed.

Lemma get_stats_from (v : vocab_t) (p : pair) :
  forall s,
    Dict.get pair_eqb
      (fold_left
         (fun pairs (entry : pystr * Z) =>
            let (word, freq) := entry in
            let symbols := split word in
            fold_left (fun pairs p => bump pairs p freq)
                      (adjacent symbols) pairs)
         v s) p =
    if occurs v p
    then Some (Dict.get_default pair_eqb s p 0 + pair_frequency v p)%Z
    else Dict.get pair_eqb s p.
Proof.
  induction v as [|[word freq] v IH]; intros s; [reflexivity|].
  cbn [fold_left]. rewrite IH.
  cbn [occurs existsb pair_frequency fold_right fst snd].
  fold (occurs v p). fold (pair_frequency v p).
  unfold Dict.get_default. rewrite bump_all_get.
  pose proof (pair_count_zero p (adjacent (split word))) as Hz.
  destruct (existsb (pair_eqb p) (adjacent (split word))) eqn:E1;
    simpl in Hz; rewrite Hz; simpl.
  - destruct (occurs v p) eqn:E2; apply f_equal; unfold Dict.get_default.
    + lia.
    + rewrite (pair_frequency_absent v p E2). lia.
  - apply Z.eqb_eq in Hz. rewrite Hz.
    destruct (occurs v p); [apply f_equal; lia|reflexivity].
Qed.

(** The statistic of a pair is its frequency in the vocabulary. *)
Lemma get_stats_get (v : vocab_t) (p : pair) :
  Dict.get pair_eqb (get_stats v) p =
  if occurs v p then Some (pair_frequency v p) else None.
Proof.
  unfold get_stats. rewrite get_stats_from. reflexivity.
Qed.

Lemma bump_all_nodup (l : list pair) (f : Z) :
  forall s, NoDup (Dict.keys s) ->
            NoDup (Dict.keys (fold_left (fun s q => bump s q f) l s)).
Proof.
  induction l as [|q l IH]; intros s Hn; [exact Hn|].
  cbn [fold_left]. apply IH. unfold bump.
  apply nodup_keys_set; [apply pair_eqb_eq|exact Hn].
Qed.

Lemma get_stats_nodup (v : vocab_t) : NoDup (Dict.keys (get_stats v)).
Proof.
  unfold get_stats.
  assert (H : forall s, NoDup (Dict.keys s) ->
                        NoDup (Dict.keys
                                 (fold_left
                                    (fun pairs (entry : pystr * Z) =>
                                       let (word, freq) := entry in
                                       let symbols := split word in
                                       fold_left
                                         (fun pairs p => bump pairs p freq)
                                         (adjacent symbols) pairs)
                                    v s))).
  { induction v as [|[word freq] v IH]; intros s Hn; [exact Hn|].
    cbn [fold_left]. apply IH. now apply bump_all_nodup. }
  apply H. constructor.
Qed.

Lemma adjacent_nil (l : list pystr) : adjacent l = [] -> length l <= 1.
Proof.
  destruct l as [|a [|b l]]; simpl; [lia|lia|discriminate].
Qed.

Lemma get_stats_empty (v : vocab_t) :
  get_stats v = [] ->
  forall e, In e v -> length (split (fst e)) <= 1.
Proof.
  intros H e He. apply adjacent_nil.
  destruct (adjacent (split (fst e))) as [|p l] eqn:E; [reflexivity|].
  exfalso. pose proof (get_stats_get v p) as Hg.
  rewrite H in Hg. simpl in Hg.
  replace (occurs v p) with true in Hg; [discriminate|].
  symmetry. unfold occurs. apply existsb_exists. exists e. split; [exact He|].
  rewrite E. simpl. now rewrite pair_eqb_refl.
Qed.

Lemma split_from_nonempty (w : pystr) :
  forall cur t, In t (split_from cur w) -> t <> [].
Proof.
  induction w as [|c w IH]; intros cur t; simpl.
  - destruct cur; [easy|]. intros [<-|[]]. discriminate.
  - destruct (isspace c).
    + destruct cur; [apply IH|].
      intros [<-|H]; [discriminate|now apply IH in H].
    + apply IH.
Qed.

Lemma split_tokens (w t : pystr) : In t (split w) -> is_token t = true.
Proof.
  intros H. pose proof (@split_from_nonempty w [] t H) as Hn.
  pose proof (@split_from_tokens_wsfree w [] eq_refl t H) as Hw.
  destruct t; [contradiction|exact Hw].
Qed.

Lemma forallb_split_tokens (w : pystr) : forallb is_token (split w) = true.
Proof. apply forallb_forall. intros t. apply split_tokens. Qed.

Lemma greedy_rules_tokens (ps : list pair) :
  forall v, greedy_from v ps ->
            Forall (fun p => is_token (fst p) = true /\ is_token (snd p) = true)
                   ps.
Proof.
  induction ps as [|p ps IH]; intros v H; constructor.
  - destruct H as [H _]. apply first_max_in in H.
    apply keys_get_stats in H. destruct H as [e [_ H]].
    apply adjacent_in in H. destruct H as [H1 H2].
    split; eapply split_tokens; eassumption.
  - destruct H as [_ [v' [_ H]]]. now apply IH in H.
Qed.

Lemma max_key_none (s : stats_t) : max_key s = None -> s = [].
Proof. destruct s as [|[k x] s]; [reflexivity|discriminate]. Qed.

Lemma learn_loop_length (n : nat) :
  forall v codes v_end codes_end,
    learn_loop n v codes = Some (v_end, codes_end) ->
    exists new,
      codes_end = codes ++ new /\ length new <= n /\
      (length new < n -> get_stats v_end = []).
Proof.
  induction n as [|n IH]; intros v codes v_end codes_end H; simpl in H.
  - injection H as <- <-. exists []. rewrite app_nil_r. simpl.
    repeat split; lia.
  - unfold learn_step in H.
    destruct (max_key (get_stats v)) as [p|] eqn:E.
    + destruct (merge_vocab p v) as [v'|]; [|discriminate].
      apply IH in H. destruct H as [new [-> [H1 H2]]].
      exists (p :: new). rewrite <- app_assoc. simpl.
      repeat split; [lia|]. intros H3. apply H2. lia.
    + injection H as <- <-. exists []. rewrite app_nil_r. simpl.
      repeat split; [lia|]. intros _. now apply max_key_none.
Qed.

(* ================================================================== *)
(** * When a merge raises *)
(* ================================================================== *)

Lemma merge_word_none (p : pair) (w : pystr) :
  merge_word p w = None <-> bad_rule p = true.
Proof.
  unfold merge_word, Re.sub, bad_rule.
  destruct (Re.parse_template (merged p)); split; congruence.
Qed.

Lemma merge_vocab_raised (p : pair) (v : vocab_t) :
  fold_left
    (fun (acc : option vocab_t) (entry : pystr * Z) =>
       let (word, freq) := entry in
       match acc with
       | None => None
       | Some v_out =>
           match merge_word p word with
           | None => None
           | Some new_word => Some (Dict.set Py.eqb v_out new_word freq)
           end
       end) v None = None.
Proof.
  induction v as [|[word freq] v IH]; [reflexivity|exact IH].
Qed.

Lemma merge_vocab_from (p : pair) (v : vocab_t) :
  forall acc,
    fold_left
      (fun (acc : option vocab_t) (entry : pystr * Z) =>
         let (word, freq) := entry in
         match acc with
         | None => None
         | Some v_out =>
             match merge_word p word with
             | None => None
             | Some new_word => Some (Dict.set Py.eqb v_out new_word freq)
             end
         end) v (Some acc) = None <->
    v <> [] /\ bad_rule p = true.
Proof.
  induction v as [|[word freq] v IH]; intros acc.
  - simpl. split; [discriminate|]. intros [H _]. now contradiction H.
  - cbn [fold_left]. destruct (merge_word p word) as [w'|] eqn:E.
    + rewrite IH. split.
      * intros [_ H]. split; [discriminate|exact H].
      * intros [_ H]. apply merge_word_none with (w := word) in H. congruence.
    + rewrite merge_vocab_raised. apply merge_word_none in E.
      split; [|reflexivity]. intros _. split; [discriminate|exact E].
Qed.

Lemma replay_none (codes : list pair) :
  forall w, replay codes w = None <-> existsb bad_rule codes = true.
Proof.
  induction codes as [|p codes IH]; intros w; simpl.
  - split; discriminate.
  - destruct (merge_word p w) as [w'|] eqn:E.
    + rewrite IH. destruct (bad_rule p) eqn:B; [|reflexivity].
      apply merge_word_none with (w := w) in B. congruence.
    + apply merge_word_none in E. rewrite E. split; reflexivity.
Qed.

(* ================================================================== *)
(** * Character-level tokens *)
(* ================================================================== *)

Lemma split_chars (s : pystr) :
  forall rest,
    split_from [] (join [" "%char] (chars s) ++ " "%char :: rest) =
    chars (nows s) ++ split_from [] rest.
Proof.
  induction s as [|c s IH]; intros rest.
  - reflexivity.
  - change (chars (c :: s)) with ([c] :: chars s). rewrite join_cons.
    cbn [nows filter]. fold (nows s).
    assert (Hrest : split_from [] (rest_str (chars s) ++ " "%char :: rest) =
                    chars (nows s) ++ split_from [] rest).
    { destruct s as [|c' s']; [reflexivity|].
      change (rest_str (chars (c' :: s')))
        with (" "%char :: join [" "%char] (chars (c' :: s'))).
      cbn [app]. change (split_from [] (" "%char :: ?x)) with (split_from [] x).
      apply IH. }
    cbn [app]. cbn [split_from].
    destruct (isspace c) eqn:E; cbn [negb].
    + exact Hrest.
    + cbn [app].
      destruct (rest_str (chars s)) as [|x r] eqn:Er.
      * destruct s; [|discriminate]. reflexivity.
      * destruct s as [|c' s']; [discriminate|].
        injection Er as <- <-.
        cbn [app split_from].
        change (isspace " "%char) with true. cbn iota.
        change (chars (c :: nows (c' :: s')))
          with ([c] :: chars (nows (c' :: s'))).
        cbn [app]. f_equal. apply IH.
Qed.

Lemma join_snoc (l : list pystr) (x : pystr) :
  join [" "%char] (l ++ [x]) =
  match l with
  | [] => x
  | _ => join [" "%char] l ++ " "%char :: x
  end.
Proof.
  induction l as [|a l IH]; [reflexivity|].
  destruct l as [|b l]; [reflexivity|].
  change ((a :: b :: l) ++ [x]) with (a :: (b :: l) ++ [x]).
  change (join [" "%char] (a :: (b :: l) ++ [x]))
    with (a ++ [" "%char] ++ join [" "%char] ((b :: l) ++ [x])).
  rewrite IH.
  change (join [" "%char] (a :: b :: l))
    with (a ++ [" "%char] ++ join [" "%char] (b :: l)).
  now rewrite <- !app_assoc.
Qed.

Lemma split_spaced (seq : pystr) :
  split (BPEProcessor.spaced seq) =
  str "<s>" :: chars (nows seq) ++ [str "</s>"].
Proof.
  unfold BPEProcessor.spaced.
  change (str "<s> " ++ join [" "%char] (chars seq) ++ str " </s>")
    with (str "<s>" ++ " "%char ::
          (join [" "%char] (chars seq) ++ " "%char :: str "</s>")).
  unfold split.
  rewrite (@split_from_wsfree (str "<s>") eq_refl [] _).
  cbn [app split_from]. change (isspace " "%char) with true. cbn iota.
  f_equal. rewrite split_chars. reflexivity.
Qed.

Lemma split_word_tokens (word : pystr) :
  split (join [" "%char] (StandardBPE.get_word_tokens word)) =
  chars (nows word) ++ [str "</w>"].
Proof.
  unfold StandardBPE.get_word_tokens. rewrite join_snoc. unfold split.
  destruct (chars word) as [|a l] eqn:E.
  - destruct word; [reflexivity|discriminate].
  - rewrite <- E. rewrite split_chars. reflexivity.
Qed.

(* ================================================================== *)
(** * Learning from a corpus without backslash *)
(* ================================================================== *)

Lemma learn_loop_clean (n : nat) :
  forall v codes,
    clean v -> forallb plain_pair codes = true ->
    exists v' codes',
      learn_loop n v codes = Some (v', codes') /\
      forallb plain_pair codes' = true /\
      Dict.values v' = Dict.values v.
Proof.
  induction n as [|n IH]; intros v codes Hc Hp; simpl; [eauto|].
  unfold learn_step.
  destruct (max_key (get_stats v)) as [p|] eqn:Hmax; [|eauto].
  pose proof (@selected_pair_plain v p Hc Hmax) as Hpp.
  rewrite (@merge_vocab_clean p v Hpp Hc).
  destruct (IH (map (fun e : pystr * Z => (plain_scan p (fst e), snd e)) v)
               (codes ++ [p])) as [v' [codes' [H1 [H2 H3]]]].
  - now apply merge_vocab_keeps_clean.
  - rewrite forallb_app, Hp. simpl. now rewrite Hpp.
  - exists v', codes'. repeat split; auto.
    rewrite H3. unfold Dict.values. rewrite map_map. reflexivity.
Qed.

Lemma total_set (d : vocab_t) (k : pystr) (x : Z) :
  total (Dict.set Py.eqb d k x) =
  (total d - Dict.get_default Py.eqb d k 0 + x)%Z.
Proof.
  unfold total, Dict.get_default, Dict.values.
  induction d as [|[k' x'] d IH]; simpl; [lia|].
  destruct (Py.eqb k k'); simpl; [lia|].
  rewrite IH. lia.
Qed.

Lemma total_framed (frame : pystr -> pystr) (seqs : list pystr) :
  total (framed_vocab frame seqs) = Z.of_nat (length seqs).
Proof.
  unfold framed_vocab.
  assert (H : forall v,
             total (fold_left
                      (fun vocab s =>
                         Dict.set Py.eqb vocab (frame s)
                                  (Dict.get_default Py.eqb vocab (frame s) 0 + 1)%Z)
                      seqs v) = (total v + Z.of_nat (length seqs))%Z).
  { induction seqs as [|s seqs IH]; intros v; [simpl; lia|].
    cbn [fold_left]. rewrite IH, total_set. cbn [length]. lia. }
  rewrite H. reflexivity.
Qed.

(* ================================================================== *)
(** * Encoding a corpus *)
(* ================================================================== *)

Lemma split_from_app_space (a b : pystr) (c : ascii) :
  isspace c = true ->
  forall cur, split_from cur (a ++ c :: b) = split_from cur a ++ split_from [] b.
Proof.
  intros Hc. induction a as [|x a IH]; intros cur; simpl.
  - rewrite Hc. now destruct cur.
  - destruct (isspace x); [destruct cur|]; now rewrite IH.
Qed.

Lemma encode_from (self : StandardBPE.t) (words : list pystr) :
  forall acc,
    fold_left
      (fun (acc : option (list pystr)) word =>
         match acc with
         | None => None
         | Some encoded_words =>
             match StandardBPE.apply_bpe self word with
             | None => None
             | Some encoded_tokens => Some (encoded_words ++ encoded_tokens)
             end
         end) words (Some acc) =
    option_map (app acc)
      (fold_left
         (fun (acc : option (list pystr)) word =>
            match acc with
            | None => None
            | Some encoded_words =>
                match StandardBPE.apply_bpe self word with
                | None => None
                | Some encoded_tokens => Some (encoded_words ++ encoded_tokens)
                end
            end) words (Some [])).
Proof.
  induction words as [|word words IH]; intros acc.
  - simpl. now rewrite app_nil_r.
  - cbn [fold_left]. destruct (StandardBPE.apply_bpe self word) as [toks|].
    + rewrite IH. rewrite (IH ([] ++ toks)).
      destruct (fold_left _ words (Some [])) as [r|]; simpl; [|reflexivity].
      now rewrite app_assoc.
    + clear IH. induction words as [|x words IH]; [reflexivity|exact IH].
Qed.

Lemma encode_words_reconstruct (self : StandardBPE.t) (words : list pystr) :
  forallb plain_pair (StandardBPE.bpe_codes self) = true ->
  forallb wsfree words = true ->
  exists toks,
    fold_left
      (fun (acc : option (list pystr)) word =>
         match acc with
         | None => None
         | Some encoded_words =>
             match StandardBPE.apply_bpe self word with
             | None => None
             | Some encoded_tokens => Some (encoded_words ++ encoded_tokens)
             end
         end) words (Some []) = Some toks /\
    Py.concat toks = List.concat (map (fun w => w ++ str "</w>") words).
Proof.
  intros Hp. induction words as [|word words IH]; intros Hw.
  - exists []. split; reflexivity.
  - simpl in Hw. apply andb_true_iff in Hw. destruct Hw as [Hw1 Hw2].
    destruct (standard_apply_bpe_reconstructs self word Hp Hw1)
      as [t1 [H1 H2]].
    destruct (IH Hw2) as [t2 [H3 H4]].
    exists (t1 ++ t2). cbn [fold_left]. rewrite H1, encode_from.
    cbn [app] in *. rewrite H3. split; [reflexivity|].
    unfold Py.concat in *. rewrite concat_app, H2, H4. reflexivity.
Qed.

Lemma bad_rule_exists (codes : list pair) :
  existsb bad_rule codes = true <->
  exists p, In p codes /\ Re.parse_template (merged p) = None.
Proof.
  rewrite existsb_exists. unfold bad_rule.
  split; intros [p [H1 H2]]; exists p; split; auto;
    destruct (Re.parse_template (merged p)); congruence.
Qed.

Lemma encode_none (self : StandardBPE.t) (words : list pystr) :
  fold_left
    (fun (acc : option (list pystr)) word =>
       match acc with
       | None => None
       | Some encoded_words =>
           match StandardBPE.apply_bpe self word with
           | None => None
           | Some encoded_tokens => Some (encoded_words ++ encoded_tokens)
           end
       end) words (Some []) = None <->
  words <> [] /\ existsb bad_rule (StandardBPE.bpe_codes self) = true.
Proof.
  induction words as [|word words IH].
  - simpl. split; [discriminate|]. intros [H _]. now contradiction H.
  - cbn [fold_left].
    assert (Ha : StandardBPE.apply_bpe self word = None <->
                 existsb bad_rule (StandardBPE.bpe_codes self) = true).
    { unfold StandardBPE.apply_bpe. rewrite <- (replay_none _ (join [" "%char]
        (StandardBPE.get_word_tokens word))).
      destruct (replay _ _); split; congruence. }
    destruct (StandardBPE.apply_bpe self word) as [toks|].
    + rewrite encode_from.
      destruct (fold_left _ words (Some [])) as [r|] eqn:E; simpl.
      * split; [discriminate|]. intros [_ H]. apply Ha in H. discriminate.
      * split; [|reflexivity]. intros _.
        split; [discriminate|]. now apply IH.
    + assert (Hn : forall l,
                 fold_left
                   (fun (acc : option (list pystr)) word =>
                      match acc with
                      | None => None
                      | Some encoded_words =>
                          match StandardBPE.apply_bpe self word with
                          | None => None
                          | Some encoded_tokens =>
                              Some (encoded_words ++ encoded_tokens)
                          end
                      end) l None = None)
        by (intros l; induction l as [|x l IHl]; [reflexivity|exact IHl]).
      rewrite Hn. split; [|reflexivity]. intros _.
      split; [discriminate|]. now apply Ha.
Qed.

(* ================================================================== *)
(** * What a merge leaves behind *)
(* ================================================================== *)

Lemma merged_not_left (p : pair) :
  snd p <> [] -> Py.eqb (merged p) (fst p) = false.
Proof.
  intros H. destruct (Py.eqb (merged p) (fst p)) eqn:E; [|reflexivity].
  apply str_eqb_eq in E. unfold merged in E.
  rewrite <- (app_nil_r (fst p)) in E at 2. apply app_inv_head in E.
  contradiction.
Qed.

Lemma merged_not_right (p : pair) :
  fst p <> [] -> Py.eqb (merged p) (snd p) = false.
Proof.
  intros H. destruct (Py.eqb (merged p) (snd p)) eqn:E; [|reflexivity].
  apply str_eqb_eq in E. unfold merged in E.
  apply (f_equal (@length ascii)) in E. rewrite length_app in E.
  destruct (fst p); [contradiction|]. simpl in E. lia.
Qed.

Lemma Py_eqb_sym (a b : pystr) : Py.eqb a b = Py.eqb b a.
Proof.
  destruct (Py.eqb a b) eqn:E1; destruct (Py.eqb b a) eqn:E2; try reflexivity.
  - apply str_eqb_eq in E1. subst. now rewrite str_eqb_refl in E2.
  - apply str_eqb_eq in E2. subst. now rewrite str_eqb_refl in E1.
Qed.

Lemma adjacent_two (a b : pystr) (l : list pystr) :
  adjacent (a :: b :: l) = (a, b) :: adjacent (b :: l).
Proof. reflexivity. Qed.

Lemma is_token_nonempty (t : pystr) : is_token t = true -> t <> [].
Proof. destruct t; [discriminate|discriminate]. Qed.

(** After the splice, the two symbols of the pair are nowhere adjacent;
    and the first token is the first token of the input, or the merged
    token. *)
Lemma splice_leaves_none (p : pair) (n : nat) :
  fst p <> [] -> snd p <> [] ->
  forall toks,
    length toks <= n ->
    existsb (pair_eqb p) (adjacent (splice p toks)) = false /\
    (hd_error (splice p toks) = hd_error toks \/
     hd_error (splice p toks) = Some (merged p)).
Proof.
  intros HL HR. induction n as [|n IH]; intros toks Hlen.
  - destruct toks; [|simpl in Hlen; lia]. split; [reflexivity|now left].
  - destruct toks as [|a [|b rest]].
    + split; [reflexivity|now left].
    + split; [reflexivity|now left].
    + unfold splice. rewrite splice_with_two. fold (splice p rest).
      fold (splice p (b :: rest)).
      destruct (Py.eqb a (fst p) && Py.eqb b (snd p)) eqn:E.
      * destruct (IH rest) as [H1 H2]; [cbn [length] in *; lia|].
        split; [|now right].
        destruct (splice p rest) as [|x r] eqn:Es; [reflexivity|].
        rewrite adjacent_two. cbn [existsb]. rewrite H1.
        unfold pair_eqb at 1. cbn [fst snd].
        rewrite (Py_eqb_sym (fst p) (merged p)), (merged_not_left p HR).
        reflexivity.
      * destruct (IH (b :: rest)) as [H1 H2]; [cbn [length] in *; lia|].
        split; [|now left].
        destruct (splice p (b :: rest)) as [|x r] eqn:Es.
        { reflexivity. }
        rewrite adjacent_two. cbn [existsb]. rewrite H1.
        rewrite orb_false_r. unfold pair_eqb. cbn [fst snd].
        cbn [hd_error] in H2. destruct H2 as [[= ->]|[= ->]].
        -- rewrite (Py_eqb_sym (fst p) a), (Py_eqb_sym (snd p) b). exact E.
        -- rewrite (Py_eqb_sym (snd p) (merged p)), (merged_not_right p HL).
           apply andb_false_r.
Qed.

Lemma splice_without_occurrence (p : pair) (toks : list pystr) :
  existsb (pair_eqb p) (adjacent toks) = false -> splice p toks = toks.
Proof.
  induction toks as [|a toks IH]; [reflexivity|].
  destruct toks as [|b rest]; [reflexivity|].
  rewrite adjacent_two. cbn [existsb].
  intros H. apply orb_false_iff in H. destruct H as [H1 H2].
  unfold splice. rewrite splice_with_two. fold (splice p (b :: rest)).
  unfold pair_eqb in H1. cbn [fst snd] in H1.
  rewrite (Py_eqb_sym a (fst p)), (Py_eqb_sym b (snd p)), H1.
  now rewrite (IH H2).
Qed.

(* ================================================================== *)
(** * Corpora without a symbol *)
(* ================================================================== *)

Lemma learn_loop_nothing (n : nat) (codes : list pair) :
  learn_loop n [] codes = Some ([], codes).
Proof. destruct n; reflexivity. Qed.

Lemma split_spaces (w : pystr) :
  forallb isspace w = true -> split w = [].
Proof.
  intros H. unfold split. rewrite <- (app_nil_r w).
  now rewrite (split_from_leading w H []).
Qed.

Lemma prepare_empty_sequences (k : nat) :
  BPEProcessor.prepare_sequences (repeat [] (S k)) =
  [(str "<s>  </s>", Z.of_nat (S k))].
Proof.
  unfold BPEProcessor.prepare_sequences.
  assert (H : forall n f,
             fold_left
               (fun vocab seq =>
                  let spaced_seq := BPEProcessor.spaced seq in
                  Dict.set Py.eqb vocab spaced_seq
                           (Dict.get_default Py.eqb vocab spaced_seq 0 + 1)%Z)
               (repeat [] n) [(str "<s>  </s>", f)] =
             [(str "<s>  </s>", (f + Z.of_nat n)%Z)]).
  { induction n as [|n IH]; intros f.
    - simpl. now rewrite Z.add_0_r.
    - cbn [repeat fold_left].
      change (Dict.set Py.eqb [(str "<s>  </s>", f)]
                       (BPEProcessor.spaced [])
                       (Dict.get_default Py.eqb [(str "<s>  </s>", f)]
                                         (BPEProcessor.spaced []) 0 + 1)%Z)
        with [(str "<s>  </s>", (f + 1)%Z)].
      rewrite IH.
      replace (f + 1 + Z.of_nat n)%Z with (f + Z.of_nat (S n))%Z by lia.
      reflexivity. }
  cbn [repeat fold_left].
  change (Dict.set Py.eqb [] (BPEProcessor.spaced [])
                   (Dict.get_default Py.eqb [] (BPEProcessor.spaced []) 0 + 1)%Z)
    with [(str "<s>  </s>", 1%Z)].
  rewrite H.
  replace (1 + Z.of_nat k)%Z with (Z.of_nat (S k)) by lia.
  reflexivity.
Qed.

Lemma learn_step_empty_sequences (f : Z) :
  learn_step [(str "<s>  </s>", f)] =
  Merged (str "<s>", str "</s>") [(str "<s>  </s>", f)].
Proof. reflexivity. Qed.

Lemma learn_loop_empty_sequences (n : nat) (f : Z) :
  forall codes,
    learn_loop n [(str "<s>  </s>", f)] codes =
    Some ([(str "<s>  </s>", f)],
          codes ++ repeat (str "<s>", str "</s>") n).
Proof.
  induction n as [|n IH]; intros codes.
  - simpl. now rewrite app_nil_r.
  - cbn [learn_loop]. rewrite learn_step_empty_sequences, IH.
    cbn [repeat]. now rewrite <- app_assoc.
Qed.

(* ================================================================== *)
(** * A merge on single-spaced words *)
(* ================================================================== *)

Lemma merge_vocab_entries (p : pair) (v : vocab_t) :
  forall acc v',
    fold_left
      (fun (acc : option vocab_t) (entry : pystr * Z) =>
         let (word, freq) := entry in
         match acc with
         | None => None
         | Some v_out =>
             match merge_word p word with
             | None => None
             | Some new_word => Some (Dict.set Py.eqb v_out new_word freq)
             end
         end) v (Some acc) = Some v' ->
    forall w, In w (Dict.keys v') ->
              In w (Dict.keys acc) \/
              exists e, In e v /\ merge_word p (fst e) = Some w.
Proof.
  induction v as [|[word freq] v IH]; intros acc v' H w Hw.
  - injection H as <-. now left.
  - cbn [fold_left] in H.
    destruct (merge_word p word) as [new_word|] eqn:E.
    + destruct (IH _ _ H w Hw) as [Hin|[e [He Hm]]].
      * rewrite keys_set in Hin.
        destruct (Dict.mem Py.eqb acc new_word); [now left|].
        apply in_app_or in Hin. destruct Hin as [Hin|[<-|[]]]; [now left|].
        right. exists (word, freq). split; [now left|exact E].
      * right. exists e. split; [now right|exact Hm].
    + rewrite merge_vocab_raised in H. discriminate.
Qed.

Lemma single_spaced_tokens (w : pystr) :
  single_spaced w = true ->
  w = join [" "%char] (split w) /\ forallb is_token (split w) = true.
Proof.
  unfold single_spaced. intros H. apply str_eqb_eq in H.
  split; [exact H|apply forallb_split_tokens].
Qed.

Lemma is_token_merged (p : pair) :
  is_token (fst p) = true -> is_token (snd p) = true ->
  is_token (merged p) = true.
Proof.
  intros H1 H2. unfold merged.
  pose proof (is_token_wsfree _ H1) as W1.
  pose proof (is_token_wsfree _ H2) as W2.
  destruct (fst p) as [|c l] eqn:E; [discriminate|].
  cbn [app is_token].
  change (c :: l ++ snd p) with ((c :: l) ++ snd p).
  rewrite wsfree_app, W1, W2. reflexivity.
Qed.

(** One merge of a single-spaced word. *)
Lemma merge_word_single_spaced (p : pair) (w : pystr) :
  is_token (fst p) = true -> is_token (snd p) = true ->
  plain_pair p = true ->
  single_spaced w = true ->
  exists w',
    merge_word p w = Some w' /\
    single_spaced w' = true /\
    existsb (pair_eqb p) (adjacent (split w')) = false /\
    merge_word p w' = Some w'.
Proof.
  intros H1 H2 Hp Hw.
  destruct (@single_spaced_tokens w Hw) as [Ew Ht].
  pose proof (is_token_wsfree _ H1) as W1.
  pose proof (is_token_wsfree _ H2) as W2.
  pose proof (@splice_tokens p (split w) (@is_token_merged p H1 H2) Ht) as Hs.
  pose proof (@split_join _ Hs) as Hsj.
  destruct (@splice_leaves_none p (length (split w))
              (@is_token_nonempty (fst p) H1) (@is_token_nonempty (snd p) H2)
              (split w) (le_n _)) as [Hnone _].
  exists (join [" "%char] (splice p (split w))).
  split; [|split; [|split]].
  - rewrite Ew at 1. now apply merge_word_splice.
  - unfold single_spaced. rewrite Hsj. apply str_eqb_refl.
  - rewrite Hsj. exact Hnone.
  - rewrite (@merge_word_splice p _ W1 W2 Hp Hs).
    now rewrite (@splice_without_occurrence p _ Hnone).
Qed.

(* ================================================================== *)
(** * Rules learned on top of earlier rules *)
(* ================================================================== *)

Lemma learn_loop_prefix (n : nat) :
  forall v codes,
    learn_loop n v codes =
    match learn_loop n v [] with
    | Some (v', new) => Some (v', codes ++ new)
    | None => None
    end.
Proof.
  induction n as [|n IH]; intros v codes; simpl.
  - now rewrite app_nil_r.
  - destruct (learn_step v) as [| |p v'].
    + now rewrite app_nil_r.
    + reflexivity.
    + rewrite (IH v' (codes ++ [p])), (IH v' [p]).
      destruct (learn_loop n v' []) as [[v'' new]|]; [|reflexivity].
      now rewrite <- app_assoc.
Qed.

(* ================================================================== *)
(** * The order of the streams *)
(* ================================================================== *)

Lemma to_ids_known_only (m : Dict.dict pystr Z) (s : list pystr) :
  Cooc.to_ids m (filter (fun t => Dict.mem Py.eqb m t) s) = Cooc.to_ids m s.
Proof.
  induction s as [|t s IH]; [reflexivity|].
  cbn [filter Cooc.to_ids]. unfold Dict.mem at 1.
  destruct (Dict.get Py.eqb m t) as [i|] eqn:E.
  - cbn [Cooc.to_ids]. now rewrite E, IH.
  - exact IH.
Qed.

Lemma flat_map_perm_pointwise {A B : Type} (f g : A -> list B) (l : list A) :
  (forall x, In x l -> Permutation (f x) (g x)) ->
  Permutation (flat_map f l) (flat_map g l).
Proof.
  induction l as [|x l IH]; intros H; [constructor|].
  simpl. apply Permutation_app.
  - apply H. now left.
  - apply IH. intros y Hy. apply H. now right.
Qed.

Lemma flat_map_rev_perm {A B : Type} (f : A -> list B) (l : list A) :
  Permutation (flat_map f (rev l)) (flat_map f l).
Proof.
  apply Permutation_flat_map, Permutation_sym, Permutation_rev.
Qed.

Lemma filtered_ids_rev (m : Dict.dict pystr Z) (s : list pystr) :
  filtered_ids m (rev s) = rev (filtered_ids m s).
Proof.
  unfold filtered_ids. induction s as [|t s IH]; [reflexivity|].
  simpl. rewrite flat_map_app, IH. simpl. rewrite app_nil_r.
  destruct (Dict.get Py.eqb m t); [reflexivity|].
  now rewrite app_nil_r.
Qed.

Lemma positions_rev (ids : list Z) : positions (rev ids) = positions ids.
Proof. unfold positions. now rewrite length_rev. Qed.

(** Mirroring the positions of a sequence. *)
Lemma seq_mirror (n : nat) :
  map (fun k => n - 1 - k) (seq 0 n) = rev (seq 0 n).
Proof.
  induction n as [|n IH]; [reflexivity|].
  rewrite seq_S at 2. rewrite rev_app_distr. cbn [rev app plus].
  cbn [seq map]. f_equal; [lia|].
  rewrite <- seq_shift, map_map, <- IH.
  apply map_ext. intros k. lia.
Qed.

Lemma positions_mirror (ids : list Z) :
  map (fun i => (Z.of_nat (length ids) - 1 - i)%Z) (positions ids) =
  rev (positions ids).
Proof.
  unfold positions. rewrite <- map_rev, <- seq_mirror, !map_map.
  apply map_ext_in. intros k Hk. apply in_seq in Hk. lia.
Qed.

Lemma id_at_rev (ids : list Z) (i : Z) :
  (0 <= i < Z.of_nat (length ids))%Z ->
  id_at (rev ids) i = id_at ids (Z.of_nat (length ids) - 1 - i).
Proof.
  intros Hi. unfold id_at. rewrite rev_nth by lia. f_equal. lia.
Qed.

Lemma flat_map_of_map {A B C : Type} (f : B -> list C) (g : A -> B)
      (l : list A) :
  flat_map f (map g l) = flat_map (fun x => f (g x)) l.
Proof.
  induction l as [|x l IH]; [reflexivity|]. simpl. now rewrite IH.
Qed.

Lemma mem_accumulate64 cs (t : Cooc64.table) (k : Cooc.key) :
  Dict.mem Cooc.key_eqb (fold_left add64 cs t) k =
  Dict.mem Cooc.key_eqb t k || reached cs k.
Proof.
  pose proof (accumulate64_get cs t k) as H. unfold Dict.mem.
  destruct (Dict.get Cooc.key_eqb (fold_left add64 cs t) k) as [v|].
  - destruct H as [[H|H] _].
    + now destruct (Dict.get Cooc.key_eqb t k).
    + rewrite H. now rewrite orb_true_r.
  - destruct H as [-> ->]. reflexivity.
Qed.

Lemma weight_accumulate64 cs (t : Cooc64.table) (k : Cooc.key) :
  Dict.get_default Cooc.key_eqb (fold_left add64 cs t) k PrimFloat.zero =
  sum64 (Dict.get_default Cooc.key_eqb t k PrimFloat.zero) (weights_of cs k).
Proof.
  pose proof (accumulate64_get cs t k) as H. unfold Dict.get_default at 1.
  destruct (Dict.get Cooc.key_eqb (fold_left add64 cs t) k) as [v|].
  - now destruct H as [_ ->].
  - destruct H as [H1 H2]. unfold Dict.get_default. rewrite H1.
    unfold weights_of. replace (filter _ cs) with (@nil (Cooc.key * Z)).
    + reflexivity.
    + symmetry. unfold reached in H2.
      induction cs as [|c cs IH]; [reflexivity|].
      simpl in H2. apply orb_false_iff in H2. destruct H2 as [E1 E2].
      simpl. rewrite E1. now apply IH.
Qed.

Lemma keyed_perm (cs cs' : list (Cooc.key * Z)) (k : Cooc.key) :
  Permutation cs cs' ->
  Permutation (filter (fun c => Cooc.key_eqb (fst c) k) cs)
              (filter (fun c => Cooc.key_eqb (fst c) k) cs').
Proof.
  induction 1 as [|c l l' Hp IH|c d l|l1 l2 l3 H1 IH1 H2 IH2].
  - constructor.
  - simpl. destruct (Cooc.key_eqb (fst c) k); [now constructor|exact IH].
  - simpl. destruct (Cooc.key_eqb (fst c) k), (Cooc.key_eqb (fst d) k);
      try apply Permutation_refl.
    apply perm_swap.
  - now apply Permutation_trans with (2 := IH2).
Qed.

Lemma weights_of_perm (cs cs' : list (Cooc.key * Z)) (k : Cooc.key) :
  Permutation cs cs' -> Permutation (weights_of cs k) (weights_of cs' k).
Proof.
  intros Hp. unfold weights_of. apply Permutation_map. now apply keyed_perm.
Qed.

Lemma reached_perm (cs cs' : list (Cooc.key * Z)) (k : Cooc.key) :
  Permutation cs cs' -> reached cs k = reached cs' k.
Proof.
  intros Hp. unfold reached.
  destruct (existsb _ cs) eqn:E1; destruct (existsb _ cs') eqn:E2;
    try reflexivity.
  - apply existsb_exists in E1. destruct E1 as [c [Hc Hk]].
    assert (E : existsb (fun c => Cooc.key_eqb (fst c) k) cs' = true).
    { apply existsb_exists. exists c. split; [|exact Hk].
      now apply (Permutation_in _ Hp). }
    congruence.
  - apply existsb_exists in E2. destruct E2 as [c [Hc Hk]].
    assert (E : existsb (fun c => Cooc.key_eqb (fst c) k) cs = true).
    { apply existsb_exists. exists c. split; [|exact Hk].
      now apply (Permutation_in _ (Permutation_sym Hp)). }
    congruence.
Qed.

Lemma steps_rev (w : Z) (ids : list Z) :
  Permutation (steps w (rev ids)) (steps w ids).
Proof.
  unfold steps. rewrite positions_rev.
  set (n := Z.of_nat (length ids)).
  set (G := fun i j : Z =>
              if negb (i =? j)%Z && (Z.abs (i - j) <=? w)%Z
              then [(unordered (id_at ids i) (id_at ids j), Z.abs (i - j))]
              else []).
  assert (E : flat_map
                (fun i =>
                   flat_map
                     (fun j =>
                        if negb (i =? j)%Z && (Z.abs (i - j) <=? w)%Z
                        then [(unordered (id_at (rev ids) i) (id_at (rev ids) j),
                               Z.abs (i - j))]
                        else [])
                     (positions ids))
                (positions ids) =
              flat_map (fun i => flat_map (G i) (rev (positions ids)))
                       (rev (positions ids))).
  { rewrite <- positions_mirror. fold n.
    rewrite flat_map_of_map.
    apply flat_map_ext_on. intros i Hi.
    rewrite flat_map_of_map.
    apply flat_map_ext_on. intros j Hj.
    apply in_positions in Hi. apply in_positions in Hj. fold n in Hi, Hj.
    unfold G. rewrite !id_at_rev by (fold n; lia). fold n.
    replace (n - 1 - i =? n - 1 - j)%Z with (i =? j)%Z
      by (destruct (Z.eqb_spec i j), (Z.eqb_spec (n - 1 - i) (n - 1 - j));
          try reflexivity; lia).
    replace (Z.abs (n - 1 - i - (n - 1 - j))) with (Z.abs (i - j)) by lia.
    reflexivity. }
  rewrite E.
  eapply Permutation_trans; [apply flat_map_rev_perm|].
  apply flat_map_perm_pointwise. intros i _. apply flat_map_rev_perm.
Qed.

Lemma all_steps_app m (w : Z) (s1 s2 : list (list pystr)) :
  all_steps m w (s1 ++ s2) = all_steps m w s1 ++ all_steps m w s2.
Proof. unfold all_steps. apply flat_map_app. Qed.

Lemma all_steps_exchange m (w : Z) (s1 s2 : list (list pystr)) :
  Permutation (all_steps m w (s1 ++ s2)) (all_steps m w (s2 ++ s1)).
Proof. rewrite !all_steps_app. apply Permutation_app_comm. Qed.

Lemma all_steps_rev m (w : Z) (streams : list (list pystr)) :
  Permutation (all_steps m w (map (@rev pystr) streams))
              (all_steps m w streams).
Proof.
  unfold all_steps. rewrite flat_map_of_map.
  apply flat_map_perm_pointwise. intros s _.
  rewrite filtered_ids_rev. apply steps_rev.
Qed.

(* ================================================================== *)
(** * The exact weights and the binary64 weights *)
(* ================================================================== *)

Lemma map_of_flat_map {A B C : Type} (f : B -> C) (g : A -> list B)
      (l : list A) :
  map f (flat_map g l) = flat_map (fun x => map f (g x)) l.
Proof.
  induction l as [|x l IH]; [reflexivity|].
  simpl. now rewrite map_app, IH.
Qed.

(** The contributions are the steps with their exact weights. *)
Lemma contributions_steps (w : Z) (ids : list Z) :
  contributions w ids = map exact (steps w ids).
Proof.
  unfold contributions, steps. rewrite map_of_flat_map.
  apply flat_map_ext. intros i. rewrite map_of_flat_map.
  apply flat_map_ext. intros j.
  now destruct (negb (i =? j)%Z && (Z.abs (i - j) <=? w)%Z).
Qed.

Lemma all_contributions_steps m (w : Z) (streams : list (list pystr)) :
  all_contributions m w streams = map exact (all_steps m w streams).
Proof.
  unfold all_contributions, all_steps. rewrite map_of_flat_map.
  apply flat_map_ext. intros s. apply contributions_steps.
Qed.

Lemma keys_after_step (t : Cooc.table) (t64 : Cooc64.table)
      (c : Cooc.key * Z) :
  Dict.keys t64 = Dict.keys t ->
  Dict.keys (add64 t64 c) = Dict.keys (addc t (exact c)).
Proof.
  intros H. unfold add64, addc, Cooc64.add_weight, Cooc.add_weight.
  rewrite !keys_set. cbn [exact fst].
  assert (E : Dict.mem Cooc.key_eqb t64 (fst c) =
              Dict.mem Cooc.key_eqb t (fst c)).
  { destruct (Dict.mem Cooc.key_eqb t64 (fst c)) eqn:E1;
      destruct (Dict.mem Cooc.key_eqb t (fst c)) eqn:E2; try reflexivity.
    - apply (@mem_in_keys _ _ _ key_eqb_eq) in E1. rewrite H in E1.
      apply (@mem_in_keys _ _ _ key_eqb_eq) in E1. congruence.
    - apply (@mem_in_keys _ _ _ key_eqb_eq) in E2. rewrite <- H in E2.
      apply (@mem_in_keys _ _ _ key_eqb_eq) in E2. congruence. }
  rewrite E, H. reflexivity.
Qed.

(** The table in exact rationals and the table in binary64 hold the
    same keys, in the same order. *)
Lemma exact_table_keys (self : Cooc.t) (self64 : Cooc64.t)
      (streams : list (list pystr)) :
  Cooc64.window_size self64 = Cooc.window_size self ->
  Cooc64.token_to_id self64 = Cooc.token_to_id self ->
  Dict.keys (Cooc64.cooccurrence_counts self64) =
  Dict.keys (Cooc.cooccurrence_counts self) ->
  Dict.keys (Cooc64.cooccurrence_counts
               (Cooc64.compute_cooccurrence self64 streams)) =
  Dict.keys (Cooc.cooccurrence_counts
               (Cooc.compute_cooccurrence self streams)).
Proof.
  intros Hw Hm Hk.
  rewrite compute_cooccurrence64_fold, compute_cooccurrence_fold.
  rewrite Hw, Hm, all_contributions_steps.
  generalize (all_steps (Cooc.token_to_id self) (Cooc.window_size self)
                        streams) as cs.
  revert Hk.
  generalize (Cooc64.cooccurrence_counts self64) as t64.
  generalize (Cooc.cooccurrence_counts self) as t.
  intros t t64 Hk cs. revert t t64 Hk.
  induction cs as [|c cs IH]; intros t t64 Hk; [exact Hk|].
  cbn [map fold_left]. apply IH. now apply keys_after_step.
Qed.

(* ================================================================== *)
(** * The rows of the dense matrix *)
(* ================================================================== *)

Lemma enumerate_inverse (toks : list pystr) (t : pystr) (i : Z) :
  NoDup toks ->
  (Dict.get Py.eqb (by_token (Cooc.enumerate toks)) t = Some i <->
   Dict.get Z.eqb (Cooc.enumerate toks) i = Some t).
Proof.
  intros Hn.
  rewrite (@get_in_nodup _ _ _ str_eqb_eq).
  - rewrite (@get_in_nodup _ _ _ z_eqb_eq).
    + unfold by_token. rewrite in_map_iff. split.
      * intros [[i' t'] [[= -> ->] H]]. exact H.
      * intros H. now exists (i, t).
    + unfold Dict.keys, Cooc.enumerate. rewrite enumerate_from_fst.
      apply range_nodup.
  - unfold Cooc.enumerate. now rewrite by_token_keys.
Qed.

Lemma slice_to_split {A : Type} (l : list A) (k : Z) :
  exists rest, l = slice_to l k ++ rest.
Proof.
  destruct (slice_to_firstn l k) as [n ->].
  exists (skipn n l). symmetry. apply firstn_skipn.
Qed.

Lemma slice_to_length {A : Type} (l : list A) (k : Z) :
  (0 <= k)%Z -> (Z.of_nat (length (slice_to l k)) <= k)%Z.
Proof.
  intros Hk. unfold slice_to.
  replace (0 <=? k)%Z with true by (symmetry; now apply Z.leb_le).
  rewrite length_firstn. lia.
Qed.

Lemma lookups_length (m : Dict.dict pystr Z) (l : list (pystr * Z)) :
  length (flat_map (fun tc : pystr * Z =>
                      match Dict.get Py.eqb m (fst tc) with
                      | Some id => [id]
                      | None => []
                      end) l) <= length l.
Proof.
  induction l as [|tc l IH]; [simpl; lia|].
  simpl. rewrite length_app.
  destruct (Dict.get Py.eqb m (fst tc)); simpl; lia.
Qed.

Lemma lookups_in (m : Dict.dict pystr Z) (l : list (pystr * Z)) (i : Z) :
  In i (flat_map (fun tc : pystr * Z =>
                    match Dict.get Py.eqb m (fst tc) with
                    | Some id => [id]
                    | None => []
                    end) l) ->
  exists t, In t (map fst l) /\ Dict.get Py.eqb m t = Some i.
Proof.
  intros H. apply in_flat_map in H. destruct H as [tc [Htc H]].
  destruct (Dict.get Py.eqb m (fst tc)) as [id|] eqn:E; [|easy].
  destruct H as [<-|[]]. exists (fst tc). split; [now apply in_map|exact E].
Qed.

Lemma lookups_nodup (m : Dict.dict pystr Z) (l : list (pystr * Z)) :
  (forall t1 t2 i, Dict.get Py.eqb m t1 = Some i ->
                   Dict.get Py.eqb m t2 = Some i -> t1 = t2) ->
  NoDup (map fst l) ->
  NoDup (flat_map (fun tc : pystr * Z =>
                     match Dict.get Py.eqb m (fst tc) with
                     | Some id => [id]
                     | None => []
                     end) l).
Proof.
  intros Hinj. induction l as [|tc l IH]; intros Hn; [constructor|].
  simpl in Hn. inversion Hn as [|? ? Hx Hn']; subst.
  simpl. destruct (Dict.get Py.eqb m (fst tc)) as [i|] eqn:E.
  - simpl. constructor; [|now apply IH].
    intros Hin. apply lookups_in in Hin. destruct Hin as [t [Ht Hg]].
    rewrite (Hinj _ _ _ E Hg) in Hx. contradiction.
  - now apply IH.
Qed.

Lemma nodup_app_left {A : Type} (l1 l2 : list A) :
  NoDup (l1 ++ l2) -> NoDup l1.
Proof.
  induction l1 as [|x l1 IH]; intros H; [constructor|].
  simpl in H. inversion H as [|? ? Hx Hn]; subst.
  constructor; [|now apply IH].
  intros Hin. apply Hx. apply in_or_app. now left.
Qed.

Lemma nodup_within_range (l : list Z) (n : Z) :
  NoDup l -> (forall i, In i l -> (0 <= i < n)%Z) ->
  (Z.of_nat (length l) <= Z.max 0 n)%Z.
Proof.
  intros Hn Hr.
  assert (Hincl : incl l (Cooc.range 0 n)).
  { intros i Hi. apply in_range. now apply Hr. }
  pose proof (NoDup_incl_length Hn Hincl) as Hlen.
  unfold Cooc.range in Hlen. rewrite length_map, length_seq in Hlen. lia.
Qed.

(* ================================================================== *)
(** * Further properties of the code *)
(* ================================================================== *)

(** X1.  [parse_fasta] returns as many headers as sequences; no sequence
    it returns is empty (a record without residues is dropped together
    with its header), and none begins or ends with white space. *)
Theorem X1_parse_fasta_aligned_nonempty (lines : list pystr) :
  length (fst (BPEProcessor.parse_fasta lines)) =
  length (snd (BPEProcessor.parse_fasta lines)) /\
  Forall (fun s => s <> [] /\ strip s = s)
         (snd (BPEProcessor.parse_fasta lines)).
Proof.
  rewrite parse_fasta_state. cbn [fst snd].
  destruct (@read_lines_invariant lines (BPEProcessor.mk_fasta [] [] [] [])
              eq_refl (Forall_nil _) eq_refl) as [H1 [H2 H3]].
  destruct (flush_invariant _ H1 H2 H3) as [H4 H5].
  split; [exact H4|].
  apply Forall_forall. intros s Hs.
  rewrite Forall_forall in H5. destruct (H5 s Hs) as [Hn Ht].
  split; [exact Hn|now apply trimmed_strip].
Qed.

(** X2.  [parse_fasta] loses no residue and adds none: the returned
    sequences, put end to end, are the stripped lines that do not begin
    with [>], put end to end. *)
Theorem X2_parse_fasta_keeps_residues (lines : list pystr) :
  List.concat (snd (BPEProcessor.parse_fasta lines)) =
  List.concat (residue_lines lines).
Proof.
  rewrite parse_fasta_state. cbn [snd].
  rewrite flush_residues.
  apply (read_lines_residues lines (BPEProcessor.mk_fasta [] [] [] [])).
Qed.

(** X3.  [get_stats] holds one entry for each pair of symbols that are
    adjacent in some vocabulary entry, and its value is the sum, over
    the entries, of the frequency of the entry times the number of
    places where the pair occurs in it; other pairs have no entry. *)
Theorem X3_get_stats_sums_pair_frequencies (v : vocab_t) (p : pair) :
  NoDup (Dict.keys (get_stats v)) /\
  Dict.get pair_eqb (get_stats v) p =
  if occurs v p then Some (pair_frequency v p) else None.
Proof.
  split; [apply get_stats_nodup|apply get_stats_get].
Qed.

(** X4.  [merge_vocab] raises exactly when the vocabulary is not empty
    and [re.sub] rejects the joined pair as a replacement template (the
    template is compiled at the first substitution, so an empty
    vocabulary never raises). *)
Theorem X4_merge_vocab_raises_iff (p : pair) (v : vocab_t) :
  merge_vocab p v = None <->
  v <> [] /\ Re.parse_template (merged p) = None.
Proof.
  unfold merge_vocab. rewrite merge_vocab_from. unfold bad_rule.
  destruct (Re.parse_template (merged p)); split; intros [H1 H2];
    (split; [exact H1|congruence]).
Qed.

(** X5.  A merge uses up its pair.  On a vocabulary whose entries are
    tokens joined by single spaces, [merge_vocab] with a pair of tokens
    without backslash returns a vocabulary of the same kind in which
    the two symbols are nowhere adjacent: [get_stats] of the result has
    no entry for the pair. *)
Theorem X5_merged_pair_leaves_statistics (p : pair) (v : vocab_t) :
  is_token (fst p) = true -> is_token (snd p) = true ->
  plain_pair p = true ->
  forallb (fun e : pystr * Z => single_spaced (fst e)) v = true ->
  exists v',
    merge_vocab p v = Some v' /\
    forallb (fun e : pystr * Z => single_spaced (fst e)) v' = true /\
    Dict.get pair_eqb (get_stats v') p = None.
Proof.
  intros H1 H2 Hp Hv.
  destruct (merge_vocab p v) as [v'|] eqn:E.
  - exists v'. split; [reflexivity|].
    assert (Hall : forall e', In e' v' ->
                     single_spaced (fst e') = true /\
                     existsb (pair_eqb p) (adjacent (split (fst e'))) = false).
    { intros e' He'. unfold merge_vocab in E.
      destruct (@merge_vocab_entries p v [] v' E (fst e')) as [[]|[e [He Hm]]].
      { now apply in_map. }
      rewrite forallb_forall in Hv.
      destruct (@merge_word_single_spaced p (fst e) H1 H2 Hp (Hv e He))
        as [w' [Hw1 [Hw2 [Hw3 _]]]].
      rewrite Hw1 in Hm. injection Hm as <-. now split. }
    split.
    + apply forallb_forall. intros e' He'. now apply Hall.
    + rewrite get_stats_get.
      replace (occurs v' p) with false; [reflexivity|].
      symmetry. unfold occurs.
      destruct (existsb _ v') eqn:Ex; [|reflexivity].
      apply existsb_exists in Ex. destruct Ex as [e' [He' Hx]].
      destruct (Hall e' He') as [_ Hn]. congruence.
  - exfalso. unfold merge_vocab in E. apply merge_vocab_from in E.
    destruct E as [_ Hbad]. unfold bad_rule in Hbad.
    rewrite parse_template_plain in Hbad; [discriminate|].
    unfold plain_pair in Hp. apply andb_true_iff in Hp.
    unfold merged. rewrite no_backslash_app. now apply andb_true_iff.
Qed.

Lemma X5_merged_pair_leaves_statistics_witness :
  forallb (fun e : pystr * Z => single_spaced (fst e))
          [(str "<s> A A A </s>", 2%Z); (str "<s> A </s>", 1%Z)] = true /\
  exists v',
    merge_vocab (str "A", str "A")
                [(str "<s> A A A </s>", 2%Z); (str "<s> A </s>", 1%Z)]
    = Some v' /\
    forallb (fun e : pystr * Z => single_spaced (fst e)) v' = true /\
    Dict.get pair_eqb (get_stats v') (str "A", str "A") = None.
Proof.
  split; [reflexivity|].
  apply (@X5_merged_pair_leaves_statistics (str "A", str "A")
           [(str "<s> A A A </s>", 2%Z); (str "<s> A </s>", 1%Z)]);
    reflexivity.
Defined.

(** X6.  Every rule [learn_bpe] records is a pair of tokens: both
    symbols are non-empty and hold no white space, whatever the
    corpus. *)
Theorem X6_learned_rules_are_tokens :
  (forall (m : Z) (sequences : list pystr) (o : BPEProcessor.t),
      BPEProcessor.learn_bpe (BPEProcessor.init m) sequences = Some o ->
      Forall (fun p : pair =>
                is_token (fst p) = true /\ is_token (snd p) = true)
             (BPEProcessor.bpe_codes o)) /\
  (forall (m : Z) (corpus_text : pystr) (o : StandardBPE.t),
      StandardBPE.learn_bpe (StandardBPE.init m) corpus_text = Some o ->
      Forall (fun p : pair =>
                is_token (fst p) = true /\ is_token (snd p) = true)
             (StandardBPE.bpe_codes o)).
Proof.
  split.
  - intros m sequences o H. unfold BPEProcessor.learn_bpe in H.
    destruct (learn_loop _ _ _) as [[v codes]|] eqn:E; [|discriminate].
    injection H as <-. cbn [BPEProcessor.bpe_codes].
    apply learn_loop_greedy in E. destruct E as [new [-> G]].
    now apply greedy_rules_tokens in G.
  - intros m corpus_text o H. unfold StandardBPE.learn_bpe in H.
    destruct (learn_loop _ _ _) as [[v codes]|] eqn:E; [|discriminate].
    injection H as <-. cbn [StandardBPE.bpe_codes].
    apply learn_loop_greedy in E. destruct E as [new [-> G]].
    now apply greedy_rules_tokens in G.
Qed.

Lemma X6_learned_rules_are_tokens_witness :
  Forall (fun p : pair => is_token (fst p) = true /\ is_token (snd p) = true)
         (BPEProcessor.bpe_codes learned_processor) /\
  Forall (fun p : pair => is_token (fst p) = true /\ is_token (snd p) = true)
         (StandardBPE.bpe_codes learned_standard).
Proof.
  split.
  - apply (proj1 X6_learned_rules_are_tokens 1%Z [str "AA"; str "AB"]).
    vm_compute. reflexivity.
  - apply (proj2 X6_learned_rules_are_tokens 2%Z (str "AAAA")).
    vm_compute. reflexivity.
Defined.

(** X7.  [learn_bpe] on a new object records at most [num_merges] rules
    (none when [num_merges] is zero or negative), and it records fewer
    only when no two symbols are adjacent any more: every entry of the
    final vocabulary of [BPEProcessor] is then a single token. *)
Theorem X7_learn_bpe_stops_when_exhausted :
  (forall (m : Z) (sequences : list pystr) (o : BPEProcessor.t),
      BPEProcessor.learn_bpe (BPEProcessor.init m) sequences = Some o ->
      length (BPEProcessor.bpe_codes o) <= Z.to_nat m /\
      (length (BPEProcessor.bpe_codes o) < Z.to_nat m ->
       forall e, In e (BPEProcessor.vocab o) -> length (split (fst e)) <= 1)) /\
  (forall (m : Z) (corpus_text : pystr) (o : StandardBPE.t),
      StandardBPE.learn_bpe (StandardBPE.init m) corpus_text = Some o ->
      length (StandardBPE.bpe_codes o) <= Z.to_nat m).
Proof.
  split.
  - intros m sequences o H. unfold BPEProcessor.learn_bpe in H.
    destruct (learn_loop _ _ _) as [[v codes]|] eqn:E; [|discriminate].
    injection H as <-. cbn [BPEProcessor.bpe_codes BPEProcessor.vocab].
    apply learn_loop_length in E. destruct E as [new [-> [H1 H2]]].
    cbn [BPEProcessor.init BPEProcessor.bpe_codes BPEProcessor.num_merges
         app] in *.
    split; [exact H1|]. intros H3. now apply get_stats_empty, H2.
  - intros m corpus_text o H. unfold StandardBPE.learn_bpe in H.
    destruct (learn_loop _ _ _) as [[v codes]|] eqn:E; [|discriminate].
    injection H as <-. cbn [StandardBPE.bpe_codes].
    apply learn_loop_length in E. destruct E as [new [-> [H1 _]]].
    exact H1.
Qed.

Lemma X7_learn_bpe_stops_when_exhausted_witness :
  (length [(str "<s>", str "A"); (str "<s>A", str "</s>")] <= Z.to_nat 5 /\
   (length [(str "<s>", str "A"); (str "<s>A", str "</s>")] < Z.to_nat 5 ->
    forall e, In e [(str "<s>A</s>", 1%Z)] -> length (split (fst e)) <= 1)) /\
  length (StandardBPE.bpe_codes learned_standard) <= Z.to_nat 2.
Proof.
  split.
  - apply (proj1 X7_learn_bpe_stops_when_exhausted 5%Z [str "A"]
                 (BPEProcessor.mk 5
                    [(str "<s>", str "A"); (str "<s>A", str "</s>")]
                    [(str "<s>A</s>", 1%Z)])).
    vm_compute. reflexivity.
  - apply (proj2 X7_learn_bpe_stops_when_exhausted 2%Z (str "AAAA")).
    vm_compute. reflexivity.
Defined.

(** X8.  A corpus without a word.  [learn_bpe] of [BPEProcessor] on no
    sequence, and [learn_bpe] of [StandardBPE] on a text of white space
    only (the empty text too), record no rule and do not raise;
    [encode_corpus] of such a text is empty, whatever the rules. *)
Theorem X8_learn_bpe_on_empty_corpus :
  (forall m : Z,
      BPEProcessor.learn_bpe (BPEProcessor.init m) [] =
      Some (BPEProcessor.mk m [] [])) /\
  (forall (m : Z) (corpus_text : pystr),
      forallb isspace corpus_text = true ->
      StandardBPE.learn_bpe (StandardBPE.init m) corpus_text =
      Some (StandardBPE.mk m [] [])) /\
  (forall (self : StandardBPE.t) (corpus_text : pystr),
      forallb isspace corpus_text = true ->
      StandardBPE.encode_corpus self corpus_text = Some []).
Proof.
  split; [|split].
  - intros m. unfold BPEProcessor.learn_bpe.
    change (BPEProcessor.prepare_sequences []) with (@nil (pystr * Z)).
    now rewrite learn_loop_nothing.
  - intros m corpus_text H. unfold StandardBPE.learn_bpe.
    unfold StandardBPE.initial_vocab. rewrite (@split_spaces _ H).
    cbn [fold_left]. now rewrite learn_loop_nothing.
  - intros self corpus_text H. unfold StandardBPE.encode_corpus.
    rewrite split_strip, (@split_spaces _ H). reflexivity.
Qed.

Lemma X8_learn_bpe_on_empty_corpus_witness :
  BPEProcessor.learn_bpe (BPEProcessor.init 4) [] =
  Some (BPEProcessor.mk 4 [] []) /\
  StandardBPE.learn_bpe (StandardBPE.init 4) (str "   ") =
  Some (StandardBPE.mk 4 [] []) /\
  StandardBPE.encode_corpus learned_standard (str "   ") = Some [].
Proof.
  split; [|split].
  - apply (proj1 X8_learn_bpe_on_empty_corpus 4%Z).
  - apply (proj1 (proj2 X8_learn_bpe_on_empty_corpus) 4%Z (str "   ")).
    reflexivity.
  - apply (proj2 (proj2 X8_learn_bpe_on_empty_corpus) learned_standard
                 (str "   ")).
    reflexivity.
Defined.

(** X9.  The empty sequence.  [prepare_sequences] turns it into [<s>],
    two spaces, [</s>]; [get_stats] counts the pair of the two
    sentinels in it, but the substitution requires a single space and
    changes nothing.  So on a corpus of empty sequences [learn_bpe]
    never runs out of pairs: it records the same rule [num_merges]
    times and leaves the vocabulary as it was. *)
Theorem X9_learn_bpe_on_empty_sequences (m : Z) (k : nat) :
  BPEProcessor.learn_bpe (BPEProcessor.init m) (repeat [] (S k)) =
  Some (BPEProcessor.mk m
          (repeat (str "<s>", str "</s>") (Z.to_nat m))
          [(str "<s>  </s>", Z.of_nat (S k))]).
Proof.
  unfold BPEProcessor.learn_bpe.
  rewrite prepare_empty_sequences.
  cbn [BPEProcessor.init BPEProcessor.num_merges BPEProcessor.bpe_codes].
  now rewrite learn_loop_empty_sequences.
Qed.

(** X10.  Whether replaying the rules raises does not depend on the text:
    [apply_bpe] raises for every input, or for none, according to
    whether [re.sub] rejects the template of some rule (the rule need
    not match); [encode_corpus] then raises exactly when the corpus has
    a word. *)
Theorem X10_apply_bpe_raises_iff :
  (forall (self : BPEProcessor.t) (sequence : pystr),
      BPEProcessor.apply_bpe self sequence = None <->
      exists p, In p (BPEProcessor.bpe_codes self) /\
                Re.parse_template (merged p) = None) /\
  (forall (self : StandardBPE.t) (word : pystr),
      StandardBPE.apply_bpe self word = None <->
      exists p, In p (StandardBPE.bpe_codes self) /\
                Re.parse_template (merged p) = None) /\
  (forall (self : StandardBPE.t) (corpus_text : pystr),
      StandardBPE.encode_corpus self corpus_text = None <->
      split corpus_text <> [] /\
      exists p, In p (StandardBPE.bpe_codes self) /\
                Re.parse_template (merged p) = None).
Proof.
  split; [|split].
  - intros self sequence. rewrite <- bad_rule_exists.
    rewrite <- (replay_none _ (BPEProcessor.spaced sequence)).
    unfold BPEProcessor.apply_bpe. destruct (replay _ _); split; congruence.
  - intros self word. rewrite <- bad_rule_exists.
    rewrite <- (replay_none _ (join [" "%char]
                                     (StandardBPE.get_word_tokens word))).
    unfold StandardBPE.apply_bpe. destruct (replay _ _); split; congruence.
  - intros self corpus_text. rewrite <- bad_rule_exists.
    unfold StandardBPE.encode_corpus. rewrite split_strip.
    apply encode_none.
Qed.

(** X11.  With no rule, the tokens are the characters: [apply_bpe] of
    [BPEProcessor] returns [<s>], the characters of the sequence that
    are not white space, and [</s>]; [apply_bpe] of [StandardBPE]
    returns the characters of the word that are not white space and
    [</w>].  White space in the input is dropped. *)
Theorem X11_apply_bpe_without_rules :
  (forall (m : Z) (v : vocab_t) (sequence : pystr),
      BPEProcessor.apply_bpe (BPEProcessor.mk m [] v) sequence =
      Some (str "<s>" :: chars (nows sequence) ++ [str "</s>"])) /\
  (forall (m : Z) (v : list pystr) (word : pystr),
      StandardBPE.apply_bpe (StandardBPE.mk m [] v) word =
      Some (chars (nows word) ++ [str "</w>"])).
Proof.
  split.
  - intros m v sequence. unfold BPEProcessor.apply_bpe.
    cbn [BPEProcessor.bpe_codes replay]. now rewrite split_spaced.
  - intros m v word. unfold StandardBPE.apply_bpe.
    cbn [StandardBPE.bpe_codes replay]. now rewrite split_word_tokens.
Qed.

(** X12.  Learning from sequences without white space and without
    backslash never raises; the frequencies of the final vocabulary add
    up to the number of sequences; and the learned rules encode every
    sequence without white space (seen in training or not) into tokens
    whose concatenation is [<s>], the sequence, [</s>]. *)
Theorem X12_learn_then_apply_reconstructs (m : Z) (sequences : list pystr) :
  forallb wsfree sequences = true ->
  forallb no_backslash sequences = true ->
  exists o,
    BPEProcessor.learn_bpe (BPEProcessor.init m) sequences = Some o /\
    total (BPEProcessor.vocab o) = Z.of_nat (length sequences) /\
    forall seq, wsfree seq = true ->
                exists toks,
                  BPEProcessor.apply_bpe o seq = Some toks /\
                  Py.concat toks = str "<s>" ++ seq ++ str "</s>".
Proof.
  intros Hw Hb. unfold BPEProcessor.learn_bpe.
  destruct (@learn_loop_clean (Z.to_nat m)
              (BPEProcessor.prepare_sequences sequences) []
              (prepare_sequences_clean sequences Hw Hb) eq_refl)
    as [v' [codes' [H1 [H2 H3]]]].
  cbn [BPEProcessor.init BPEProcessor.num_merges BPEProcessor.bpe_codes].
  rewrite H1. eexists. split; [reflexivity|].
  cbn [BPEProcessor.vocab]. split.
  - unfold total. rewrite H3.
    apply (total_framed BPEProcessor.spaced sequences).
  - intros seq Hs. now apply apply_bpe_reconstructs.
Qed.

Lemma X12_learn_then_apply_reconstructs_witness :
  forallb wsfree [str "ACGT"; str "ACCA"] = true /\
  forallb no_backslash [str "ACGT"; str "ACCA"] = true /\
  exists o,
    BPEProcessor.learn_bpe (BPEProcessor.init 3) [str "ACGT"; str "ACCA"]
    = Some o /\
    total (BPEProcessor.vocab o) = Z.of_nat (length [str "ACGT"; str "ACCA"]) /\
    forall seq, wsfree seq = true ->
                exists toks,
                  BPEProcessor.apply_bpe o seq = Some toks /\
                  Py.concat toks = str "<s>" ++ seq ++ str "</s>".
Proof.
  split; [reflexivity|]. split; [reflexivity|].
  apply (@X12_learn_then_apply_reconstructs 3 [str "ACGT"; str "ACCA"]);
    reflexivity.
Defined.

(** X13.  [get_unique_tokens] returns the tokens of the vocabulary
    entries, each once, in strictly increasing lexicographic order. *)
Theorem X13_get_unique_tokens_sorted_distinct (self : BPEProcessor.t) :
  StronglySorted (fun a b => Py.leb a b = true /\ a <> b)
                 (BPEProcessor.get_unique_tokens self) /\
  forall t,
    In t (BPEProcessor.get_unique_tokens self) <->
    exists e, In e (BPEProcessor.vocab self) /\ In t (split (fst e)).
Proof.
  unfold BPEProcessor.get_unique_tokens.
  destruct (token_set_spec (BPEProcessor.vocab self)) as [Hn Hin].
  split.
  - apply sorted_nodup_strict; [apply sorted_sorted|].
    apply (Permutation_NoDup (Permutation_sym (sorted_perm _)) Hn).
  - intros t. rewrite <- Hin. split.
    + apply (Permutation_in _ (sorted_perm _)).
    + apply (Permutation_in _ (Permutation_sym (sorted_perm _))).
Qed.

(** X14.  The token column of the result file reads back: the tokens
    [apply_bpe] returns, joined by single spaces as
    [save_results_to_csv] writes them, are split by [load_bpe_results]
    into the same tokens. *)
Theorem X14_bpe_encoded_round_trip
        (self : BPEProcessor.t) (sequence : pystr) (bpe_tokens : list pystr) :
  BPEProcessor.apply_bpe self sequence = Some bpe_tokens ->
  Cooc.load_tokens (BPEProcessor.bpe_encoded bpe_tokens) = bpe_tokens.
Proof.
  unfold BPEProcessor.apply_bpe, Cooc.load_tokens, BPEProcessor.bpe_encoded.
  destruct (replay _ _) as [word|]; [|discriminate].
  intros [= <-]. apply split_join. apply forallb_split_tokens.
Qed.

Lemma X14_bpe_encoded_round_trip_witness :
  BPEProcessor.apply_bpe learned_processor (str "AA")
  = Some [str "<s>A"; str "A"; str "</s>"] /\
  Cooc.load_tokens (BPEProcessor.bpe_encoded [str "<s>A"; str "A"; str "</s>"])
  = [str "<s>A"; str "A"; str "</s>"].
Proof.
  split; [reflexivity|].
  apply (@X14_bpe_encoded_round_trip learned_processor (str "AA")).
  reflexivity.
Defined.

(** X15.  The two FASTA readers agree: the sequences that
    [parse_fasta_to_corpus] tags are the sequences [parse_fasta]
    returns for the same lines. *)
Theorem X15_fasta_readers_agree (lines : list pystr) :
  StandardBPE.fasta_sequences lines = snd (BPEProcessor.parse_fasta lines).
Proof.
  rewrite parse_fasta_state. apply fasta_sequences_state.
Qed.

(** X16.  When the residue lines hold no inner white space, the words of
    the corpus text of [parse_fasta_to_corpus] are the sequences, each
    between [<s>] and [</s>]: splitting the text gives back one word
    for each sequence. *)
Theorem X16_parse_fasta_to_corpus_words (lines : list pystr) :
  forallb wsfree (residue_lines lines) = true ->
  split (StandardBPE.parse_fasta_to_corpus lines) =
  map StandardBPE.tagged (StandardBPE.fasta_sequences lines).
Proof.
  intros Hl. unfold StandardBPE.parse_fasta_to_corpus.
  apply split_join.
  rewrite fasta_sequences_state.
  destruct (@read_lines_wsfree lines Hl (BPEProcessor.mk_fasta [] [] [] [])
              eq_refl eq_refl) as [H1 H2].
  pose proof (flush_wsfree _ H1 H2) as H3.
  rewrite forallb_forall in *. intros t Ht.
  apply in_map_iff in Ht. destruct Ht as [s [<- Hs]].
  unfold StandardBPE.tagged. cbn [is_token str list_ascii_of_string app].
  cbn [wsfree forallb]. change (isspace "<"%char) with false.
  change (isspace "s"%char) with false. change (isspace ">"%char) with false.
  cbn [negb andb]. fold (wsfree (s ++ str "</s>")).
  rewrite wsfree_app, (H3 s Hs). reflexivity.
Qed.

Lemma X16_parse_fasta_to_corpus_words_witness :
  forallb wsfree
          (residue_lines [str ">one"; str "ACG "; str " TT"; str ">two";
                          str ""; str ">three"; str "GG"]) = true /\
  split (StandardBPE.parse_fasta_to_corpus
           [str ">one"; str "ACG "; str " TT"; str ">two";
            str ""; str ">three"; str "GG"]) =
  map StandardBPE.tagged
      (StandardBPE.fasta_sequences
         [str ">one"; str "ACG "; str " TT"; str ">two";
          str ""; str ">three"; str "GG"]).
Proof.
  split; [reflexivity|].
  apply (@X16_parse_fasta_to_corpus_words
           [str ">one"; str "ACG "; str " TT"; str ">two";
            str ""; str ">three"; str "GG"]).
  reflexivity.
Defined.

(** X17.  Learning from a corpus text without backslash never raises, and
    [encode_corpus] with the learned rules encodes every text into
    tokens whose concatenation is the words of the text, each followed
    by [</w>]. *)
Theorem X17_learn_then_encode_reconstructs (m : Z) (corpus_text : pystr) :
  no_backslash corpus_text = true ->
  exists o,
    StandardBPE.learn_bpe (StandardBPE.init m) corpus_text = Some o /\
    forall text,
    exists toks,
      StandardBPE.encode_corpus o text = Some toks /\
      Py.concat toks =
      List.concat (map (fun w => w ++ str "</w>") (split text)).
Proof.
  intros Hb. unfold StandardBPE.learn_bpe.
  destruct (@learn_loop_clean (Z.to_nat m)
              (StandardBPE.initial_vocab corpus_text) []
              (initial_vocab_clean corpus_text Hb) eq_refl)
    as [v' [codes' [H1 [H2 _]]]].
  cbn [StandardBPE.init StandardBPE.num_merges StandardBPE.bpe_codes].
  rewrite H1. eexists. split; [reflexivity|].
  intros text. unfold StandardBPE.encode_corpus. rewrite split_strip.
  apply encode_words_reconstruct; [exact H2|].
  apply forallb_forall. intros w Hin.
  apply is_token_wsfree. now apply split_tokens in Hin.
Qed.

Lemma X17_learn_then_encode_reconstructs_witness :
  no_backslash (str "<s>ACGT</s> <s>ACCA</s>") = true /\
  exists o,
    StandardBPE.learn_bpe (StandardBPE.init 3) (str "<s>ACGT</s> <s>ACCA</s>")
    = Some o /\
    forall text,
    exists toks,
      StandardBPE.encode_corpus o text = Some toks /\
      Py.concat toks =
      List.concat (map (fun w => w ++ str "</w>") (split text)).
Proof.
  split; [reflexivity|].
  apply (@X17_learn_then_encode_reconstructs 3 (str "<s>ACGT</s> <s>ACCA</s>")).
  reflexivity.
Defined.

(** X18.  [encode_corpus] works word by word: encoding two texts joined
    by a white-space character gives the tokens of the first followed
    by the tokens of the second (and raises when either raises). *)
Theorem X18_encode_corpus_concatenation
        (self : StandardBPE.t) (a b : pystr) (c : ascii) :
  isspace c = true ->
  StandardBPE.encode_corpus self (a ++ c :: b) =
  match StandardBPE.encode_corpus self a with
  | None => None
  | Some ta =>
      match StandardBPE.encode_corpus self b with
      | None => None
      | Some tb => Some (ta ++ tb)
      end
  end.
Proof.
  intros Hc. unfold StandardBPE.encode_corpus.
  rewrite !split_strip. unfold split.
  rewrite (@split_from_app_space a b c Hc []). rewrite fold_left_app.
  destruct (fold_left _ (split_from [] a) (Some [])) as [ta|].
  - rewrite encode_from.
    now destruct (fold_left _ (split_from [] b) (Some [])).
  - induction (split_from [] b) as [|x l IH]; [reflexivity|exact IH].
Qed.

Lemma X18_encode_corpus_concatenation_witness :
  isspace "010"%char = true /\
  StandardBPE.encode_corpus learned_standard (str "AAAA" ++ "010"%char :: str "AA") =
  match StandardBPE.encode_corpus learned_standard (str "AAAA") with
  | None => None
  | Some ta =>
      match StandardBPE.encode_corpus learned_standard (str "AA") with
      | None => None
      | Some tb => Some (ta ++ tb)
      end
  end.
Proof.
  split; [reflexivity|].
  apply (@X18_encode_corpus_concatenation learned_standard (str "AAAA") (str "AA")
                                       "010"%char).
  reflexivity.
Defined.

(** X19.  The counters count occurrences.  [build_vocabulary] adds to
    [token_counts] the number of occurrences of every token of the
    sequences (so a second call counts on top of the first), and
    [get_token_frequencies] maps every token of its argument to its
    number of occurrences; a token that does not occur gets no entry. *)
Theorem X19_token_counters_count_occurrences :
  (forall (self : Cooc.t) (token_sequences : list (list pystr)) (t : pystr),
      Dict.get Py.eqb
               (Cooc.token_counts (Cooc.build_vocabulary self token_sequences))
               t =
      if (count_of t (List.concat token_sequences) =? 0)%Z
      then Dict.get Py.eqb (Cooc.token_counts self) t
      else Some (Dict.get_default Py.eqb (Cooc.token_counts self) t 0 +
                 count_of t (List.concat token_sequences))%Z) /\
  (forall (encoded_tokens : list pystr) (t : pystr),
      Dict.get Py.eqb (StandardBPE.get_token_frequencies encoded_tokens) t =
      if (count_of t encoded_tokens =? 0)%Z then None
      else Some (count_of t encoded_tokens)).
Proof.
  split.
  - intros self token_sequences t.
    unfold Cooc.build_vocabulary. cbn [Cooc.token_counts].
    rewrite count_tokens_tally. apply tally_all_get.
  - intros encoded_tokens t.
    unfold StandardBPE.get_token_frequencies.
    change (fold_left _ encoded_tokens [])
      with (fold_left tally encoded_tokens []).
    rewrite tally_all_get. reflexivity.
Qed.

(** X20.  [build_vocabulary] on a new object numbers the kept tokens
    0, 1, 2, ... in strictly increasing lexicographic order, and
    [id_to_token] lists the same tokens under the same ids. *)
Theorem X20_build_vocabulary_numbers_sorted_tokens
        (w mc : Z) (token_sequences : list (list pystr)) :
  let self := Cooc.build_vocabulary (Cooc.init w mc) token_sequences in
  StronglySorted (fun a b => Py.leb a b = true /\ a <> b)
                 (Dict.keys (Cooc.token_to_id self)) /\
  Dict.values (Cooc.token_to_id self) = Cooc.range 0 (Cooc.vocab_size self) /\
  Dict.keys (Cooc.id_to_token self) = Cooc.range 0 (Cooc.vocab_size self) /\
  Dict.values (Cooc.id_to_token self) = Dict.keys (Cooc.token_to_id self).
Proof.
  intros self.
  destruct (build_vocabulary_fresh w mc token_sequences)
    as [toks [H1 [H2 [H3 [H4 [H5 _]]]]]].
  cbv zeta in H1, H2, H3. fold self in H1, H2, H3.
  rewrite H1, H2, H3. unfold Cooc.enumerate.
  rewrite by_token_keys, by_token_values.
  unfold Dict.keys, Dict.values.
  rewrite enumerate_from_fst, enumerate_from_snd.
  repeat split; try reflexivity.
  now apply sorted_nodup_strict.
Qed.

(** X21.  After [build_vocabulary] on a new object a token has an id
    exactly when it occurs in the sequences at least [min_count]
    times. *)
Theorem X21_build_vocabulary_keeps_tokens_by_count
        (w mc : Z) (token_sequences : list (list pystr)) (t : pystr) :
  let self := Cooc.build_vocabulary (Cooc.init w mc) token_sequences in
  Dict.mem Py.eqb (Cooc.token_to_id self) t = true <->
  (0 < count_of t (List.concat token_sequences))%Z /\
  (mc <= count_of t (List.concat token_sequences))%Z.
Proof.
  intros self.
  destruct (build_vocabulary_fresh w mc token_sequences)
    as [toks [H1 [_ [_ [_ [_ H6]]]]]].
  cbv zeta in H1, H6. fold self in H1.
  rewrite (@mem_in_keys _ _ _ str_eqb_eq), H1.
  unfold Cooc.enumerate. rewrite by_token_keys. apply H6.
Qed.

(** X22.  After [build_vocabulary] on a new object the two mappings are
    inverse to each other: [token_to_id[t] == i] exactly when
    [id_to_token[i] == t]. *)
Theorem X22_build_vocabulary_mappings_inverse
        (w mc : Z) (token_sequences : list (list pystr)) (t : pystr) (i : Z) :
  let self := Cooc.build_vocabulary (Cooc.init w mc) token_sequences in
  Dict.get Py.eqb (Cooc.token_to_id self) t = Some i <->
  Dict.get Z.eqb (Cooc.id_to_token self) i = Some t.
Proof.
  intros self.
  destruct (build_vocabulary_fresh w mc token_sequences)
    as [toks [H1 [H2 [_ [_ [H5 _]]]]]].
  cbv zeta in H1, H2. fold self in H1, H2. rewrite H1, H2.
  rewrite (@get_in_nodup _ _ _ str_eqb_eq).
  - rewrite (@get_in_nodup _ _ _ z_eqb_eq).
    + unfold by_token. rewrite in_map_iff. split.
      * intros [[i' t'] [[= -> ->] H]]. exact H.
      * intros H. now exists (i, t).
    + unfold Dict.keys, Cooc.enumerate. rewrite enumerate_from_fst.
      apply range_nodup.
  - unfold Cooc.enumerate. now rewrite by_token_keys.
Qed.

(** X23.  A window size of zero or less records nothing:
    [compute_cooccurrence] leaves the table as it was. *)
Theorem X23_compute_cooccurrence_without_window
        (self : Cooc.t) (streams : list (list pystr)) :
  (Cooc.window_size self <= 0)%Z ->
  Cooc.cooccurrence_counts (Cooc.compute_cooccurrence self streams) =
  Cooc.cooccurrence_counts self.
Proof.
  intros Hw. rewrite compute_cooccurrence_fold.
  replace (all_contributions _ _ _) with (@nil (Cooc.key * Q)); [reflexivity|].
  unfold all_contributions. symmetry.
  induction streams as [|s streams IH]; [reflexivity|].
  simpl. rewrite IH, app_nil_r. now apply contributions_nowhere.
Qed.

Lemma X23_compute_cooccurrence_without_window_witness :
  (Cooc.window_size
     (Cooc.build_vocabulary (Cooc.init 0 1) [[str "x"; str "y"]]) <= 0)%Z /\
  Cooc.cooccurrence_counts
    (Cooc.compute_cooccurrence
       (Cooc.build_vocabulary (Cooc.init 0 1) [[str "x"; str "y"]])
       [[str "x"; str "y"]]) =
  Cooc.cooccurrence_counts
    (Cooc.build_vocabulary (Cooc.init 0 1) [[str "x"; str "y"]]).
Proof.
  split; [vm_compute; discriminate|].
  apply (@X23_compute_cooccurrence_without_window
           (Cooc.build_vocabulary (Cooc.init 0 1) [[str "x"; str "y"]])
           [[str "x"; str "y"]]).
  vm_compute. discriminate.
Defined.

(** X24.  On an object whose vocabulary and table were built by
    [build_vocabulary] and [compute_cooccurrence], no row of
    [save_cooccurrence_csv] fails to find its two tokens: writing the
    file aside, the function returns the number of rows, whatever
    [top_n]. *)
Theorem X24_save_cooccurrence_csv_finds_every_token
        (w mc : Z) (token_sequences streams : list (list pystr))
        (top_n : option Z) :
  let self :=
    Cooc.compute_cooccurrence
      (Cooc.build_vocabulary (Cooc.init w mc) token_sequences) streams in
  Cooc.save_cooccurrence_csv self top_n =
  Some (Z.of_nat (length (Cooc.sorted_pairs self top_n))).
Proof.
  intros self. unfold Cooc.save_cooccurrence_csv.
  replace (forallb _ _) with true; [reflexivity|].
  symmetry. apply forallb_forall. intros e He.
  apply sorted_pairs_in in He.
  apply (table_keys_known w mc token_sequences streams) in He.
  fold self in He.
  destruct (build_vocabulary_fresh w mc token_sequences)
    as [toks [_ [H2 [H3 _]]]].
  cbv zeta in H2, H3.
  unfold self in *. cbn [Cooc.compute_cooccurrence Cooc.id_to_token
                          Cooc.vocab_size] in *.
  rewrite H2. rewrite H3 in He.
  apply andb_true_iff. split; now apply enumerate_lookup.
Qed.

(** X25.  The rows [save_cooccurrence_csv] writes are in order of
    non-increasing weight; they are the table entries without the
    entries [rest] that [top_n] cuts off, no entry cut off weighs more
    than a row written, and nothing is cut off when [top_n] is [None]
    or [0]. *)
Theorem X25_sorted_pairs_heaviest_first (self : Cooc.t) (top_n : option Z) :
  let rows := Cooc.sorted_pairs self top_n in
  StronglySorted (fun a b : Cooc.key * Q => (snd b <= snd a)%Q) rows /\
  exists rest,
    Permutation (rows ++ rest) (Cooc.cooccurrence_counts self) /\
    (forall a b, In a rows -> In b rest -> (snd b <= snd a)%Q) /\
    match top_n with
    | None => rest = []
    | Some n =>
        if (n =? 0)%Z then rest = []
        else if (0 <? n)%Z
             then length rows =
                  Nat.min (Z.to_nat n)
                          (length (Cooc.cooccurrence_counts self))
             else length rest =
                  Nat.min (Z.to_nat (- n))
                          (length (Cooc.cooccurrence_counts self))
    end.
Proof.
  intros rows.
  set (all := sorted_desc Cooc.weight_lt (Cooc.cooccurrence_counts self)).
  assert (Hlen : length all = length (Cooc.cooccurrence_counts self))
    by apply (Permutation_length (sorted_desc_perm _ _)).
  assert (Hall : forall n,
             StronglySorted (fun a b : Cooc.key * Q => (snd b <= snd a)%Q)
                            (firstn n all) /\
             Permutation (firstn n all ++ skipn n all)
                         (Cooc.cooccurrence_counts self) /\
             (forall a b, In a (firstn n all) -> In b (skipn n all) ->
                          (snd b <= snd a)%Q)).
  { intros n. pose proof (weights_sorted (Cooc.cooccurrence_counts self)) as Hs.
    fold all in Hs. rewrite <- (firstn_skipn n all) in Hs.
    apply strongly_sorted_app in Hs. destruct Hs as [Hs1 Hs2].
    repeat split; auto.
    rewrite firstn_skipn. apply sorted_desc_perm. }
  assert (Hfull : firstn (length all) all = all /\ skipn (length all) all = [])
    by (split; [apply firstn_all|apply skipn_all]).
  destruct Hfull as [Hf1 Hf2].
  unfold rows, Cooc.sorted_pairs. fold all.
  destruct top_n as [n|].
  - destruct (n =? 0)%Z eqn:E0.
    + destruct (Hall (length all)) as [H1 [H2 H3]].
      rewrite Hf1 in H1, H2, H3. rewrite Hf2 in H2, H3.
      split; [exact H1|]. exists []. auto.
    + unfold slice_to. destruct (0 <=? n)%Z eqn:E1.
      * destruct (Hall (Z.to_nat n)) as [H1 [H2 H3]].
        split; [exact H1|]. exists (skipn (Z.to_nat n) all).
        repeat split; auto.
        replace (0 <? n)%Z with true
          by (symmetry; apply Z.ltb_lt; apply Z.eqb_neq in E0;
              apply Z.leb_le in E1; lia).
        rewrite length_firstn. lia.
      * destruct (Hall (length all - Z.to_nat (- n))) as [H1 [H2 H3]].
        split; [exact H1|]. exists (skipn (length all - Z.to_nat (- n)) all).
        repeat split; auto.
        replace (0 <? n)%Z with false
          by (symmetry; apply Z.ltb_ge; apply Z.leb_gt in E1; lia).
        rewrite length_skipn. lia.
  - destruct (Hall (length all)) as [H1 [H2 H3]].
    rewrite Hf1 in H1, H2, H3. rewrite Hf2 in H2, H3.
    split; [exact H1|]. exists []. auto.
Qed.

(** X26.  The dense matrix of [save_dense_matrix_csv] is square, with one
    row and one column for each of the top token ids, and symmetric. *)
Theorem X26_dense_matrix_square_symmetric (self : Cooc.t) (max_tokens : Z) :
  let matrix := Cooc.dense_matrix self max_tokens in
  let n := length (Cooc.top_token_ids self max_tokens) in
  length matrix = n /\
  Forall (fun row => length row = n) matrix /\
  forall i j, nth j (nth i matrix []) 0%Q = nth i (nth j matrix []) 0%Q.
Proof.
  intros matrix n. unfold matrix, Cooc.dense_matrix.
  fold n. set (ids := Cooc.top_token_ids self max_tokens) in *.
  split; [apply length_map|]. split.
  - apply Forall_forall. intros row Hrow.
    apply in_map_iff in Hrow. destruct Hrow as [a [<- _]]. apply length_map.
  - intros i j.
    destruct (Nat.lt_ge_cases i n) as [Hi|Hi];
      destruct (Nat.lt_ge_cases j n) as [Hj|Hj].
    + rewrite (@nth_map_in _ _ _ ids i [] 0%Z Hi).
      rewrite (@nth_map_in _ _ _ ids j [] 0%Z Hj).
      rewrite (@nth_map_in _ _ _ ids j 0%Q 0%Z Hj).
      rewrite (@nth_map_in _ _ _ ids i 0%Q 0%Z Hi).
      now rewrite Z.min_comm, Z.max_comm.
    + rewrite (@nth_map_in _ _ _ ids i [] 0%Z Hi).
      rewrite (nth_overflow (map _ ids) 0%Q) by (rewrite length_map; exact Hj).
      rewrite (nth_overflow (map _ ids) []) by (rewrite length_map; exact Hj).
      now destruct i.
    + rewrite (nth_overflow (map _ ids) []) by (rewrite length_map; exact Hi).
      rewrite (@nth_map_in _ _ _ ids j [] 0%Z Hj).
      rewrite (nth_overflow (map _ ids) 0%Q) by (rewrite length_map; exact Hi).
      now destruct j.
    + rewrite !(nth_overflow (map _ ids) []) by (rewrite length_map; assumption).
      now destruct i, j.
Qed.

(** X27.  A second [learn_bpe] on the same object does not start over:
    it learns what a new object with the same [num_merges] learns from
    the corpus, and appends these rules to the rules the object already
    has (which [apply_bpe] then replays first); it raises exactly when
    the new object raises. *)
Theorem X27_learn_bpe_appends_to_earlier_rules :
  (forall (self : BPEProcessor.t) (sequences : list pystr),
      BPEProcessor.learn_bpe self sequences =
      match BPEProcessor.learn_bpe
              (BPEProcessor.init (BPEProcessor.num_merges self)) sequences with
      | Some o =>
          Some (BPEProcessor.mk
                  (BPEProcessor.num_merges self)
                  (BPEProcessor.bpe_codes self ++ BPEProcessor.bpe_codes o)
                  (BPEProcessor.vocab o))
      | None => None
      end) /\
  (forall (self : StandardBPE.t) (corpus_text : pystr),
      StandardBPE.learn_bpe self corpus_text =
      match StandardBPE.learn_bpe
              (StandardBPE.init (StandardBPE.num_merges self)) corpus_text with
      | Some o =>
          Some (StandardBPE.mk
                  (StandardBPE.num_merges self)
                  (StandardBPE.bpe_codes self ++ StandardBPE.bpe_codes o)
                  (StandardBPE.vocab o))
      | None => None
      end).
Proof.
  split.
  - intros self sequences. unfold BPEProcessor.learn_bpe.
    cbn [BPEProcessor.init BPEProcessor.num_merges BPEProcessor.bpe_codes].
    rewrite learn_loop_prefix.
    now destruct (learn_loop _ _ []) as [[v new]|].
  - intros self corpus_text. unfold StandardBPE.learn_bpe.
    cbn [StandardBPE.init StandardBPE.num_merges StandardBPE.bpe_codes].
    rewrite learn_loop_prefix.
    now destruct (learn_loop _ _ []) as [[v new]|].
Qed.

(** X28.  [compute_cooccurrence] drops the tokens that have no id
    before it slides the window: removing them from the sequences
    changes nothing, so the distance between two tokens does not count
    the unknown tokens between them. *)
Theorem X28_compute_cooccurrence_skips_unknown_tokens
        (self : Cooc.t) (token_sequences : list (list pystr)) :
  Cooc.compute_cooccurrence
    self
    (map (filter (fun t => Dict.mem Py.eqb (Cooc.token_to_id self) t))
         token_sequences) =
  Cooc.compute_cooccurrence self token_sequences.
Proof.
  unfold Cooc.compute_cooccurrence. f_equal.
  rewrite fold_left_of_map. apply fold_left_ext_in.
  intros counts s _. now rewrite to_ids_known_only.
Qed.

(** X29.  The table accumulates: two calls of [compute_cooccurrence]
    give the object of one call on all the sequences.  Exchanging two
    batches of sequences, or reading every sequence backwards, leaves
    the keys as they are.  After a call the weight of a key, [0.0] for
    a missing key, is its weight before the call to which the weights
    of its steps were added one after the other in binary64; under
    both changes of order a key receives the same weights, in another
    order.  The sums are rounded, so they may differ: with window 3,
    the ids [A -> 0] and [C -> 1] and the sequence [A A A C A], the
    key [(0, 1)] holds [6380099472108202 * 2 ^ -50], and one more unit
    in the last place for the sequence read backwards; the sequences
    [A A] and [A A A A] give the key [(0, 0)] the weight
    [6004799503160662 * 2 ^ -49] in this order and one unit less in the
    other. *)
Theorem X29_order_of_input_keeps_keys_not_rounding :
  (forall (self : Cooc64.t) (s1 s2 : list (list pystr)),
      Cooc64.compute_cooccurrence (Cooc64.compute_cooccurrence self s1) s2 =
      Cooc64.compute_cooccurrence self (s1 ++ s2)) /\
  (forall (self : Cooc64.t) (s1 s2 : list (list pystr)) (k : Cooc.key),
      Dict.mem Cooc.key_eqb
               (Cooc64.cooccurrence_counts
                  (Cooc64.compute_cooccurrence self (s1 ++ s2))) k =
      Dict.mem Cooc.key_eqb
               (Cooc64.cooccurrence_counts
                  (Cooc64.compute_cooccurrence self (s2 ++ s1))) k) /\
  (forall (self : Cooc64.t) (token_sequences : list (list pystr))
          (k : Cooc.key),
      Dict.mem Cooc.key_eqb
               (Cooc64.cooccurrence_counts
                  (Cooc64.compute_cooccurrence
                     self (map (@rev pystr) token_sequences))) k =
      Dict.mem Cooc.key_eqb
               (Cooc64.cooccurrence_counts
                  (Cooc64.compute_cooccurrence self token_sequences)) k) /\
  (forall (self : Cooc64.t) (token_sequences : list (list pystr))
          (k : Cooc.key),
      Dict.get_default
        Cooc.key_eqb
        (Cooc64.cooccurrence_counts
           (Cooc64.compute_cooccurrence self token_sequences))
        k PrimFloat.zero =
      sum64 (Dict.get_default Cooc.key_eqb (Cooc64.cooccurrence_counts self)
                              k PrimFloat.zero)
            (weights_of (all_steps (Cooc64.token_to_id self)
                                   (Cooc64.window_size self) token_sequences)
                        k)) /\
  (forall (m : Dict.dict pystr Z) (w : Z) (s1 s2 : list (list pystr))
          (k : Cooc.key),
      Permutation (weights_of (all_steps m w (s1 ++ s2)) k)
                  (weights_of (all_steps m w (s2 ++ s1)) k)) /\
  (forall (m : Dict.dict pystr Z) (w : Z) (token_sequences : list (list pystr))
          (k : Cooc.key),
      Permutation
        (weights_of (all_steps m w (map (@rev pystr) token_sequences)) k)
        (weights_of (all_steps m w token_sequences) k)) /\
  binary64_of (Dict.get Cooc.key_eqb (table64_of 3 [[A; A; A; C; A]])
                        (0, 1)%Z) =
  Some (SpecFloat.S754_finite false 6380099472108202 (-50)) /\
  binary64_of (Dict.get Cooc.key_eqb
                        (table64_of 3 (map (@rev pystr) [[A; A; A; C; A]]))
                        (0, 1)%Z) =
  Some (SpecFloat.S754_finite false 6380099472108203 (-50)) /\
  binary64_of (Dict.get Cooc.key_eqb
                        (table64_of 3 ([[A; A]] ++ [[A; A; A; A]]))
                        (0, 0)%Z) =
  Some (SpecFloat.S754_finite false 6004799503160662 (-49)) /\
  binary64_of (Dict.get Cooc.key_eqb
                        (table64_of 3 ([[A; A; A; A]] ++ [[A; A]]))
                        (0, 0)%Z) =
  Some (SpecFloat.S754_finite false 6004799503160661 (-49)).
Proof.
  split; [|split; [|split; [|split; [|split; [|split]]]]].
  - intros self s1 s2. unfold Cooc64.compute_cooccurrence.
    cbn [Cooc64.window_size Cooc64.min_count Cooc64.token_to_id
         Cooc64.id_to_token Cooc64.token_counts Cooc64.cooccurrence_counts
         Cooc64.vocab_size].
    now rewrite fold_left_app.
  - intros self s1 s2 k. rewrite !compute_cooccurrence64_fold.
    rewrite !mem_accumulate64. f_equal.
    apply reached_perm, all_steps_exchange.
  - intros self token_sequences k. rewrite !compute_cooccurrence64_fold.
    rewrite !mem_accumulate64. f_equal.
    apply reached_perm, all_steps_rev.
  - intros self token_sequences k. rewrite compute_cooccurrence64_fold.
    apply weight_accumulate64.
  - intros m w s1 s2 k. apply weights_of_perm, all_steps_exchange.
  - intros m w token_sequences k. apply weights_of_perm, all_steps_rev.
  - vm_compute. repeat split.
Qed.

(** X30.  On an object whose vocabulary was built by
    [build_vocabulary] from a new object, [save_dense_matrix_csv]
    finds the token of every selected id (no [KeyError]) and, writing
    the file aside, returns the number of rows; the selected ids are
    distinct, there are at most [vocab_size] of them, and at most
    [max_tokens] when [max_tokens] is not negative. *)
Theorem X30_save_dense_matrix_csv_rows
        (w mc : Z) (token_sequences streams : list (list pystr))
        (max_tokens : Z) :
  let self :=
    Cooc.compute_cooccurrence
      (Cooc.build_vocabulary (Cooc.init w mc) token_sequences) streams in
  let ids := Cooc.top_token_ids self max_tokens in
  Cooc.save_dense_matrix_csv self max_tokens = Some (Z.of_nat (length ids)) /\
  NoDup ids /\
  (Z.of_nat (length ids) <= Cooc.vocab_size self)%Z /\
  ((max_tokens < 0)%Z \/ (Z.of_nat (length ids) <= max_tokens)%Z).
Proof.
  intros self ids.
  destruct (build_vocabulary_fresh w mc token_sequences)
    as [toks [H1 [H2 [H3 [_ [H5 _]]]]]].
  cbv zeta in H1, H2, H3.
  set (built := Cooc.build_vocabulary (Cooc.init w mc) token_sequences) in *.
  assert (Hm : Cooc.token_to_id self = by_token (Cooc.enumerate toks))
    by exact H1.
  assert (Hi : Cooc.id_to_token self = Cooc.enumerate toks) by exact H2.
  assert (Hv : Cooc.vocab_size self = Z.of_nat (length toks)) by exact H3.
  assert (Hc : NoDup (Dict.keys (Cooc.token_counts self))).
  { unfold self, built, Cooc.compute_cooccurrence, Cooc.build_vocabulary.
    cbn [Cooc.token_counts Cooc.init]. rewrite count_tokens_tally.
    apply tally_all_nodup. constructor. }
  unfold ids, Cooc.top_token_ids in *. rewrite Hm in *.
  set (top_tokens :=
         slice_to (sorted_desc Cooc.count_lt (Cooc.token_counts self))
                  max_tokens) in *.
  assert (Hrange : forall i,
             In i (flat_map
                     (fun tc : pystr * Z =>
                        match Dict.get Py.eqb (by_token (Cooc.enumerate toks))
                                       (fst tc) with
                        | Some id => [id]
                        | None => []
                        end) top_tokens) ->
             (0 <= i < Z.of_nat (length toks))%Z).
  { intros i Hin. apply lookups_in in Hin. destruct Hin as [t [_ Hg]].
    apply get_some_in in Hg. unfold Cooc.enumerate in Hg.
    rewrite by_token_values in Hg. apply in_range in Hg. lia. }
  assert (Hnd : NoDup (flat_map
                         (fun tc : pystr * Z =>
                            match Dict.get Py.eqb
                                    (by_token (Cooc.enumerate toks))
                                    (fst tc) with
                            | Some id => [id]
                            | None => []
                            end) top_tokens)).
  { apply lookups_nodup.
    - intros t1 t2 i G1 G2.
      apply (enumerate_inverse t1 i H5) in G1.
      apply (enumerate_inverse t2 i H5) in G2. congruence.
    - destruct (slice_to_split
                  (sorted_desc Cooc.count_lt (Cooc.token_counts self))
                  max_tokens) as [rest Hrest].
      fold top_tokens in Hrest.
      assert (Hs : NoDup (map fst (sorted_desc Cooc.count_lt
                                               (Cooc.token_counts self)))).
      { apply (Permutation_NoDup
                 (Permutation_map fst
                    (Permutation_sym (sorted_desc_perm Cooc.count_lt _)))).
        exact Hc. }
      rewrite Hrest, map_app in Hs. now apply nodup_app_left in Hs. }
  split; [|split; [exact Hnd|split]].
  - unfold Cooc.save_dense_matrix_csv, Cooc.top_token_ids.
    rewrite Hm, Hi. fold top_tokens.
    replace (forallb _ _) with true; [reflexivity|].
    symmetry. apply forallb_forall. intros i Hin.
    apply enumerate_lookup. now apply Hrange.
  - rewrite Hv. pose proof (nodup_within_range Hnd Hrange) as Hl. lia.
  - destruct (Z.ltb_spec max_tokens 0) as [Hneg|Hpos]; [now left|right].
    pose proof (lookups_length (by_token (Cooc.enumerate toks)) top_tokens)
      as Hl1.
    pose proof (slice_to_length
                  (sorted_desc Cooc.count_lt (Cooc.token_counts self)) Hpos)
      as Hl2.
    fold top_tokens in Hl2. lia.
Qed.
